(** * Glide Reader: tokenizer, timing, playback and session metrics

    A shallow embedding of the RSVP core of the Glide Reader application
    ([lib/rsvp/tokenizer.ts], [lib/rsvp/timing.ts], the playback handlers of
    the [App] component and [lib/storage/session-store.ts]) together with the
    properties its specification states about them.

    Conventions of the embedding.
    - A JavaScript [number] that holds a time, a speed or a multiplier is an
      exact rational ([Q]); indices and counts are integers ([Z]).  Rounding
      error of IEEE doubles is outside the model, except in [Float64], which
      rounds the result of every operation to the nearest double and holds
      the functions whose properties depend on it.
    - A JavaScript string is the list of its UTF-16 code units ([list N]).
    - Mutable objects are threaded explicitly: a function that mutates its
      argument returns the new value next to its result.
    - The clock ([performance.now()]) is an input of every function that
      reads it. *)

From stdpp Require Import gmap strings.
From Stdlib Require Import ZArith QArith Qminmax Qround Qpower List Bool Lia Lqa.
Import ListNotations.

Local Open Scope Z_scope.

(* ===================================================================== *)
(** * [lib/rsvp/timing.ts]: drift arithmetic *)
(* ===================================================================== *)

Module Timing.

Local Open Scope Q_scope.

Record TimingState := mkTimingState {
  expectedTime : Q;
  lastTickTime : Q;
  totalDrift : Q
}.

(** [createTimingState] reads the clock twice, [t0] then [t1]. *)
Definition createTimingState (t0 t1 : Q) : TimingState :=
  {| expectedTime := t0; lastTickTime := t1; totalDrift := 0 |}.

(** [calculateNextTick(state, intervalMs)], with [now] the value of
    [performance.now()].  The function mutates [state]; the embedding
    returns the delay and the mutated state.  A result of [-1] asks for an
    immediate tick. *)
Definition calculateNextTick (now : Q) (state : TimingState) (intervalMs : Q)
  : Q * TimingState :=
  let expectedNextTime := expectedTime state + intervalMs in
  let drift := now - expectedNextTime in
  let state1 := {| expectedTime := expectedTime state;
                   lastTickTime := now;
                   totalDrift := drift |} in
  if Qle_bool intervalMs drift then
    (-1, {| expectedTime := now + intervalMs;
            lastTickTime := lastTickTime state1;
            totalDrift := totalDrift state1 |})
  else
    let delay := Qmax 0 (intervalMs - drift) in
    (delay, {| expectedTime := expectedNextTime;
               lastTickTime := lastTickTime state1;
               totalDrift := totalDrift state1 |}).

End Timing.

(* ===================================================================== *)
(** * [lib/rsvp/timing.ts]: the scheduler and its host *)
(* ===================================================================== *)

Module DriftCompensatedScheduler.

Import Timing.
Local Open Scope Q_scope.

(** The closure [tick] that one call of [start] creates: it captures the
    callback, here named by a number, and the interval. *)
Record Tick := mkTick {
  tick_callback : nat;
  tick_intervalMs : Q
}.

(** One scheduler instance and the part of its host that it uses.
    - [state], [timerId], [isRunning]: the private fields of the class.
    - [timeouts]: the pending [setTimeout] callbacks by handle, each with its
      delay; [frames]: the pending [requestAnimationFrame] callbacks by
      handle.  The two kinds of handle are numbered independently.
    - [calls]: the callbacks invoked so far, latest first. *)
Record World := mkWorld {
  state : TimingState;
  timerId : option nat;
  isRunning : bool;
  timeouts : gmap nat (Q * Tick);
  frames : gmap nat Tick;
  nextTimeout : nat;
  nextFrame : nat;
  calls : list nat
}.

Definition set_sched (st : TimingState) (id : option nat) (run : bool)
           (w : World) : World :=
  {| state := st; timerId := id; isRunning := run;
     timeouts := timeouts w; frames := frames w;
     nextTimeout := nextTimeout w; nextFrame := nextFrame w;
     calls := calls w |}.

Definition set_state (st : TimingState) (w : World) : World :=
  set_sched st (timerId w) (isRunning w) w.

Definition set_timerId (id : option nat) (w : World) : World :=
  set_sched (state w) id (isRunning w) w.

Definition set_isRunning (run : bool) (w : World) : World :=
  set_sched (state w) (timerId w) run w.

(** [window.setTimeout(tick, delay)]: the new handle and the host with the
    callback pending. *)
Definition setTimeout (tk : Tick) (delay : Q) (w : World) : nat * World :=
  let id := nextTimeout w in
  (id, {| state := state w; timerId := timerId w; isRunning := isRunning w;
          timeouts := <[id := (delay, tk)]> (timeouts w); frames := frames w;
          nextTimeout := S id; nextFrame := nextFrame w;
          calls := calls w |}).

(** [window.requestAnimationFrame(() => { if (this.isRunning) tick(); })]. *)
Definition requestAnimationFrame (tk : Tick) (w : World) : nat * World :=
  let id := nextFrame w in
  (id, {| state := state w; timerId := timerId w; isRunning := isRunning w;
          timeouts := timeouts w; frames := <[id := tk]> (frames w);
          nextTimeout := nextTimeout w; nextFrame := S id;
          calls := calls w |}).

(** [window.clearTimeout(id)]; an unknown handle is ignored. *)
Definition clearTimeout (id : nat) (w : World) : World :=
  {| state := state w; timerId := timerId w; isRunning := isRunning w;
     timeouts := delete id (timeouts w); frames := frames w;
     nextTimeout := nextTimeout w; nextFrame := nextFrame w;
     calls := calls w |}.

(** [window.cancelAnimationFrame(id)]; an unknown handle is ignored. *)
Definition cancelAnimationFrame (id : nat) (w : World) : World :=
  {| state := state w; timerId := timerId w; isRunning := isRunning w;
     timeouts := timeouts w; frames := delete id (frames w);
     nextTimeout := nextTimeout w; nextFrame := nextFrame w;
     calls := calls w |}.

(** [stop()]. *)
Definition stop (w : World) : World :=
  let w := set_isRunning false w in
  match timerId w with
  | Some id =>
      let w := clearTimeout id w in
      let w := cancelAnimationFrame id w in
      set_timerId None w
  | None => w
  end.

(** [callback()]: the invocation is recorded.  The callback is the caller's
    code; of what it may do to the scheduler the model covers a call of
    [stop()], made when [stops] holds. *)
Definition invoke (cb : nat) (stops : bool) (w : World) : World :=
  let w := {| state := state w; timerId := timerId w; isRunning := isRunning w;
              timeouts := timeouts w; frames := frames w;
              nextTimeout := nextTimeout w; nextFrame := nextFrame w;
              calls := cb :: calls w |} in
  if stops then stop w else w.

(** The closure [tick], run at clock reading [now]. *)
Definition tick (tk : Tick) (now : Q) (stops : bool) (w : World) : World :=
  if negb (isRunning w) then w
  else
    let w := invoke (tick_callback tk) stops w in
    let (delay, st) := calculateNextTick now (state w) (tick_intervalMs tk) in
    let w := set_state st w in
    if Qle_bool 0 delay then
      let (id, w) := setTimeout tk delay w in
      set_timerId (Some id) w
    else
      let (id, w) := requestAnimationFrame tk w in
      set_timerId (Some id) w.

(** The arrow function handed to [requestAnimationFrame]. *)
Definition frame_callback (tk : Tick) (now : Q) (stops : bool) (w : World)
  : World :=
  if isRunning w then tick tk now stops w else w.

(** [start(callback, intervalMs)]; [t0] and [t1] are the clock readings of
    [createTimingState]. *)
Definition start (cb : nat) (intervalMs : Q) (t0 t1 : Q) (stops : bool)
           (w : World) : World :=
  if isRunning w then w
  else
    let w := set_isRunning true w in
    let w := set_state (createTimingState t0 t1) w in
    let tk := {| tick_callback := cb; tick_intervalMs := intervalMs |} in
    let w := invoke cb stops w in
    let (id, w) := setTimeout tk intervalMs w in
    set_timerId (Some id) w.

(** [new DriftCompensatedScheduler()] in a host with nothing pending. *)
Definition init (t0 t1 : Q) : World :=
  {| state := createTimingState t0 t1; timerId := None; isRunning := false;
     timeouts := ∅; frames := ∅; nextTimeout := 1; nextFrame := 1;
     calls := [] |}.

(** What can happen to the scheduler: its owner calls [start] or [stop], or
    the host runs a pending callback, which it removes from its queue
    first.  A handle with nothing pending runs nothing. *)
Inductive Event :=
| EStart (cb : nat) (intervalMs t0 t1 : Q) (stops : bool)
| EStop
| ETimeout (id : nat) (now : Q) (stops : bool)
| EFrame (id : nat) (now : Q) (stops : bool).

Definition step (w : World) (e : Event) : World :=
  match e with
  | EStart cb intervalMs t0 t1 stops => start cb intervalMs t0 t1 stops w
  | EStop => stop w
  | ETimeout id now stops =>
      match timeouts w !! id with
      | Some (_, tk) => tick tk now stops (clearTimeout id w)
      | None => w
      end
  | EFrame id now stops =>
      match frames w !! id with
      | Some tk => frame_callback tk now stops (cancelAnimationFrame id w)
      | None => w
      end
  end.

Definition run (w : World) (es : list Event) : World := fold_left step es w.

Definition is_start (e : Event) : bool :=
  match e with EStart _ _ _ _ _ => true | _ => false end.

(** The callback of the event, if it is invoked, leaves the scheduler alone. *)
Definition plain (e : Event) : bool :=
  match e with
  | EStart _ _ _ _ stops | ETimeout _ _ stops | EFrame _ _ stops => negb stops
  | EStop => true
  end.

(** The callbacks that the host still holds for the scheduler. *)
Definition pending (w : World) : nat := size (timeouts w) + size (frames w).

(** Invariant of the runs whose callbacks leave the scheduler alone: the
    host holds at most one callback, and its handle is [timerId]. *)
Inductive tracked (w : World) : Prop :=
| tracked_none :
    timeouts w = ∅ -> frames w = ∅ -> tracked w
| tracked_timeout (id : nat) (e : Q * Tick) :
    isRunning w = true -> timerId w = Some id ->
    timeouts w = {[ id := e ]} -> frames w = ∅ -> tracked w
| tracked_frame (id : nat) (tk : Tick) :
    isRunning w = true -> timerId w = Some id ->
    timeouts w = ∅ -> frames w = {[ id := tk ]} -> tracked w.

(** A scheduler started at 0 with callback 7 every 100ms, whose first
    timeout ran late at 350 and asked for an animation frame: a second
    [start] changes nothing, and after [stop] neither the frame nor any
    timeout invokes the callback again. *)
Definition late_world : World :=
  run (init 0 0) [EStart 7 100 0 0 false; ETimeout 1 350 false].

End DriftCompensatedScheduler.
(* ===================================================================== *)
(** * JavaScript strings *)
(* ===================================================================== *)

Module JsString.

Local Open Scope N_scope.

(** A string is the list of its UTF-16 code units. *)
Abbreviation str := (list N).

Definition LF : N := 10.
Definition CR : N := 13.

(** The embedding of an ASCII literal. *)
Definition lit (s : string) : str :=
  map Ascii.N_of_ascii (String.list_ascii_of_string s).

(** The characters matched by [\s] in a regular expression, which are also
    the ones [trim] removes: ECMAScript's WhiteSpace and LineTerminator
    (tab, line feed, vertical tab, form feed, carriage return, space,
    no-break space, the Unicode space separators, the line and paragraph
    separators and the byte order mark). *)
Definition is_space (c : N) : bool :=
  ((9 <=? c) && (c <=? 13)) || (c =? 32) || (c =? 160) || (c =? 5760) ||
  ((8192 <=? c) && (c <=? 8202)) || (c =? 8232) || (c =? 8233) ||
  (c =? 8239) || (c =? 8287) || (c =? 12288) || (c =? 65279).

Fixpoint trimStart (s : str) : str :=
  match s with
  | [] => []
  | c :: s' => if is_space c then trimStart s' else s
  end.

Fixpoint trimEnd (s : str) : str :=
  match s with
  | [] => []
  | c :: s' =>
      match trimEnd s' with
      | [] => if is_space c then [] else [c]
      | t => c :: t
      end
  end.

(** [s.trim()]. *)
Definition trim (s : str) : str := trimEnd (trimStart s).

(** [s.at(-1)]: the last code unit, [None] for [undefined]. *)
Definition at_last (s : str) : option N := List.last (map Some s) None.

(** [s.split(/\r?\n/)], by the language's split algorithm: scanning from
    the left, a separator is a line feed, or a carriage return directly
    followed by one; [cur] is the piece since the last separator.  The
    result is never empty ([""] gives [[""]]). *)
Fixpoint split_lines_from (cur : str) (s : str) : list str :=
  match s with
  | [] => [cur]
  | c :: s' =>
      if (c =? LF)%N then cur :: split_lines_from [] s'
      else if (c =? CR)%N then
        match s' with
        | c' :: s'' =>
            if (c' =? LF)%N then cur :: split_lines_from [] s''
            else split_lines_from (cur ++ [c]) s'
        | [] => split_lines_from (cur ++ [c]) s'
        end
      else split_lines_from (cur ++ [c]) s'
  end.

Definition split_lines (s : str) : list str := split_lines_from [] s.

(** [s.split(/\s+/)]: a separator is a maximal run of white space;
    [insep] tells that the scan is inside such a run, which the greedy [+]
    extends before the next piece begins.  A leading or trailing run
    leaves an empty piece at that end. *)
Fixpoint split_spaces_from (insep : bool) (cur : str) (s : str) : list str :=
  match s with
  | [] => [cur]
  | c :: s' =>
      if is_space c then
        if insep then split_spaces_from true cur s'
        else cur :: split_spaces_from true [] s'
      else split_spaces_from false (cur ++ [c]) s'
  end.

Definition split_spaces (s : str) : list str := split_spaces_from false [] s.

(** [/\n\s*\n/.test(s)]: some line feed is followed, after white space
    only, by another line feed.  [armed] tells that a line feed was seen
    with nothing but white space since. *)
Fixpoint paragraph_break_from (armed : bool) (s : str) : bool :=
  match s with
  | [] => false
  | c :: s' =>
      if (c =? LF)%N then (if armed then true else paragraph_break_from true s')
      else if is_space c then paragraph_break_from armed s'
      else paragraph_break_from false s'
  end.

Definition has_paragraph_break (s : str) : bool := paragraph_break_from false s.

(** The empty string is the only falsy string. *)
Definition is_empty (s : str) : bool :=
  match s with [] => true | _ :: _ => false end.

Definition nonempty (s : str) : bool := negb (is_empty s).

(** ** The vocabulary of the specification *)

(** The white-space separated non-empty fragments of a string, in order:
    its maximal runs of characters that are not white space.  [cur] is the
    run being read.  This definition follows the specification's words and
    is what the tokenizer is compared with. *)
Definition flush (cur : str) : list str :=
  if is_empty cur then [] else [cur].

Fixpoint fragments_from (cur : str) (s : str) : list str :=
  match s with
  | [] => flush cur
  | c :: s' =>
      if is_space c then flush cur ++ fragments_from [] s'
      else fragments_from (cur ++ [c]) s'
  end.

Definition fragments (s : str) : list str := fragments_from [] s.

(** The newline-separated lines of a string, again in the specification's
    words: the pieces between line feeds. *)
Fixpoint newline_lines_from (cur : str) (s : str) : list str :=
  match s with
  | [] => [cur]
  | c :: s' =>
      if (c =? LF)%N then cur :: newline_lines_from [] s'
      else newline_lines_from (cur ++ [c]) s'
  end.

Definition newline_lines (s : str) : list str := newline_lines_from [] s.

(** The fragments of all lines, line after line. *)
Definition line_fragments (s : str) : list str :=
  flat_map fragments (newline_lines s).

(** A word: a non-empty string without white space. *)
Definition is_word (w : str) : bool :=
  negb (is_empty w) && forallb (fun c => negb (is_space c)) w.

(** A string of white space only. *)
Definition all_space (s : str) : bool := forallb is_space s.

Definition has_LF (s : str) : bool := existsb (fun c => (c =? LF)%N) s.

(** A string after which a word can begin: it is empty or ends in white
    space. *)
Definition at_boundary (s : str) : bool :=
  match at_last s with
  | None => true
  | Some c => is_space c
  end.

End JsString.

(* ===================================================================== *)
(** * [lib/rsvp/tokenizer.ts] *)
(* ===================================================================== *)

Module Tokenizer.

Import JsString.
Local Open Scope Q_scope.

Record PauseProfile := mkPauseProfile {
  comma : Q;
  semicolon : Q;
  colon : Q;
  period : Q;
  exclamation : Q;
  question : Q;
  paragraph : Q
}.

Record Token := mkToken {
  text : str;
  orpIndex : Z;
  pauseMultiplier : Q
}.

(** [PAUSE_PROFILES.fast], [.normal] and [.slow]. *)
Definition fast : PauseProfile :=
  {| comma := 3 # 10; semicolon := 3 # 10; colon := 3 # 10;
     period := 8 # 10; exclamation := 8 # 10; question := 8 # 10;
     paragraph := 15 # 10 |}.

Definition normal : PauseProfile :=
  {| comma := 4 # 10; semicolon := 4 # 10; colon := 4 # 10;
     period := 12 # 10; exclamation := 12 # 10; question := 12 # 10;
     paragraph := 2 |}.

Definition slow : PauseProfile :=
  {| comma := 6 # 10; semicolon := 6 # 10; colon := 6 # 10;
     period := 18 # 10; exclamation := 18 # 10; question := 18 # 10;
     paragraph := 3 |}.

Definition PAUSE_PROFILES : gmap string PauseProfile :=
  <["fast" := fast]> (<["normal" := normal]> (<["slow" := slow]> ∅)).

(** A profile whose sentence pause is longer than its paragraph pause. *)
Definition inverted : PauseProfile :=
  {| comma := 1 # 2; semicolon := 1 # 2; colon := 1 # 2;
     period := 3; exclamation := 3; question := 3;
     paragraph := 1 |}.

(** The paragraph value bounds every punctuation value that the tokenizer
    reads and is not negative; the three profiles above are of that kind. *)
Definition paragraph_dominates (p : PauseProfile) : Prop :=
  0 <= paragraph p /\ comma p <= paragraph p /\ colon p <= paragraph p /\
  period p <= paragraph p /\ exclamation p <= paragraph p /\
  question p <= paragraph p.

(** [calculateORPIndex(word)]. *)
Definition calculateORPIndex (word : str) : Z :=
  let len := Z.of_nat (length word) in
  if (len <=? 2)%Z then 0%Z
  else if (len <=? 5)%Z then 1%Z
  else if (len <=? 9)%Z then 2%Z
  else if (len <=? 13)%Z then 3%Z
  else 4%Z.

Definition is_char (c : N) (lastChar : option N) : bool :=
  match lastChar with
  | Some d => (d =? c)%N
  | None => false
  end.

Definition DOT : N := 46.
Definition BANG : N := 33.
Definition QMARK : N := 63.
Definition COMMA : N := 44.
Definition SEMI : N := 59.
Definition COLON : N := 58.

(** The value derived from the last character of the trimmed text: the
    part of [calculatePauseMultiplier] after its paragraph test. *)
Definition punctuationPause (text : str) (profile : PauseProfile) : Q :=
  let trimmed := trim text in
  let lastChar := at_last trimmed in
  if is_char DOT lastChar || is_char BANG lastChar || is_char QMARK lastChar then
    Qmax (Qmax (period profile) (exclamation profile)) (question profile)
  else if is_char COMMA lastChar || is_char SEMI lastChar then comma profile
  else if is_char COLON lastChar then colon profile
  else 0.

(** [calculatePauseMultiplier(text, profile)]. *)
Definition calculatePauseMultiplier (text : str) (profile : PauseProfile) : Q :=
  if has_paragraph_break text then paragraph profile
  else punctuationPause text profile.

(** The body of the inner loop of [tokenize] for a non-empty [word]:
    [i] and [j] are the loop counters, [nlines] and [nwords] the lengths of
    [lines] and [words]. *)
Definition make_token (profile : PauseProfile) (nlines i nwords j : Z)
           (word : str) : Token :=
  let isEndOfParagraph := ((j =? nwords - 1)%Z && (i <? nlines - 1)%Z)%bool in
  let pauseMultiplier := calculatePauseMultiplier word profile in
  let pauseMultiplier :=
    if isEndOfParagraph then Qmax pauseMultiplier (paragraph profile)
    else pauseMultiplier in
  {| text := word;
     orpIndex := calculateORPIndex word;
     pauseMultiplier := pauseMultiplier |}.

(** The inner loop, from counter [j] on; [rest] is [words] from [j]. *)
Fixpoint words_loop (profile : PauseProfile) (nlines i nwords j : Z)
         (rest : list str) : list Token :=
  match rest with
  | [] => []
  | word :: rest' =>
      if is_empty word then words_loop profile nlines i nwords (j + 1)%Z rest'
      else make_token profile nlines i nwords j word
             :: words_loop profile nlines i nwords (j + 1)%Z rest'
  end.

(** The outer loop, from counter [i] on; [rest] is [lines] from [i]. *)
Fixpoint lines_loop (profile : PauseProfile) (nlines i : Z)
         (rest : list str) : list Token :=
  match rest with
  | [] => []
  | l :: rest' =>
      let line := trim l in
      if is_empty line then lines_loop profile nlines (i + 1)%Z rest'
      else
        let words := split_spaces line in
        words_loop profile nlines i (Z.of_nat (length words)) 0%Z words
          ++ lines_loop profile nlines (i + 1)%Z rest'
  end.

(** The tokens of the line with counter [i]: one round of the outer loop. *)
Definition line_tokens (profile : PauseProfile) (nlines i : Z) (l : str)
  : list Token :=
  lines_loop profile nlines i [l].

(** The token that the loop makes of a word that ends a line with further
    lines after it. *)
Definition line_end_token (profile : PauseProfile) (word : str) : Token :=
  {| text := word;
     orpIndex := calculateORPIndex word;
     pauseMultiplier :=
       Qmax (punctuationPause word profile) (paragraph profile) |}.

(** The segment ["end."] with a blank line after it. *)
Definition end_break : str := lit "end." ++ [LF; LF].

(** [tokenize(text, profile)]. *)
Definition tokenize (text : str) (profile : PauseProfile) : list Token :=
  let lines := split_lines text in
  lines_loop profile (Z.of_nat (length lines)) 0%Z lines.

(** [getTokenDuration(wpm, pauseMultiplier)]. *)
Definition getTokenDuration (wpm pauseMultiplier : Q) : Q :=
  let baseMsPerWord := 60000 / wpm in
  baseMsPerWord * (1 + pauseMultiplier).

End Tokenizer.
(* ===================================================================== *)
(** * The playback state of the [App] component *)
(* ===================================================================== *)

Module Playback.

Import Tokenizer.
Local Open Scope Z_scope.

(** The state variables of [App] that playback reads and writes. *)
Record Player := mkPlayer {
  tokens : list Token;
  currentIndex : Z;
  isPlaying : bool;
  isComplete : bool;
  wpm : Q;
  wasPlayingBeforeScrub : bool
}.

(** [tokens.length]. *)
Definition tokenCount (s : Player) : Z := Z.of_nat (length (tokens s)).

(** The initial values of the state variables. *)
Definition initial : Player :=
  {| tokens := []; currentIndex := 0; isPlaying := false;
     isComplete := false; wpm := 300%Q; wasPlayingBeforeScrub := false |}.

Definition setTokens (ts : list Token) (s : Player) : Player :=
  {| tokens := ts; currentIndex := currentIndex s; isPlaying := isPlaying s;
     isComplete := isComplete s; wpm := wpm s;
     wasPlayingBeforeScrub := wasPlayingBeforeScrub s |}.

Definition setCurrentIndex (i : Z) (s : Player) : Player :=
  {| tokens := tokens s; currentIndex := i; isPlaying := isPlaying s;
     isComplete := isComplete s; wpm := wpm s;
     wasPlayingBeforeScrub := wasPlayingBeforeScrub s |}.

Definition setIsPlaying (b : bool) (s : Player) : Player :=
  {| tokens := tokens s; currentIndex := currentIndex s; isPlaying := b;
     isComplete := isComplete s; wpm := wpm s;
     wasPlayingBeforeScrub := wasPlayingBeforeScrub s |}.

Definition setIsComplete (b : bool) (s : Player) : Player :=
  {| tokens := tokens s; currentIndex := currentIndex s;
     isPlaying := isPlaying s; isComplete := b; wpm := wpm s;
     wasPlayingBeforeScrub := wasPlayingBeforeScrub s |}.

Definition setWpm (v : Q) (s : Player) : Player :=
  {| tokens := tokens s; currentIndex := currentIndex s;
     isPlaying := isPlaying s; isComplete := isComplete s; wpm := v;
     wasPlayingBeforeScrub := wasPlayingBeforeScrub s |}.

Definition setWasPlayingBeforeScrub (b : bool) (s : Player) : Player :=
  {| tokens := tokens s; currentIndex := currentIndex s;
     isPlaying := isPlaying s; isComplete := isComplete s; wpm := wpm s;
     wasPlayingBeforeScrub := b |}.

(** The state updates at the head of [initDocument]: a token list is
    loaded. *)
Definition load (ts : list Token) (s : Player) : Player :=
  setIsComplete false (setIsPlaying false (setCurrentIndex 0 (setTokens ts s))).

(** [tokens[i]], [None] for [undefined]. *)
Definition token_at (s : Player) (i : Z) : option Token :=
  if i <? 0 then None else tokens s !! Z.to_nat i.

(** What the playback effect does for the current state: nothing, or a
    timer armed with a delay and an action, or a [TypeError] where it reads
    [pauseMultiplier] of [undefined]. *)
Inductive TimerAction := MarkComplete | Advance.

Inductive Armed :=
| NoTimer
| Timer (delay : Q) (action : TimerAction)
| TypeError.

Definition playback_effect (s : Player) : Armed :=
  if negb (isPlaying s) || (tokenCount s =? 0) || isComplete s then NoTimer
  else
    match token_at s (currentIndex s) with
    | None => TypeError
    | Some token =>
        let baseMs := (60000 / wpm s)%Q in
        let delay := (baseMs * (1 + pauseMultiplier token))%Q in
        if currentIndex s >=? tokenCount s - 1 then Timer delay MarkComplete
        else Timer delay Advance
    end.

(** The armed timer fires. *)
Definition timer_fired (s : Player) : Player :=
  match playback_effect s with
  | Timer _ MarkComplete => setIsComplete true (setIsPlaying false s)
  | Timer _ Advance => setCurrentIndex (currentIndex s + 1) s
  | _ => s
  end.

Definition handlePlayPause (s : Player) : Player :=
  if isPlaying s then setIsPlaying false s
  else if negb (isComplete s) && (currentIndex s <? tokenCount s)
       then setIsPlaying true s
  else s.

Definition handleRestart (s : Player) : Player :=
  setIsComplete false (setIsPlaying false (setCurrentIndex 0 s)).

Definition handleSkip (delta : Z) (s : Player) : Player :=
  let s1 :=
    setCurrentIndex
      (Z.max 0 (Z.min (tokenCount s - 1) (currentIndex s + delta))) s in
  if (delta <? 0) && isComplete s then setIsComplete false s1 else s1.

Definition handleExitReadingMode (s : Player) : Player :=
  setIsPlaying false s.

Definition handleScrubStart (s : Player) : Player :=
  setIsPlaying false (setWasPlayingBeforeScrub (isPlaying s) s).

Definition handleScrubMove (index : Z) (s : Player) : Player :=
  setCurrentIndex index s.

Definition handleScrubEnd (s : Player) : Player :=
  if wasPlayingBeforeScrub s then setIsPlaying true s else s.

(** The states of the specification, read off the flags.  [Complete] is
    what the timer leaves after the last token; a state that is neither
    playing nor complete is paused (or ready, at index 0). *)
Definition in_Complete (s : Player) : Prop :=
  isComplete s = true /\ isPlaying s = false.

Definition in_Paused (s : Player) : Prop :=
  isComplete s = false /\ isPlaying s = false.

(** The commands under which an empty token list is followed below. *)
Inductive Command :=
| PlayPause
| Restart
| Skip (delta : Z)
| ExitReadingMode
| ScrubStart
| SetWpm (v : Q)
| TimerFired.

Definition exec (s : Player) (c : Command) : Player :=
  match c with
  | PlayPause => handlePlayPause s
  | Restart => handleRestart s
  | Skip delta => handleSkip delta s
  | ExitReadingMode => handleExitReadingMode s
  | ScrubStart => handleScrubStart s
  | SetWpm v => setWpm v s
  | TimerFired => timer_fired s
  end.

Definition execs (s : Player) (cs : list Command) : Player :=
  fold_left exec cs s.

(** The states that hold no token, rest at index 0 and neither play nor
    are complete. *)
Definition empty_idle (s : Player) : Prop :=
  tokens s = [] /\ currentIndex s = 0 /\
  isPlaying s = false /\ isComplete s = false.

(** A reading of ["one two three"] that has run to its end. *)
Definition finished_three : Player :=
  setIsComplete true
    (setCurrentIndex 2
       (load (tokenize (JsString.lit "one two three") normal) initial)).

End Playback.
(* ===================================================================== *)
(** * [lib/storage/session-store.ts] *)
(* ===================================================================== *)

Module Store.

Local Open Scope Q_scope.

(** The records of the three tables, with the fields that the session
    store reads or writes.  Dates are milliseconds since the epoch.  A
    completion ratio is [None] where the division that computes it has a
    zero divisor and gives no finite number. *)
Record UserSettings := mkUserSettings {
  defaultWPM : Q;
  pauseProfile : string
}.

Record Chapter := mkChapter {
  startTokenIndex : Z;
  endTokenIndex : Z
}.

Record Document := mkDocument {
  totalTokens : Z;
  chapters : list Chapter
}.

Record Session := mkSession {
  documentId : string;
  startedAt : Z;
  durationSeconds : Z;
  startWPM : Q;
  endWPM : Q;
  avgWPM : Q;
  bestSustainedWPM60s : Q;
  tokensRead : Z;
  completionDeltaOverall : option Q;
  completionDeltaChapter : option Q;
  pauses : Z;
  rewinds : Z;
  settingsSnapshot : UserSettings
}.

(** The database: each table maps the primary key to the record. *)
Record DB := mkDB {
  documents : gmap string Document;
  sessions : gmap string Session;
  settings : gmap string UserSettings
}.

(** [Math.round]: the nearest integer, a half rounded up. *)
Definition Math_round (x : Q) : Z := Qfloor (x + (1 # 2)).

(** [a / b] on integers; [None] when [b] is 0. *)
Definition ratio (a b : Z) : option Q :=
  if (b =? 0)%Z then None else Some (inject_Z a / inject_Z b).

(** [settings?.defaultWPM || 300]: 300 without a record, and also when the
    configured value is 0. *)
Definition default_speed (s : option UserSettings) : Q :=
  match s with
  | Some st => if Qeq_bool (defaultWPM st) 0 then 300 else defaultWPM st
  | None => 300
  end.

(** [settings || { defaultWPM: 300, pauseProfile: 'normal', ... }]. *)
Definition snapshot (s : option UserSettings) : UserSettings :=
  match s with
  | Some st => st
  | None => {| defaultWPM := 300; pauseProfile := "normal" |}
  end.

(** [createSession(documentId)]; [id] is the fresh identifier and [now] the
    date.  [db.sessions.add] rejects a key that is present: [None]. *)
Definition createSession (id : string) (now : Z) (docId : string) (db : DB)
  : option (Session * DB) :=
  let st := settings db !! "default"%string in
  let session :=
    {| documentId := docId;
       startedAt := now;
       durationSeconds := 0;
       startWPM := default_speed st;
       endWPM := default_speed st;
       avgWPM := default_speed st;
       bestSustainedWPM60s := 0;
       tokensRead := 0;
       completionDeltaOverall := Some 0;
       completionDeltaChapter := Some 0;
       pauses := 0;
       rewinds := 0;
       settingsSnapshot := snapshot st |} in
  match sessions db !! id with
  | Some _ => None
  | None =>
      Some (session,
            {| documents := documents db;
               sessions := <[id := session]> (sessions db);
               settings := settings db |})
  end.

(** [doc.chapters.find(ch => tokenIndex >= ch.startTokenIndex &&
    tokenIndex < ch.endTokenIndex)]. *)
Definition find_chapter (tokenIndex : Z) (chs : list Chapter) : option Chapter :=
  List.find (fun ch => (startTokenIndex ch <=? tokenIndex)%Z
                       && (tokenIndex <? endTokenIndex ch)%Z) chs.

(** The running average that [updateSessionProgress] computes before it
    rounds. *)
Definition Qgt_bool (x y : Q) : bool := negb (Qle_bool x y).

Definition newAvgWPM (session : Session) (wpm : Q) : Q :=
  if Qgt_bool (avgWPM session) 0
  then (avgWPM session * inject_Z (tokensRead session) + wpm)
       / (inject_Z (tokensRead session) + 1)
  else wpm.

(** [updateSessionProgress(sessionId, tokenIndex, wpm, isPause, isRewind)]
    at date [now]: without the session or without its document the
    database is unchanged. *)
Definition updateSessionProgress (now : Z) (sessionId : string)
           (tokenIndex : Z) (wpm : Q) (isPause isRewind : bool) (db : DB) : DB :=
  match sessions db !! sessionId with
  | None => db
  | Some session =>
      match documents db !! documentId session with
      | None => db
      | Some doc =>
          let currentChapter := find_chapter tokenIndex (chapters doc) in
          let updated :=
            {| documentId := documentId session;
               startedAt := startedAt session;
               durationSeconds := ((now - startedAt session) / 1000)%Z;
               startWPM := startWPM session;
               endWPM := wpm;
               avgWPM := inject_Z (Math_round (newAvgWPM session wpm));
               bestSustainedWPM60s := bestSustainedWPM60s session;
               tokensRead := tokenIndex;
               completionDeltaOverall := ratio tokenIndex (totalTokens doc);
               completionDeltaChapter :=
                 match currentChapter with
                 | Some ch =>
                     ratio (tokenIndex - startTokenIndex ch)
                           (endTokenIndex ch - startTokenIndex ch)
                 | None => Some 0
                 end;
               pauses := if isPause then (pauses session + 1)%Z
                         else pauses session;
               rewinds := if isRewind then (rewinds session + 1)%Z
                          else rewinds session;
               settingsSnapshot := settingsSnapshot session |} in
          {| documents := documents db;
             sessions := <[sessionId := updated]> (sessions db);
             settings := settings db |}
      end
  end.

(** A database with one document and one session of it that has read one
    token at an average of 300 words per minute. *)
Definition session_300 : Session :=
  {| documentId := "d1"; startedAt := 0; durationSeconds := 0;
     startWPM := 300; endWPM := 300; avgWPM := 300;
     bestSustainedWPM60s := 0; tokensRead := 1;
     completionDeltaOverall := Some 0; completionDeltaChapter := Some 0;
     pauses := 0; rewinds := 0;
     settingsSnapshot := {| defaultWPM := 300; pauseProfile := "normal" |} |}.

Definition db_300 : DB :=
  {| documents := {[ "d1"%string := {| totalTokens := 10; chapters := [] |} ]};
     sessions := {[ "s1"%string := session_300 ]};
     settings := ∅ |}.

End Store.
(* ===================================================================== *)
(** * [lib/rsvp/timing.ts]: measuring the reading speed *)
(* ===================================================================== *)

Module Measure.

Import Timing DriftCompensatedScheduler Store.
Local Open Scope Q_scope.

(** [calculateWPMCorrection(targetWPM, actualTokensPerMinute)]. *)
Definition calculateWPMCorrection (targetWPM actualTokensPerMinute : Q) : Q :=
  if Qeq_bool actualTokensPerMinute 0 then targetWPM
  else
    let ratio := targetWPM / actualTokensPerMinute in
    inject_Z (Math_round (targetWPM * ratio)).

(** The variables that the closures of [createTimingMeasureCallback]
    share. *)
Record Meter := mkMeter {
  tokenCount : Z;
  startTime : Q
}.

(** [createTimingMeasureCallback()] at clock reading [now]. *)
Definition createTimingMeasureCallback (now : Q) : Meter :=
  {| tokenCount := 0; startTime := now |}.

Definition recordToken (m : Meter) : Meter :=
  {| tokenCount := (tokenCount m + 1)%Z; startTime := startTime m |}.

(** [reset()] at clock reading [now]. *)
Definition reset (now : Q) (m : Meter) : Meter :=
  {| tokenCount := 0; startTime := now |}.

(** [getDrift()] and [active()] of the scheduler. *)
Definition getDrift (w : World) : Q := totalDrift (state w).

Definition active (w : World) : bool := isRunning w.

(** The closure [tick] calls [calculateNextTick] once per tick: the timing
    state after the ticks at the clock readings [nows], in this order. *)
Definition ticks (s : TimingState) (intervalMs : Q) (nows : list Q)
  : TimingState :=
  fold_left (fun st now => snd (calculateNextTick now st intervalMs)) nows s.

(** All of the ticks at [nows] come less than one interval late. *)
Fixpoint on_time (s : TimingState) (intervalMs : Q) (nows : list Q) : bool :=
  match nows with
  | [] => true
  | now :: rest =>
      negb (Qle_bool intervalMs (now - (expectedTime s + intervalMs)))
      && on_time (snd (calculateNextTick now s intervalMs)) intervalMs rest
  end.

(** The callback of the ticks that the host holds is [cb]. *)
Definition pending_call (cb : nat) (w : World) : Prop :=
  (forall id d tk, timeouts w !! id = Some (d, tk) -> tick_callback tk = cb) /\
  (forall id tk, frames w !! id = Some tk -> tick_callback tk = cb).

(** A running scheduler has exactly one callback with the host, under the
    handle [timerId]; a stopped one has none. *)
Definition armed (w : World) : Prop :=
  if isRunning w then
    exists id, timerId w = Some id /\
      ((exists e, timeouts w = {[ id := e ]} /\ frames w = ∅) \/
       (exists tk, timeouts w = ∅ /\ frames w = {[ id := tk ]}))
  else timeouts w = ∅ /\ frames w = ∅.

End Measure.
(* ===================================================================== *)
(** * [lib/rsvp/tokenizer.ts]: notions for further properties *)
(* ===================================================================== *)

Module TokenizerFacts.

Import JsString Tokenizer.
Local Open Scope Q_scope.

(** The token of a word that gets no paragraph floor. *)
Definition plain_token (profile : PauseProfile) (word : str) : Token :=
  {| text := word;
     orpIndex := calculateORPIndex word;
     pauseMultiplier := punctuationPause word profile |}.

(** The profile with another semicolon value. *)
Definition with_semicolon (v : Q) (p : PauseProfile) : PauseProfile :=
  {| comma := comma p; semicolon := v; colon := colon p;
     period := period p; exclamation := exclamation p;
     question := question p; paragraph := paragraph p |}.

(** No value that the tokenizer reads is negative. *)
Definition pauses_nonnegative (p : PauseProfile) : Prop :=
  0 <= comma p /\ 0 <= colon p /\ 0 <= period p /\ 0 <= paragraph p.

(** A token as the display needs it: its text is a word, its anchor is the
    one of the length table and indexes a character of the text. *)
Definition well_formed (tok : Token) : Prop :=
  is_word (text tok) = true /\
  orpIndex tok = calculateORPIndex (text tok) /\
  (0 <= orpIndex tok < Z.of_nat (length (text tok)))%Z.

Definition no_space (w : str) : bool :=
  forallb (fun c => negb (is_space c)) w.

End TokenizerFacts.
(* ===================================================================== *)
(** * The handlers of [App], [ReadingMode] and [DualProgressBar] together *)
(* ===================================================================== *)

Module Controls.

Import Tokenizer Playback.
Local Open Scope Z_scope.

(** Everything that the user and the timer can do to the playback state. *)
Inductive Action :=
| ALoad (ts : list Token)
| APlayPause
| ARestart
| ASkip (delta : Z)
| AExitReadingMode
| AScrubStart
| AScrubMove (index : Z)
| AScrubEnd
| ASetWpm (v : Q)
| ATimerFired.

Definition perform (s : Player) (a : Action) : Player :=
  match a with
  | ALoad ts => load ts s
  | APlayPause => handlePlayPause s
  | ARestart => handleRestart s
  | ASkip delta => handleSkip delta s
  | AExitReadingMode => handleExitReadingMode s
  | AScrubStart => handleScrubStart s
  | AScrubMove index => handleScrubMove index s
  | AScrubEnd => handleScrubEnd s
  | ASetWpm v => setWpm v s
  | ATimerFired => timer_fired s
  end.

Definition performs (s : Player) (acts : list Action) : Player :=
  fold_left perform acts s.

(** The index is 0 or the index of a token. *)
Definition index_ok (s : Player) : Prop :=
  0 <= currentIndex s <= Z.max 0 (tokenCount s - 1).

(** Every scrub of the run moves to 0 or to the index of a token of the
    state in which it happens. *)
Fixpoint scrubs_in_range (s : Player) (acts : list Action) : bool :=
  match acts with
  | [] => true
  | a :: rest =>
      match a with
      | AScrubMove index =>
          (0 <=? index) && (index <=? Z.max 0 (tokenCount s - 1))
      | _ => true
      end && scrubs_in_range (perform s a) rest
  end.

(** [getChapterInfo(positionPx).tokenIndex] of the progress bar, [None]
    where [getChapterInfo] returns [null] because the width is 0. *)
Definition scrub_index (positionPx containerWidth : Q) (totalTokens : Z)
  : option Z :=
  if Qeq_bool containerWidth 0 then None
  else
    let percent := Qmax 0 (Qmin 1 (positionPx / containerWidth)) in
    Some (Qfloor (percent * inject_Z totalTokens)).

(** The speed controls: the arrow keys and the two buttons of the reading
    mode, and the two buttons of the start page. *)
Inductive SpeedControl :=
| KeyArrowUp | KeyArrowDown | DockMinus | DockPlus | PageMinus | PagePlus.

Definition speed_after (c : SpeedControl) (wpm : Q) : Q :=
  match c with
  | KeyArrowUp => Qmin 900 (wpm + 10)
  | KeyArrowDown => Qmax 200 (wpm - 10)
  | DockMinus => Qmax 200 (wpm - 50)
  | DockPlus => Qmin 900 (wpm + 50)
  | PageMinus => Qmax 100 (wpm - 50)
  | PagePlus => Qmin 900 (wpm + 50)
  end.

Definition press (s : Player) (c : SpeedControl) : Player :=
  setWpm (speed_after c (wpm s)) s.

End Controls.
(* ===================================================================== *)
(** * The rest of the storage layer *)
(* ===================================================================== *)

Module StoreMore.

Import Store.
Local Open Scope Q_scope.

(** ** The settings table *)

(** The record that [initDB] stores under the key ["default"]. *)
Definition default_settings : UserSettings :=
  {| defaultWPM := 300; pauseProfile := "normal" |}.

(** [initDB()]: an empty settings table gets the default record. *)
Definition initDB (db : DB) : DB :=
  if (size (settings db) =? 0)%nat then
    {| documents := documents db;
       sessions := sessions db;
       settings := <["default"%string := default_settings]> (settings db) |}
  else db.

(** [getSettings()]; [None] where it throws because the record is
    missing. *)
Definition getSettings (db : DB) : option UserSettings :=
  settings db !! "default"%string.

(** The fields that a call of [updateSettings] names, each with its new
    value.  The model covers the calls that leave the key of the record
    alone. *)
Record SettingsUpdate := mkSettingsUpdate {
  new_defaultWPM : option Q;
  new_pauseProfile : option string
}.

(** [{ ...current, ...updates }]. *)
Definition merge_settings (current : UserSettings) (updates : SettingsUpdate)
  : UserSettings :=
  {| defaultWPM := default (defaultWPM current) (new_defaultWPM updates);
     pauseProfile := default (pauseProfile current) (new_pauseProfile updates) |}.

(** [updateSettings(updates)]; [None] where [getSettings] throws. *)
Definition updateSettings (updates : SettingsUpdate) (db : DB) : option DB :=
  match getSettings db with
  | None => None
  | Some current =>
      Some {| documents := documents db;
              sessions := sessions db;
              settings := <["default"%string := merge_settings current updates]>
                            (settings db) |}
  end.

(** ** Sessions *)

(** [finalizeSession(sessionId, bestSustainedWPM60s, finalTokenIndex)].
    The date [endedAt] that it also stores is not a field of the session
    record of the model. *)
Definition finalizeSession (sessionId : string) (best : Q)
           (finalTokenIndex : Z) (db : DB) : DB :=
  match sessions db !! sessionId with
  | None => db
  | Some session =>
      match documents db !! documentId session with
      | None => db
      | Some doc =>
          let finalChapter := find_chapter finalTokenIndex (chapters doc) in
          let updated :=
            {| documentId := documentId session;
               startedAt := startedAt session;
               durationSeconds := durationSeconds session;
               startWPM := startWPM session;
               endWPM := endWPM session;
               avgWPM := avgWPM session;
               bestSustainedWPM60s := best;
               tokensRead := finalTokenIndex;
               completionDeltaOverall := ratio finalTokenIndex (totalTokens doc);
               completionDeltaChapter :=
                 match finalChapter with
                 | Some ch =>
                     ratio (finalTokenIndex - startTokenIndex ch)
                           (endTokenIndex ch - startTokenIndex ch)
                 | None => Some 1
                 end;
               pauses := pauses session;
               rewinds := rewinds session;
               settingsSnapshot := settingsSnapshot session |} in
          {| documents := documents db;
             sessions := <[sessionId := updated]> (sessions db);
             settings := settings db |}
      end
  end.

(** [calculateGlideScore(session)]; [None] where the completion ratio is
    no finite number and the score is none either. *)
Definition calculateGlideScore (session : Session) : option Z :=
  match completionDeltaOverall session with
  | None => None
  | Some completion =>
      let efficiencyScore := Qmin 100 (avgWPM session / 600 * 100) in
      let consistencyScore :=
        if Qgt_bool (avgWPM session) 0
        then Qmin 100 (bestSustainedWPM60s session / avgWPM session * 100)
        else 0 in
      let completionScore := completion * 100 in
      Some (Math_round (efficiencyScore * (4 # 10)
                        + consistencyScore * (3 # 10)
                        + completionScore * (3 # 10)))
  end.

(** [deleteDocument(id)] of the document store: the document and the
    sessions that name it. *)
Definition deleteDocument (id : string) (db : DB) : DB :=
  {| documents := delete id (documents db);
     sessions := base.filter (fun kv : string * Session =>
                                documentId (snd kv) <> id) (sessions db);
     settings := settings db |}.

(** ** The speed history of [App] *)

(** An entry of [wpmHistory]. *)
Record Sample := mkSample {
  timestamp : Z;
  sample_wpm : Q
}.

(** The effect that follows a change of the speed: the entry is pushed at
    date [now1] and the entries not later than 60 seconds before the date
    [now2] are dropped. *)
Definition recordWpm (now1 now2 : Z) (wpm : Q) (history : list Sample)
  : list Sample :=
  let pushed := history ++ [ {| timestamp := now1; sample_wpm := wpm |} ] in
  let cutoff := (now2 - 60000)%Z in
  List.filter (fun e => (cutoff <? timestamp e)%Z) pushed.

(** The entries of the window of 60 seconds that begins at [start]. *)
Definition windowEntries (history : list Sample) (start : Z) : list Sample :=
  List.filter (fun e => (start <=? timestamp e)%Z
                        && (timestamp e <=? start + 60000)%Z) history.

(** [entries.reduce((sum, e) => sum + e.wpm, 0) / entries.length]. *)
Definition averageWPM (entries : list Sample) : Q :=
  fold_left (fun sum e => sum + sample_wpm e) entries 0
  / inject_Z (Z.of_nat (length entries)).

(** The best sustained speed that [finalize] computes from the current
    speed and the history. *)
Definition bestSustainedWPM (wpm : Q) (history : list Sample) : Q :=
  if (1 <? length history)%nat then
    let maxAvgWPM :=
      fold_left
        (fun maxAvg e =>
           let entries := windowEntries history (timestamp e) in
           if (1 <? length entries)%nat
           then Qmax maxAvg (averageWPM entries)
           else maxAvg)
        history 0 in
    inject_Z (Math_round maxAvgWPM)
  else wpm.

(** The entries are in the order of their dates. *)
Fixpoint chronological (history : list Sample) : Prop :=
  match history with
  | [] => True
  | e :: rest =>
      Forall (fun e' => (timestamp e <= timestamp e')%Z) rest
      /\ chronological rest
  end.

(** A history of three entries at 300 words per minute. *)
Definition steady_history : list Sample :=
  [ {| timestamp := 1000; sample_wpm := 300 |};
    {| timestamp := 21000; sample_wpm := 300 |};
    {| timestamp := 58000; sample_wpm := 300 |} ].

End StoreMore.
(* ===================================================================== *)
(** * [lib/storage/document-store.ts] and the chapters *)
(* ===================================================================== *)

Module Library.

Import JsString Tokenizer Store.
Local Open Scope Z_scope.

(** ** [detectChapters], which [App] repeats as [detectChaptersFromText] *)

(** The scan of the text for headings is not embedded: its result, the
    position [match.index] of every match in the order of the scan, is an
    input.  Of a chapter the model keeps the two token indices. *)

(** [text.substring(0, match.index).split(/\s+/).length]. *)
Definition heading_token_index (text : str) (match_index : nat) : Z :=
  Z.of_nat (length (split_spaces (firstn match_index text))).

(** The loop over the headings; [headings] holds their token indices. *)
Definition heading_chapters (headings : list Z) (ntokens : Z) : list Chapter :=
  map (fun i =>
         let start := nth i headings 0 in
         let end_ := if (Z.of_nat i <? Z.of_nat (length headings) - 1)
                     then nth (i + 1) headings 0 else ntokens in
         {| startTokenIndex := start; endTokenIndex := end_ |})
      (seq 0 (length headings)).

(** The [while] loop that cuts [ntokens] tokens into chapters of 1000, from
    [chapterIndex] on; [None] when the fuel ends before the loop does. *)
Fixpoint segment_loop (fuel : nat) (chapterIndex ntokens : Z)
  : option (list Chapter) :=
  if chapterIndex * 1000 <? ntokens then
    match fuel with
    | O => None
    | S fuel' =>
        let start := chapterIndex * 1000 in
        let end_ := Z.min ((chapterIndex + 1) * 1000) ntokens in
        match segment_loop fuel' (chapterIndex + 1) ntokens with
        | Some rest =>
            Some ({| startTokenIndex := start; endTokenIndex := end_ |} :: rest)
        | None => None
        end
    end
  else Some [].

(** [detectChapters(text, tokens)] for the matches [matches] of the heading
    pattern and [ntokens = tokens.length]. *)
Definition detectChapters (text : str) (matches : list nat) (ntokens : Z)
  : option (list Chapter) :=
  let headings := map (heading_token_index text) matches in
  match
    (if (0 <? Z.of_nat (length headings))
     then Some (heading_chapters headings ntokens)
     else segment_loop (Z.to_nat ntokens) 0 ntokens)
  with
  | None => None
  | Some chapters =>
      if (0 <? Z.of_nat (length chapters)) then Some chapters
      else Some [ {| startTokenIndex := 0; endTokenIndex := ntokens |} ]
  end.

(** The chapter of 1000 tokens that holds the token [t] of [n]. *)
Definition block_of (t n : Z) : Chapter :=
  {| startTokenIndex := t / 1000 * 1000;
     endTokenIndex := Z.min ((t / 1000 + 1) * 1000) n |}.

(** ** The document table *)

Inductive SourceType := web | paste | pdf.

Record Position := mkPosition {
  tokenIndex : Z;
  position_updatedAt : Z
}.

Record DocumentRow := mkDocumentRow {
  title : str;
  sourceType : SourceType;
  sourceUrl : option str;
  canonicalText : str;
  row_totalTokens : Z;
  row_chapters : list Chapter;
  lastPosition : Position;
  createdAt : Z;
  updatedAt : Z;
  completedAt : option Z
}.

(** The documents with all their fields, and the settings. *)
Record Shelf := mkShelf {
  rows : gmap string DocumentRow;
  shelf_settings : gmap string UserSettings
}.

(** [PAUSE_PROFILES[settings?.pauseProfile || 'normal']], and [normal]
    where that is [undefined] and the default parameter of [tokenize]
    applies. *)
Definition profile_of (s : option UserSettings) : PauseProfile :=
  let name :=
    match s with
    | Some st => if String.eqb (pauseProfile st) "" then "normal"%string
                 else pauseProfile st
    | None => "normal"%string
    end in
  default normal (PAUSE_PROFILES !! name).

(** [createDocument(title, text, sourceType, sourceUrl)] with the fresh
    identifier [id]; [d1], [d2] and [d3] are the three dates it reads.
    [None] where [db.documents.add] rejects a key that is present. *)
Definition createDocument (id : string) (d1 d2 d3 : Z) (ttl text : str)
           (src : SourceType) (url : option str) (matches : list nat)
           (shelf : Shelf) : option (DocumentRow * Shelf) :=
  let settings := shelf_settings shelf !! "default"%string in
  let tokens := tokenize text (profile_of settings) in
  match detectChapters text matches (Z.of_nat (length tokens)) with
  | None => None
  | Some chapters =>
      let doc :=
        {| title := ttl; sourceType := src; sourceUrl := url;
           canonicalText := text;
           row_totalTokens := Z.of_nat (length tokens);
           row_chapters := chapters;
           lastPosition := {| tokenIndex := 0; position_updatedAt := d1 |};
           createdAt := d2; updatedAt := d3; completedAt := None |} in
      match rows shelf !! id with
      | Some _ => None
      | None =>
          Some (doc, {| rows := <[id := doc]> (rows shelf);
                        shelf_settings := shelf_settings shelf |})
      end
  end.

(** [tokenIndex / doc.totalTokens >= 0.95].  A division by 0 gives no
    number for index 0, for which the comparison is false, and an infinity
    of the sign of the index otherwise. *)
Definition reaches_threshold (index totalTokens : Z) : bool :=
  if totalTokens =? 0 then 0 <? index
  else Qle_bool (95 # 100) (inject_Z index / inject_Z totalTokens).

(** [updateDocumentPosition(id, tokenIndex)]; [d1], [d2], [d3] are the
    dates it reads.  [None] where it throws because the document is
    missing. *)
Definition updateDocumentPosition (id : string) (index : Z) (d1 d2 d3 : Z)
           (shelf : Shelf) : option Shelf :=
  match rows shelf !! id with
  | None => None
  | Some doc =>
      let isComplete := reaches_threshold index (row_totalTokens doc) in
      let updated :=
        {| title := title doc; sourceType := sourceType doc;
           sourceUrl := sourceUrl doc; canonicalText := canonicalText doc;
           row_totalTokens := row_totalTokens doc;
           row_chapters := row_chapters doc;
           lastPosition := {| tokenIndex := index; position_updatedAt := d1 |};
           createdAt := createdAt doc;
           updatedAt := d2;
           completedAt := if isComplete then Some d3 else None |} in
      Some {| rows := <[id := updated]> (rows shelf);
              shelf_settings := shelf_settings shelf |}
  end.

(** [getInProgressDocuments()] and [getCompletedDocuments()]. *)
Definition getInProgressDocuments (shelf : Shelf) : gmap string DocumentRow :=
  base.filter (fun kv : string * DocumentRow => completedAt (snd kv) = None)
              (rows shelf).

Definition getCompletedDocuments (shelf : Shelf) : gmap string DocumentRow :=
  base.filter (fun kv : string * DocumentRow => completedAt (snd kv) <> None)
              (rows shelf).

Definition empty_shelf : Shelf := {| rows := ∅; shelf_settings := ∅ |}.

End Library.
(* ===================================================================== *)
(** * [content-scripts/glide-inject.ts]: the reading engine of the overlay *)
(* ===================================================================== *)

Module GlideInject.

Import JsString Tokenizer.
Local Open Scope Z_scope.

(** One closure of [setupRSVPEngine] and the part of the page that it
    drives.
    - [tokens], [currentIndex], [isPlaying], [timer]: the variables of the
      closure.
    - [pending]: the pending [setTimeout] callbacks by handle, all of them
      [tick], each with the delay it was given; [None] is a delay that is
      not finite.  [nextHandle] is the handle the host gives out next.
    - [shown]: the indices of the tokens written into [wordDisplay], latest
      first. *)
Record Engine := mkEngine {
  tokens : list Token;
  currentIndex : Z;
  isPlaying : bool;
  timer : option nat;
  pending : gmap nat (option Q);
  nextHandle : nat;
  shown : list Z
}.

(** [tokens[i]], [None] for [undefined]. *)
Definition at_index (ts : list Token) (i : Z) : option Token :=
  if i <? 0 then None else nth_error ts (Z.to_nat i).

(** [stopReading()]. *)
Definition stopReading (e : Engine) : Engine :=
  match timer e with
  | Some id =>
      {| tokens := tokens e; currentIndex := currentIndex e;
         isPlaying := false; timer := None;
         pending := delete id (pending e); nextHandle := nextHandle e;
         shown := shown e |}
  | None =>
      {| tokens := tokens e; currentIndex := currentIndex e;
         isPlaying := false; timer := None;
         pending := pending e; nextHandle := nextHandle e;
         shown := shown e |}
  end.

(** [updateWordDisplay()]; [None] is the [TypeError] of [token.text] on an
    undefined token. *)
Definition updateWordDisplay (e : Engine) : option Engine :=
  if Z.of_nat (length (tokens e)) <=? currentIndex e then Some (stopReading e)
  else
    match at_index (tokens e) (currentIndex e) with
    | None => None
    | Some _ =>
        Some {| tokens := tokens e; currentIndex := currentIndex e;
                isPlaying := isPlaying e; timer := timer e;
                pending := pending e; nextHandle := nextHandle e;
                shown := currentIndex e :: shown e |}
    end.

(** [x || 0] for a number [x], where [None] is [NaN]. *)
Definition or_zero (x : option Q) : Q :=
  match x with
  | Some v => if Qeq_bool v 0 then 0%Q else v
  | None => 0%Q
  end.

(** [baseMs * (1 + tokens[currentIndex]?.pauseMultiplier || 0)] with
    [baseMs = 60000 / wpm], where [wpm] is the result of [parseInt], [None]
    for [NaN].  The result is [None] where it is not finite. *)
Definition delay (wpm : option Z) (next : option Token) : option Q :=
  let factor :=
    or_zero (match next with
             | Some t => Some (1 + pauseMultiplier t)%Q
             | None => None
             end) in
  match wpm with
  | None => None
  | Some w =>
      if w =? 0 then None
      else Some ((60000 / inject_Z w) * factor)%Q
  end.

(** [tick()], with the speed read from the input field. *)
Definition tick (wpm : option Z) (e : Engine) : option Engine :=
  if negb (isPlaying e) then Some e
  else
    match updateWordDisplay e with
    | None => None
    | Some e =>
        let i := currentIndex e + 1 in
        let ms := delay wpm (at_index (tokens e) i) in
        let id := nextHandle e in
        Some {| tokens := tokens e; currentIndex := i;
                isPlaying := isPlaying e; timer := Some id;
                pending := <[id := ms]> (pending e); nextHandle := S id;
                shown := shown e |}
    end.

(** [startReading()]. *)
Definition startReading (wpm : option Z) (e : Engine) : option Engine :=
  if isPlaying e then Some e
  else
    tick wpm {| tokens := tokens e; currentIndex := currentIndex e;
                isPlaying := true; timer := timer e;
                pending := pending e; nextHandle := nextHandle e;
                shown := shown e |}.

Definition setCurrentIndex (i : Z) (e : Engine) : Engine :=
  {| tokens := tokens e; currentIndex := i; isPlaying := isPlaying e;
     timer := timer e; pending := pending e; nextHandle := nextHandle e;
     shown := shown e |}.

(** What happens to an engine whose overlay is open: a click on the play
    button or the space key, the two arrow keys, and the host running the
    pending callback [id]. *)
Inductive Event :=
| Toggle (wpm : option Z)
| ArrowLeft
| ArrowRight
| Fire (id : nat) (wpm : option Z).

Definition step (e : Engine) (ev : Event) : option Engine :=
  match ev with
  | Toggle wpm => if isPlaying e then Some (stopReading e)
                  else startReading wpm e
  | ArrowLeft =>
      updateWordDisplay (setCurrentIndex (Z.max 0 (currentIndex e - 10)) e)
  | ArrowRight =>
      updateWordDisplay
        (setCurrentIndex (Z.min (Z.of_nat (length (tokens e)) - 1)
                                (currentIndex e + 10)) e)
  | Fire id wpm =>
      match pending e !! id with
      | None => Some e
      | Some _ =>
          tick wpm {| tokens := tokens e; currentIndex := currentIndex e;
                      isPlaying := isPlaying e; timer := timer e;
                      pending := delete id (pending e);
                      nextHandle := nextHandle e; shown := shown e |}
      end
  end.

Fixpoint run (e : Engine) (evs : list Event) : option Engine :=
  match evs with
  | [] => Some e
  | ev :: rest =>
      match step e ev with
      | Some e' => run e' rest
      | None => None
      end
  end.

(** [setupRSVPEngine(text, ...)]: the engine before the first event, on a
    host whose next handle is [h0]. *)
Definition engine_of (ts : list Token) (h0 : nat) : Engine :=
  {| tokens := ts; currentIndex := 0; isPlaying := false; timer := None;
     pending := ∅; nextHandle := h0; shown := [] |}.

Definition setupRSVPEngine (text : str) (h0 : nat) : Engine :=
  engine_of (tokenize text normal) h0.

(** The host runs the callback that [timer] names. *)
Definition fire_timer (wpm : option Z) (e : Engine) : option Engine :=
  match timer e with
  | Some id => step e (Fire id wpm)
  | None => Some e
  end.

(** A click on play, then [k] times the pending callback. *)
Fixpoint fires (k : nat) (wpm : option Z) (e : Engine) : option Engine :=
  match k with
  | O => Some e
  | S k =>
      match fire_timer wpm e with
      | Some e' => fires k wpm e'
      | None => None
      end
  end.

Definition play (k : nat) (wpm : option Z) (e : Engine) : option Engine :=
  match step e (Toggle wpm) with
  | Some e' => fires k wpm e'
  | None => None
  end.

(** The state in which token [k] is on display during uninterrupted
    reading. *)
Definition reading (ts : list Token) (h0 : nat) (wpm : option Z) (k : nat)
  : Engine :=
  {| tokens := ts; currentIndex := Z.of_nat (S k); isPlaying := true;
     timer := Some (h0 + k)%nat;
     pending := {[ (h0 + k)%nat := delay wpm (at_index ts (Z.of_nat (S k))) ]};
     nextHandle := S (h0 + k);
     shown := rev (map Z.of_nat (seq 0 (S k))) |}.

Definition is_arrow (ev : Event) : bool :=
  match ev with
  | ArrowLeft | ArrowRight => true
  | _ => false
  end.

End GlideInject.

(* ===================================================================== *)
(** * Double-precision arithmetic *)
(* ===================================================================== *)

Module Float64.

Import Store Measure.
Local Open Scope Q_scope.

(** A JavaScript number is an IEEE 754 binary64 value, and every
    arithmetic operation returns its exact result rounded to the nearest
    such value, a tie going to the even mantissa.  The finite doubles are
    the rationals [m * 2^e] with [|m| < 2^53] and [e >= -1074]; [fl] is the
    rounding of a rational to them.  Magnitudes at and beyond [2^1024],
    which the machine rounds to an infinity, are outside the model. *)

(** The nearest integer, a tie going to the even one. *)
Definition rne (y : Q) : Z :=
  let f := Qfloor y in
  match Qcompare (y - inject_Z f) (1 # 2) with
  | Lt => f
  | Gt => (f + 1)%Z
  | Eq => if Z.even f then f else (f + 1)%Z
  end.

(** For a positive [a], the integer [l] with [2^l <= a < 2^(l + 1)]. *)
Definition ilog2 (a : Q) : Z :=
  let l := (Z.log2 (Qnum a) - Z.log2 (Zpos (Qden a)))%Z in
  if Qle_bool (2 ^ l) a then l else (l - 1)%Z.

(** The exponent of the last mantissa bit of the double nearest to a
    positive [a]: 53 significant bits, and never below [-1074] (gradual
    underflow). *)
Definition exponent (a : Q) : Z := Z.max (ilog2 a - 52) (-1074).

Definition flpos (x : Q) : Q :=
  inject_Z (rne (x / 2 ^ exponent x)) * 2 ^ exponent x.

Definition fl (x : Q) : Q :=
  match Qcompare x 0 with
  | Eq => 0
  | Gt => flpos x
  | Lt => - flpos (- x)
  end.

(** [getTokenDuration(wpm, pauseMultiplier)] of [tokenizer.ts]: a division,
    an addition and a multiplication of doubles. *)
Definition getTokenDuration (wpm pauseMultiplier : Q) : Q :=
  let baseMsPerWord := fl (60000 / wpm) in
  fl (baseMsPerWord * fl (1 + pauseMultiplier)).

(** [measureActualWPM(tokenCount, startTime, endTime)] of [timing.ts]: a
    subtraction and two divisions of doubles; [Math.round] is exact. *)
Definition measureActualWPM (tokenCount startTime endTime : Q) : Q :=
  let durationMinutes := fl (fl (endTime - startTime) / 60000) in
  if Qle_bool durationMinutes 0 then 0
  else inject_Z (Math_round (fl (tokenCount / durationMinutes))).

(** [getWPM()] of the meter at clock reading [now]. *)
Definition getWPM (now : Q) (m : Meter) : Q :=
  measureActualWPM (inject_Z (tokenCount m)) (startTime m) now.

(** The calls that change a meter: [recordToken()], and [reset()] at clock
    reading [now]. *)
Inductive MeterCall :=
| CallRecordToken
| CallReset (now : Q).

Definition meter_call (m : Meter) (c : MeterCall) : Meter :=
  match c with
  | CallRecordToken => recordToken m
  | CallReset now => reset now m
  end.

Definition meter_calls (m : Meter) (cs : list MeterCall) : Meter :=
  fold_left meter_call cs m.

(** The powers of 2 of a goal and its hypotheses, evaluated. *)
Ltac numerals :=
  repeat match goal with
         | |- context [2 ^ ?z] =>
             let k := eval vm_compute in (2 ^ z) in change (2 ^ z) with k
         | H : context [2 ^ ?z] |- _ =>
             let k := eval vm_compute in (2 ^ z) in change (2 ^ z) with k in H
         end.

End Float64.

(* ===================================================================== *)
(** * Properties *)
(* ===================================================================== *)

Section TimingProperties.

Import Timing.
Local Open Scope Q_scope.

(** C1. One call of [calculateNextTick] with clock reading [now] computes
    [drift = now - (expectedTime + i)] and records it; when [drift >= i]
    it asks for an immediate tick (result [-1]) and resets the baseline to
    [now + i]; otherwise it returns the delay [max 0 (i - drift)] and moves
    the baseline to the old [expectedTime + i], independently of [now]. *)
Theorem calculateNextTick_spec (now : Q) (s : TimingState) (i : Q) :
  let drift := now - (expectedTime s + i) in
  let r := calculateNextTick now s i in
  totalDrift (snd r) = drift /\
  lastTickTime (snd r) = now /\
  (i <= drift ->
     fst r = -1 /\ expectedTime (snd r) = now + i) /\
  (drift < i ->
     fst r = Qmax 0 (i - drift) /\
     0 <= fst r /\
     expectedTime (snd r) = expectedTime s + i).
Proof.
  intros drift r. subst r. unfold calculateNextTick. fold drift.
  destruct (Qle_bool i drift) eqn:E; cbn [fst snd expectedTime lastTickTime totalDrift].
  - split; [reflexivity|]. split; [reflexivity|]. split.
    + intros _. split; reflexivity.
    + intros Hlt. apply Qle_bool_iff in E. exfalso. exact (Qlt_not_le _ _ Hlt E).
  - split; [reflexivity|]. split; [reflexivity|]. split.
    + intros Hle. apply Qle_bool_iff in Hle. congruence.
    + intros _. split; [reflexivity|]. split; [apply Q.le_max_l | reflexivity].
Qed.

(** The theorem at two clock readings: 250ms after a baseline of 0 with a
    100ms interval the scheduler is late by 150ms and fires at once; 130ms
    after the same baseline it is late by 30ms and waits 70ms. *)
Lemma calculateNextTick_spec_witness :
  (fst (calculateNextTick 250 (createTimingState 0 0) 100) = -1 /\
   expectedTime (snd (calculateNextTick 250 (createTimingState 0 0) 100)) = 250 + 100) /\
  (fst (calculateNextTick 130 (createTimingState 0 0) 100) = Qmax 0 (100 - (130 - (0 + 100))) /\
   0 <= fst (calculateNextTick 130 (createTimingState 0 0) 100) /\
   expectedTime (snd (calculateNextTick 130 (createTimingState 0 0) 100)) = 0 + 100).
Proof.
  split.
  - apply (calculateNextTick_spec 250 (createTimingState 0 0) 100).
    vm_compute. discriminate.
  - apply (calculateNextTick_spec 130 (createTimingState 0 0) 100).
    vm_compute. reflexivity.
Defined.

End TimingProperties.

Section DurationProperties.

Import Tokenizer.
Local Open Scope Q_scope.

Lemma base_ms_positive (w : Q) : 0 < w -> 0 < 60000 / w.
Proof.
  intros Hw. unfold Qdiv. apply Qmult_lt_0_compat; [reflexivity|].
  now apply Qinv_lt_0_compat.
Qed.

Lemma base_ms_decreasing (w w' : Q) : 0 < w -> w < w' -> 60000 / w' < 60000 / w.
Proof.
  intros Hw Hlt. unfold Qdiv.
  apply Qmult_lt_l; [reflexivity|].
  apply (proj1 (Qinv_lt_contravar w w' Hw (Qlt_trans _ _ _ Hw Hlt))). exact Hlt.
Qed.

End DurationProperties.

Section SchedulerProperties.

Import Timing DriftCompensatedScheduler.
Local Open Scope Q_scope.

Lemma stop_calls (w : World) : calls (stop w) = calls w.
Proof. unfold stop. cbn. destruct (timerId w); reflexivity. Qed.

Lemma stop_not_running (w : World) : isRunning (stop w) = false.
Proof. unfold stop. cbn. destruct (timerId w); reflexivity. Qed.

Lemma stop_timerId (w : World) : timerId (stop w) = None.
Proof. unfold stop. cbn. destruct (timerId w) eqn:E; cbn; auto. Qed.

Lemma stop_fixed (w : World) :
  isRunning w = false -> timerId w = None -> stop w = w.
Proof.
  destruct w as [st id r ts fs nt nf cs]. cbn. intros -> ->. reflexivity.
Qed.

Lemma stop_idempotent (w : World) : stop (stop w) = stop w.
Proof. apply stop_fixed; [apply stop_not_running | apply stop_timerId]. Qed.

(** While the scheduler is not running, no event other than [start] invokes
    a callback or sets it running: the closure [tick] and the frame callback
    both test [isRunning] first. *)
Lemma idle_step (w : World) (e : Event) :
  isRunning w = false -> is_start e = false ->
  isRunning (step w e) = false /\ calls (step w e) = calls w.
Proof.
  intros Hrun Hns. destruct e as [cb i t0 t1 b| |id now b|id now b]; cbn in *.
  - discriminate.
  - split; [apply stop_not_running | apply stop_calls].
  - destruct (timeouts w !! id) as [[d tk]|]; [|auto].
    unfold tick. cbn. rewrite Hrun. cbn. auto.
  - destruct (frames w !! id) as [tk|]; [|auto].
    unfold frame_callback. cbn. rewrite Hrun. cbn. auto.
Qed.

Lemma idle_run (es : list Event) : forall w : World,
  isRunning w = false -> forallb (fun e => negb (is_start e)) es = true ->
  isRunning (run w es) = false /\ calls (run w es) = calls w.
Proof.
  induction es as [|e es IH]; intros w Hrun Hes.
  - auto.
  - change (run w (e :: es)) with (run (step w e) es).
    cbn [forallb] in Hes.
    apply andb_prop in Hes as [He Hes]. apply negb_true_iff in He.
    destruct (idle_step w e Hrun He) as [Hr Hc].
    destruct (IH (step w e) Hr Hes) as [Hr' Hc'].
    split; [exact Hr' | congruence].
Qed.

Lemma tracked_idle (w : World) :
  tracked w -> isRunning w = false -> timeouts w = ∅ /\ frames w = ∅.
Proof.
  intros [Ht Hf|id e Hr Hid Ht Hf|id tk Hr Hid Ht Hf] Hn; [auto | congruence..].
Qed.

Lemma tracked_stop (w : World) :
  tracked w -> timeouts (stop w) = ∅ /\ frames (stop w) = ∅.
Proof.
  intros [Ht Hf|id e Hr Hid Ht Hf|id tk Hr Hid Ht Hf]; unfold stop; cbn.
  - destruct (timerId w); cbn; rewrite ?Ht, ?Hf, ?delete_empty; auto.
  - rewrite Hid. cbn. rewrite Ht, Hf, delete_singleton_eq, delete_empty. auto.
  - rewrite Hid. cbn. rewrite Ht, Hf, delete_singleton_eq, delete_empty. auto.
Qed.

Lemma tracked_pending (w : World) : tracked w -> (pending w <= 1)%nat.
Proof.
  unfold pending.
  intros [Ht Hf|id e _ _ Ht Hf|id tk _ _ Ht Hf]; rewrite Ht, Hf;
    rewrite ?map_size_empty, ?map_size_singleton; lia.
Qed.

(** [tick] with a plain callback, entered with nothing pending, leaves
    exactly the callback it schedules. *)
Lemma tracked_tick (tk : Tick) (now : Q) (w : World) :
  timeouts w = ∅ -> frames w = ∅ -> tracked (tick tk now false w).
Proof.
  intros Ht Hf. unfold tick. destruct (isRunning w) eqn:Hr; cbn.
  - destruct (calculateNextTick now (state w) (tick_intervalMs tk)) as [delay st].
    cbn. destruct (Qle_bool 0 delay); cbn.
    + eapply tracked_timeout; cbn; [exact Hr | reflexivity | | exact Hf].
      rewrite Ht. apply insert_empty.
    + eapply tracked_frame; cbn; [exact Hr | reflexivity | exact Ht |].
      rewrite Hf. apply insert_empty.
  - now apply tracked_none.
Qed.

Lemma tracked_step (w : World) (e : Event) :
  tracked w -> plain e = true -> tracked (step w e).
Proof.
  intros Hinv Hp.
  destruct e as [cb i t0 t1 b| |id' now b|id' now b]; cbn in *;
    try (apply negb_true_iff in Hp; subst b).
  - unfold start. destruct (isRunning w) eqn:Hr; [exact Hinv|].
    destruct (tracked_idle w Hinv Hr) as [Ht Hf]. cbn.
    eapply tracked_timeout; cbn; [reflexivity | reflexivity | | exact Hf].
    rewrite Ht. apply insert_empty.
  - destruct (tracked_stop w Hinv). now apply tracked_none.
  - destruct Hinv as [Ht Hf|id e Hr Hid Ht Hf|id tk Hr Hid Ht Hf].
    + rewrite Ht, lookup_empty. now apply tracked_none.
    + destruct (timeouts w !! id') as [[d tk']|] eqn:E.
      * rewrite Ht in E. apply lookup_singleton_Some in E as [<- _].
        apply tracked_tick; cbn; [|exact Hf].
        rewrite Ht. apply delete_singleton_eq.
      * eapply tracked_timeout; eauto.
    + rewrite Ht, lookup_empty. eapply tracked_frame; eauto.
  - destruct Hinv as [Ht Hf|id e Hr Hid Ht Hf|id tk Hr Hid Ht Hf].
    + rewrite Hf, lookup_empty. now apply tracked_none.
    + rewrite Hf, lookup_empty. eapply tracked_timeout; eauto.
    + destruct (frames w !! id') as [tk'|] eqn:E.
      * rewrite Hf in E. apply lookup_singleton_Some in E as [<- _].
        unfold frame_callback. cbn [isRunning cancelAnimationFrame].
        rewrite Hr. apply tracked_tick; cbn; [exact Ht|].
        rewrite Hf. apply delete_singleton_eq.
      * eapply tracked_frame; eauto.
Qed.

Lemma tracked_run (es : list Event) : forall w : World,
  tracked w -> forallb plain es = true -> tracked (run w es).
Proof.
  induction es as [|e es IH]; intros w Hinv Hes.
  - exact Hinv.
  - change (run w (e :: es)) with (run (step w e) es).
    cbn [forallb] in Hes.
    apply andb_prop in Hes as [He Hes]. apply IH; [|exact Hes].
    now apply tracked_step.
Qed.

(** The lifecycle of the scheduler, as far as the code keeps it.
    - [start] on a running scheduler changes nothing: no callback is
      invoked and nothing is handed to the host.
    - [stop] can be called in every state, a second [stop] changes nothing,
      and [stop] on a scheduler that was never started changes nothing.
    - After [stop], whatever the host runs and however often [stop] is
      called again, no callback is invoked until the next [start].
    - In a run whose callbacks leave the scheduler alone the host never
      holds more than one callback of the scheduler, and after [stop] it
      holds none, neither a timeout nor an animation frame. *)
Theorem scheduler_lifecycle :
  (forall w cb i t0 t1 b,
      isRunning w = true -> start cb i t0 t1 b w = w) /\
  (forall w, stop (stop w) = stop w) /\
  (forall t0 t1, stop (init t0 t1) = init t0 t1) /\
  (forall w es,
      forallb (fun e => negb (is_start e)) es = true ->
      calls (run (stop w) es) = calls w /\
      isRunning (run (stop w) es) = false) /\
  (forall t0 t1 es,
      forallb plain es = true ->
      let w := run (init t0 t1) es in
      (pending w <= 1)%nat /\
      timeouts (stop w) = ∅ /\ frames (stop w) = ∅).
Proof.
  split; [|split; [|split; [|split]]].
  - intros w cb i t0 t1 b Hr. unfold start. now rewrite Hr.
  - apply stop_idempotent.
  - reflexivity.
  - intros w es Hes.
    destruct (idle_run es (stop w) (stop_not_running w) Hes) as [Hr Hc].
    split; [rewrite Hc; apply stop_calls | exact Hr].
  - intros t0 t1 es Hes w.
    assert (Hinv : tracked w).
    { apply tracked_run; [|exact Hes]. now apply tracked_none. }
    split; [now apply tracked_pending | now apply tracked_stop].
Qed.

(** The theorem at [late_world]. *)
Lemma scheduler_lifecycle_witness :
  start 8 50 400 400 false late_world = late_world /\
  calls (run (stop late_world)
             [EFrame 1 360 false; ETimeout 1 370 false; EStop;
              ETimeout 2 380 false]) = [7; 7]%nat /\
  frames late_world <> ∅ /\
  frames (stop late_world) = ∅.
Proof.
  destruct scheduler_lifecycle as (Hstart & _ & _ & Hstop & Hclear).
  split; [|split; [|split]].
  - apply Hstart. reflexivity.
  - apply (Hstop late_world
             [EFrame 1 360 false; ETimeout 1 370 false; EStop;
              ETimeout 2 380 false]). reflexivity.
  - vm_compute. discriminate.
  - apply (Hclear 0 0 [EStart 7 100 0 0 false; ETimeout 1 350 false]).
    reflexivity.
Defined.

(** A callback that calls [stop()] itself: the closure [tick] still hands
    its next timeout to the host after the callback has returned, and when
    that timeout runs it finds the scheduler stopped and invokes nothing. *)
Example stop_inside_callback :
  let w := run (init 0 0) [EStart 7 100 0 0 false; ETimeout 1 100 true] in
  isRunning w = false /\ pending w = 1%nat /\ calls w = [7; 7]%nat /\
  calls (run w [ETimeout 2 200 false]) = [7; 7]%nat /\
  pending (run w [ETimeout 2 200 false]) = 0%nat.
Proof. vm_compute. repeat split. Qed.

(** C3. The lifecycle claim fails when a callback calls [stop()] itself.
    The closure [tick] does not look at [isRunning] again after the
    callback has returned: it hands its next timeout to the host although
    the scheduler is stopped, so a handle is pending after [stop()] has
    returned.  When [start] is called before that timeout runs, the timeout
    finds the scheduler running, invokes the callback of the stopped run
    and arms a timeout again: from then on two chains of ticks run, the one
    of callback 8 under handle 3 and the one of callback 7 under handle 4. *)
Theorem stale_tick_after_restart :
  let stopped :=
    run (init 0 0) [EStart 7 100 0 0 false; ETimeout 1 100 true] in
  let restarted := run stopped [EStart 8 100 150 150 false] in
  let w := run restarted [ETimeout 2 200 false] in
  (isRunning stopped = false /\ calls stopped = [7; 7]%nat /\
   pending stopped = 1%nat /\ is_Some (timeouts stopped !! 2%nat)) /\
  calls restarted = [8; 7; 7]%nat /\
  (calls w = [7; 8; 7; 7]%nat /\ pending w = 2%nat /\
   is_Some (timeouts w !! 3%nat) /\ is_Some (timeouts w !! 4%nat)) /\
  calls (run w [ETimeout 3 250 false; ETimeout 4 350 false])
  = [7; 8; 7; 8; 7; 7]%nat.
Proof.
  vm_compute. repeat split; eexists; reflexivity.
Qed.

End SchedulerProperties.

Section PlaybackProperties.

Import Tokenizer Playback.
Local Open Scope Z_scope.

(** C4. With a non-empty token list, [skip delta] is accepted in every
    state and moves the index to [index + delta] clamped into
    [0, tokenCount - 1]; the token list is unchanged; and from [Complete] a
    negative [delta] leaves the machine paused: not complete, not playing. *)
Theorem handleSkip_clamps (s : Player) (delta : Z) :
  tokens s <> [] ->
  let s' := handleSkip delta s in
  let target := currentIndex s + delta in
  tokens s' = tokens s /\
  0 <= currentIndex s' <= tokenCount s - 1 /\
  (target < 0 -> currentIndex s' = 0) /\
  (0 <= target <= tokenCount s - 1 -> currentIndex s' = target) /\
  (tokenCount s - 1 < target -> currentIndex s' = tokenCount s - 1) /\
  (delta < 0 -> in_Complete s -> in_Paused s').
Proof.
  intros Hne s' target.
  assert (Hn : 1 <= tokenCount s).
  { unfold tokenCount. destruct (tokens s); [congruence | cbn; lia]. }
  assert (Hidx : currentIndex s' =
                 Z.max 0 (Z.min (tokenCount s - 1) target)).
  { unfold s', handleSkip. destruct ((delta <? 0) && isComplete s); reflexivity. }
  split; [|split; [|split; [|split; [|split]]]].
  - unfold s', handleSkip. destruct ((delta <? 0) && isComplete s); reflexivity.
  - rewrite Hidx. lia.
  - rewrite Hidx. lia.
  - rewrite Hidx. lia.
  - rewrite Hidx. lia.
  - intros Hd [Hc Hp]. unfold s', handleSkip.
    apply Z.ltb_lt in Hd. rewrite Hd, Hc. cbn. split; [reflexivity | exact Hp].
Qed.

(** The theorem at [finished_three]: one step back from the end. *)
Lemma handleSkip_clamps_witness :
  currentIndex (handleSkip (-1) finished_three) = 1 /\
  in_Paused (handleSkip (-1) finished_three).
Proof.
  assert (Hne : tokens finished_three <> []) by (vm_compute; discriminate).
  destruct (handleSkip_clamps finished_three (-1) Hne)
    as (_ & _ & _ & Hin & _ & Hp).
  split.
  - apply Hin. vm_compute. split; discriminate.
  - apply Hp; [reflexivity | split; reflexivity].
Defined.

Lemma empty_preserved (s : Player) (c : Command) :
  empty_idle s -> empty_idle (exec s c).
Proof.
  unfold empty_idle. intros (Ht & Hi & Hp & Hc).
  assert (Hn : tokenCount s = 0) by (unfold tokenCount; now rewrite Ht).
  destruct c; cbn.
  - unfold handlePlayPause. rewrite Hp, Hi, Hn. cbn.
    rewrite andb_false_r. auto.
  - auto.
  - unfold handleSkip. rewrite Hn, Hc, andb_false_r. cbn.
    repeat split; trivial. lia.
  - auto.
  - auto.
  - auto.
  - unfold timer_fired, playback_effect. rewrite Hp. cbn. auto.
Qed.

Lemma empty_preserved_execs (cs : list Command) : forall s : Player,
  empty_idle s -> empty_idle (execs s cs).
Proof.
  induction cs as [|c cs IH]; intros s Hs.
  - exact Hs.
  - change (execs s (c :: cs)) with (execs (exec s c) cs).
    now apply IH, empty_preserved.
Qed.

(** C7. Loading the empty token list is accepted and leaves the machine at
    index 0, not playing, not complete.  There [play] changes nothing,
    however often it is called, and under every sequence of play, restart,
    skip, exit, scrub start, speed changes and timer events the machine
    stays at index 0, never plays and never completes. *)
Theorem empty_load_never_plays (s : Player) :
  let s0 := load [] s in
  (tokens s0 = [] /\ currentIndex s0 = 0 /\
   isPlaying s0 = false /\ isComplete s0 = false) /\
  handlePlayPause s0 = s0 /\
  (forall n : nat, Nat.iter n handlePlayPause s0 = s0) /\
  (forall cs : list Command,
      tokens (execs s0 cs) = [] /\ currentIndex (execs s0 cs) = 0 /\
      isPlaying (execs s0 cs) = false /\ isComplete (execs s0 cs) = false).
Proof.
  intros s0. split; [|split; [|split]].
  - repeat split.
  - reflexivity.
  - induction n as [|n IH]; [reflexivity|].
    change (Nat.iter (S n) handlePlayPause s0)
      with (handlePlayPause (Nat.iter n handlePlayPause s0)).
    rewrite IH. reflexivity.
  - intros cs. apply empty_preserved_execs. repeat split.
Qed.

(** C9. With an empty token list [skip delta] leaves the index at 0,
    whatever [delta] and the index before: the clamp
    [max 0 (min (tokenCount - 1) (index + delta))] is [max 0] of a number
    that is at most [-1]. *)
Theorem handleSkip_empty (s : Player) (delta : Z) :
  tokens s = [] -> currentIndex (handleSkip delta s) = 0.
Proof.
  intros Ht. unfold handleSkip.
  assert (Hn : tokenCount s = 0) by (unfold tokenCount; now rewrite Ht).
  rewrite Hn. destruct ((delta <? 0) && isComplete s); cbn; lia.
Qed.

(** An empty machine whose index was forced to 5 by a scrub. *)
Lemma handleSkip_empty_witness :
  currentIndex (handleSkip 10 (handleScrubMove 5 initial)) = 0 /\
  currentIndex (handleSkip (-10) (handleScrubMove 5 initial)) = 0.
Proof.
  split; apply handleSkip_empty; reflexivity.
Defined.

End PlaybackProperties.

Section StoreProperties.

Import Store.
Local Open Scope Q_scope.

Lemma Math_round_near (x : Q) :
  x - (1 # 2) < inject_Z (Math_round x) /\ inject_Z (Math_round x) <= x + (1 # 2).
Proof.
  unfold Math_round. split.
  - pose proof (Qlt_floor (x + (1 # 2))) as H.
    rewrite inject_Z_plus in H.
    apply Qplus_lt_l with (z := 1).
    eapply Qle_lt_trans; [|exact H].
    ring_simplify. apply Qle_refl.
  - apply Qfloor_le.
Qed.

Lemma Qgt_bool_true (x y : Q) : Qgt_bool x y = true <-> y < x.
Proof.
  unfold Qgt_bool. rewrite negb_true_iff. split.
  - intros H. apply Qnot_le_lt. intros Hle.
    apply Qle_bool_iff in Hle. congruence.
  - intros H. destruct (Qle_bool x y) eqn:E; [|reflexivity].
    apply Qle_bool_iff in E. exfalso. exact (Qlt_not_le _ _ H E).
Qed.





End StoreProperties.

Section StringProperties.

Import JsString.
Local Open Scope N_scope.

Lemma LF_is_space : is_space LF = true.
Proof. reflexivity. Qed.

Lemma CR_is_space : is_space CR = true.
Proof. reflexivity. Qed.

Lemma not_space_not_LF (c : N) : is_space c = false -> (c =? LF) = false.
Proof.
  intros H. destruct (N.eqb_spec c LF) as [->|]; [|reflexivity].
  rewrite LF_is_space in H. discriminate.
Qed.

Lemma not_space_not_CR (c : N) : is_space c = false -> (c =? CR) = false.
Proof.
  intros H. destruct (N.eqb_spec c CR) as [->|]; [|reflexivity].
  rewrite CR_is_space in H. discriminate.
Qed.

(** Induction on a list two elements at a time, for the scans that look one
    character ahead. *)
Lemma list_ind2 {A : Type} (P : list A -> Prop) :
  P [] ->
  (forall a, P [a]) ->
  (forall a b l, P l -> P (b :: l) -> P (a :: b :: l)) ->
  forall l, P l.
Proof.
  intros H0 H1 H2 l.
  assert (H : P l /\ forall a, P (a :: l)).
  { induction l as [|b l [IHl IHbl]].
    - split; [exact H0 | exact H1].
    - split; [apply IHbl | intros a; apply H2; [exact IHl | apply IHbl]]. }
  apply H.
Qed.

(** ** Fragments *)

Lemma fragments_from_space (cur s : str) (c : N) :
  is_space c = true ->
  fragments_from cur (c :: s) = flush cur ++ fragments s.
Proof. intros H. cbn. now rewrite H. Qed.

Lemma fragments_from_char (cur s : str) (c : N) :
  is_space c = false ->
  fragments_from cur (c :: s) = fragments_from (cur ++ [c]) s.
Proof. intros H. cbn. now rewrite H. Qed.

(** A white space between two strings separates their fragments. *)
Lemma fragments_from_app (a : str) : forall (cur b : str) (c : N),
  is_space c = true ->
  fragments_from cur (a ++ c :: b) = fragments_from cur a ++ fragments b.
Proof.
  induction a as [|x a IH]; intros cur b c Hc.
  - cbn [app fragments_from]. now rewrite Hc.
  - cbn [app fragments_from]. destruct (is_space x).
    + rewrite (IH [] b c Hc). now rewrite app_assoc.
    + apply IH, Hc.
Qed.

Lemma fragments_app (a b : str) (c : N) :
  is_space c = true -> fragments (a ++ c :: b) = fragments a ++ fragments b.
Proof. apply fragments_from_app. Qed.

Lemma fragments_cons_space (c : N) (s : str) :
  is_space c = true -> fragments (c :: s) = fragments s.
Proof. intros H. unfold fragments. now rewrite fragments_from_space. Qed.

Lemma fragments_all_space (s : str) : all_space s = true -> fragments s = [].
Proof.
  induction s as [|c s IH]; intros H; [reflexivity|].
  cbn in H. apply andb_prop in H as [Hc Hs].
  rewrite fragments_cons_space by exact Hc. now apply IH.
Qed.

Lemma fragments_space_prefix (sp s : str) :
  all_space sp = true -> fragments (sp ++ s) = fragments s.
Proof.
  induction sp as [|c sp IH]; intros H; [reflexivity|].
  cbn in H. apply andb_prop in H as [Hc Hs].
  cbn [app]. rewrite fragments_cons_space by exact Hc. now apply IH.
Qed.

Lemma fragments_space_suffix (s sp : str) :
  all_space sp = true -> fragments (s ++ sp) = fragments s.
Proof.
  destruct sp as [|c sp]; intros H; [now rewrite app_nil_r|].
  cbn in H. apply andb_prop in H as [Hc Hs].
  rewrite fragments_app by exact Hc.
  rewrite (fragments_all_space sp Hs). apply app_nil_r.
Qed.

(** ** Lines *)

(** How [split_lines_from] reads the head of its input. *)
Lemma split_lines_head (c : N) (s : str) :
  c = LF \/
  (c = CR /\ exists s', s = LF :: s') \/
  ((c =? LF) = false /\
   forall cur, split_lines_from cur (c :: s) = split_lines_from (cur ++ [c]) s).
Proof.
  destruct (N.eqb_spec c LF) as [->|Hlf]; [now left|].
  right. destruct (N.eqb_spec c CR) as [->|Hcr].
  - destruct s as [|c' s'].
    + right. split; [reflexivity|]. intros cur. reflexivity.
    + destruct (N.eqb_spec c' LF) as [->|Hc'].
      * left. split; [reflexivity|]. now exists s'.
      * right. split; [reflexivity|]. intros cur. cbn.
        apply N.eqb_neq in Hc'. now rewrite Hc'.
  - right. split; [reflexivity|]. intros cur. cbn.
    apply N.eqb_neq in Hlf, Hcr. now rewrite Hlf, Hcr.
Qed.

Lemma split_lines_from_nonempty (s : str) : forall cur,
  split_lines_from cur s <> [].
Proof.
  induction s as [|a | a b l IHl IHbl] using list_ind2; intros cur.
  - discriminate.
  - destruct (split_lines_head a []) as [->|[[-> [s' Hs']]|[_ Heq]]];
      [discriminate | discriminate | rewrite Heq; discriminate].
  - destruct (split_lines_head a (b :: l)) as [->|[[-> [s' Hs']]|[_ Heq]]].
    + discriminate.
    + injection Hs' as -> ->. discriminate.
    + rewrite Heq. apply IHbl.
Qed.

(** The fragments of the lines are the fragments of the text: every line
    separator is white space. *)
Lemma split_lines_fragments (s : str) : forall cur,
  flat_map fragments (split_lines_from cur s) = fragments (cur ++ s).
Proof.
  induction s as [|a | a b l IHl IHbl] using list_ind2; intros cur.
  - cbn. now rewrite !app_nil_r.
  - destruct (split_lines_head a []) as [->|[[-> [s' Hs']]|[_ Heq]]].
    + cbn. rewrite app_nil_r.
      now rewrite (fragments_space_suffix cur [LF]).
    + discriminate.
    + rewrite Heq. cbn. now rewrite !app_nil_r.
  - destruct (split_lines_head a (b :: l)) as [->|[[-> [s' Hs']]|[_ Heq]]].
    + change (split_lines_from cur (LF :: b :: l))
        with (cur :: split_lines_from [] (b :: l)).
      cbn [flat_map]. rewrite IHbl. cbn [app].
      now rewrite fragments_app.
    + injection Hs' as -> ->.
      change (split_lines_from cur (CR :: LF :: s'))
        with (cur :: split_lines_from [] s').
      cbn [flat_map]. rewrite IHl. cbn [app].
      rewrite fragments_app by reflexivity.
      now rewrite fragments_cons_space.
    + rewrite Heq, IHbl. now rewrite <- app_assoc.
Qed.

Lemma newline_lines_fragments (s : str) : forall cur,
  flat_map fragments (newline_lines_from cur s) = fragments (cur ++ s).
Proof.
  induction s as [|c s IH]; intros cur.
  - cbn. now rewrite !app_nil_r.
  - cbn [newline_lines_from]. destruct (N.eqb_spec c LF) as [->|Hc].
    + cbn [flat_map]. rewrite IH. cbn [app]. now rewrite fragments_app.
    + rewrite IH. now rewrite <- app_assoc.
Qed.

(** ** Splitting at white space *)

Lemma filter_nonempty_flush (cur : str) : List.filter nonempty [cur] = flush cur.
Proof. destruct cur; reflexivity. Qed.

(** The non-empty pieces of [split(/\s+/)] are the fragments. *)
Lemma split_spaces_from_fragments (s : str) : forall insep cur,
  (insep = true -> cur = []) ->
  List.filter nonempty (split_spaces_from insep cur s) = fragments_from cur s.
Proof.
  induction s as [|c s IH]; intros insep cur Hin.
  - apply filter_nonempty_flush.
  - cbn [split_spaces_from fragments_from]. destruct (is_space c).
    + destruct insep.
      * rewrite (Hin eq_refl). now apply IH.
      * rewrite <- (IH true []) by reflexivity. now destruct cur.
    + apply IH. discriminate.
Qed.

Lemma split_spaces_fragments (s : str) :
  List.filter nonempty (split_spaces s) = fragments s.
Proof. apply split_spaces_from_fragments. discriminate. Qed.

(** ** Trimming *)

Lemma trimStart_split (s : str) :
  exists sp, s = sp ++ trimStart s /\ all_space sp = true.
Proof.
  induction s as [|c s (sp & Hs & Hsp)].
  - now exists [].
  - cbn [trimStart]. destruct (is_space c) eqn:Hc.
    + exists (c :: sp). split; [cbn; now f_equal|]. cbn. now rewrite Hc.
    + now exists [].
Qed.

Lemma trimEnd_split (s : str) :
  exists sp, s = trimEnd s ++ sp /\ all_space sp = true.
Proof.
  induction s as [|c s (sp & Hs & Hsp)].
  - now exists [].
  - cbn [trimEnd]. destruct (trimEnd s) as [|d t] eqn:Ht.
    + cbn [app] in Hs. subst s. destruct (is_space c) eqn:Hc.
      * exists (c :: sp). split; [reflexivity|]. cbn. now rewrite Hc.
      * exists sp. now split.
    + exists sp. split; [cbn; now f_equal|exact Hsp].
Qed.

Lemma fragments_trim (s : str) : fragments (trim s) = fragments s.
Proof.
  unfold trim.
  destruct (trimStart_split s) as (sp & Hs & Hsp).
  destruct (trimEnd_split (trimStart s)) as (sp' & Hs' & Hsp').
  rewrite Hs at 2. rewrite fragments_space_prefix by exact Hsp.
  rewrite Hs' at 2. now rewrite fragments_space_suffix.
Qed.

Lemma trimEnd_all_space (s : str) : all_space s = true -> trimEnd s = [].
Proof.
  induction s as [|c s IH]; intros H; [reflexivity|].
  cbn in H. apply andb_prop in H as [Hc Hs].
  cbn [trimEnd]. rewrite (IH Hs). now rewrite Hc.
Qed.

Lemma trimStart_all_space (s : str) : all_space s = true -> trimStart s = [].
Proof.
  induction s as [|c s IH]; intros H; [reflexivity|].
  cbn in H. apply andb_prop in H as [Hc Hs].
  cbn [trimStart]. rewrite Hc. now apply IH.
Qed.

Lemma trim_all_space (s : str) : all_space s = true -> trim s = [].
Proof. intros H. unfold trim. now rewrite trimStart_all_space. Qed.

Lemma trimStart_app (x z : str) (c : N) :
  is_space c = false -> trimStart (x ++ c :: z) = trimStart x ++ c :: z.
Proof.
  intros Hc. induction x as [|d x IH]; cbn [app trimStart].
  - now rewrite Hc.
  - destruct (is_space d); [exact IH | reflexivity].
Qed.

Lemma trimEnd_app (a b : str) :
  trimEnd b <> [] -> trimEnd (a ++ b) = a ++ trimEnd b.
Proof.
  intros Hb. induction a as [|c a IH]; [reflexivity|].
  cbn [app trimEnd]. rewrite IH.
  destruct (a ++ trimEnd b) eqn:E; [|reflexivity].
  apply app_eq_nil in E as [_ E]. contradiction.
Qed.

(** ** Words *)

Lemma is_word_inv (w : str) :
  is_word w = true ->
  exists c w', w = c :: w' /\ is_space c = false /\
               forallb (fun c => negb (is_space c)) w' = true.
Proof.
  unfold is_word. destruct w as [|c w']; [discriminate|].
  cbn. intros H. apply andb_prop in H as [Hc Hw].
  apply negb_true_iff in Hc. now exists c, w'.
Qed.

Lemma trimEnd_chars_spaces (w r : str) (c : N) :
  is_space c = false ->
  forallb (fun c => negb (is_space c)) w = true -> all_space r = true ->
  trimEnd (c :: w ++ r) = c :: w.
Proof.
  revert c. induction w as [|d w IH]; intros c Hc Hw Hr.
  - cbn [app trimEnd]. rewrite (trimEnd_all_space r Hr). now rewrite Hc.
  - cbn [forallb] in Hw. apply andb_prop in Hw as [Hd Hw].
    apply negb_true_iff in Hd.
    change (trimEnd (c :: (d :: w) ++ r))
      with (match trimEnd (d :: w ++ r) with
            | [] => if is_space c then [] else [c]
            | t => c :: t
            end).
    now rewrite (IH d Hd Hw Hr).
Qed.

Lemma trim_word_line (x w r : str) :
  is_word w = true -> all_space r = true ->
  trim ((x ++ w) ++ r) = trimStart x ++ w.
Proof.
  intros Hw Hr. destruct (is_word_inv w Hw) as (c & w' & -> & Hc & Hw').
  unfold trim. rewrite <- app_assoc. cbn [app].
  rewrite trimStart_app by exact Hc.
  change (c :: w' ++ r) with ((c :: w') ++ r).
  rewrite trimEnd_app; cbn [app]; rewrite trimEnd_chars_spaces; trivial.
  discriminate.
Qed.

(** ** Boundaries *)

Lemma last_app_cons {A : Type} (a b : list A) (c d : A) :
  List.last (a ++ c :: b) d = List.last (c :: b) d.
Proof.
  induction a as [|e a IH]; [reflexivity|].
  rewrite <- IH. cbn [app].
  destruct (a ++ c :: b) eqn:E; [|reflexivity].
  symmetry in E. now apply app_cons_not_nil in E.
Qed.

Lemma at_last_app_cons (a b : str) (c : N) :
  at_last (a ++ c :: b) = at_last (c :: b).
Proof.
  unfold at_last. rewrite map_app. cbn [map]. apply last_app_cons.
Qed.

Lemma at_boundary_suffix (a b : str) :
  at_boundary (a ++ b) = true -> at_boundary b = true.
Proof.
  destruct b as [|c b]; [reflexivity|].
  unfold at_boundary. now rewrite at_last_app_cons.
Qed.

Lemma at_boundary_inv (y : str) :
  at_boundary y = true ->
  y = [] \/ exists y' c, y = y' ++ [c] /\ is_space c = true.
Proof.
  destruct y as [|d y] using rev_ind; [now left|].
  intros H. right. exists y, d. split; [reflexivity|].
  unfold at_boundary in H. now rewrite at_last_app_cons in H.
Qed.

Lemma at_boundary_trimStart (x : str) :
  at_boundary x = true -> at_boundary (trimStart x) = true.
Proof.
  destruct (trimStart_split x) as (sp & Hx & _).
  intros H. rewrite Hx in H. now apply at_boundary_suffix in H.
Qed.

(** ** The last piece of a split at white space *)

Lemma split_spaces_from_chars (w : str) : forall insep cur,
  forallb (fun c => negb (is_space c)) w = true ->
  split_spaces_from insep cur w = [cur ++ w].
Proof.
  induction w as [|c w IH]; intros insep cur Hw.
  - cbn. now rewrite app_nil_r.
  - cbn [forallb] in Hw. apply andb_prop in Hw as [Hc Hw].
    apply negb_true_iff in Hc. cbn [split_spaces_from]. rewrite Hc.
    rewrite IH by exact Hw. now rewrite <- app_assoc.
Qed.

Lemma split_spaces_from_last (y : str) : forall insep cur (c : N) (w : str),
  (insep = true -> cur = []) -> is_space c = true ->
  forallb (fun c => negb (is_space c)) w = true ->
  exists ws, split_spaces_from insep cur (y ++ c :: w) = ws ++ [w].
Proof.
  induction y as [|d y IH]; intros insep cur c w Hin Hc Hw.
  - cbn [app split_spaces_from]. rewrite Hc. destruct insep.
    + rewrite (Hin eq_refl), split_spaces_from_chars by exact Hw. now exists [].
    + rewrite split_spaces_from_chars by exact Hw. now exists [cur].
  - cbn [app split_spaces_from]. destruct (is_space d).
    + destruct insep.
      * apply IH; trivial.
      * destruct (IH true [] c w) as [ws Hws]; trivial.
        exists (cur :: ws). now rewrite Hws.
    + apply IH; trivial. discriminate.
Qed.

(** After a boundary, a word is the last piece. *)
Lemma split_spaces_last (y w : str) :
  at_boundary y = true -> is_word w = true ->
  exists ws, split_spaces (y ++ w) = ws ++ [w].
Proof.
  intros Hy Hw. destruct (is_word_inv w Hw) as (c & w' & -> & Hc & Hw').
  assert (Hcw : forallb (fun c => negb (is_space c)) (c :: w') = true).
  { cbn. now rewrite Hc. }
  destruct (at_boundary_inv y Hy) as [->|(y' & d & -> & Hd)].
  - exists []. unfold split_spaces. cbn [app].
    now rewrite split_spaces_from_chars.
  - rewrite <- app_assoc. cbn [app]. unfold split_spaces.
    apply split_spaces_from_last; trivial; discriminate.
Qed.

(** ** The line of a word *)

(** A word is read into the current line. *)
Lemma split_lines_from_chars (w : str) : forall cur z,
  forallb (fun c => negb (is_space c)) w = true ->
  split_lines_from cur (w ++ z) = split_lines_from (cur ++ w) z.
Proof.
  induction w as [|c w IH]; intros cur z Hw.
  - now rewrite app_nil_r.
  - cbn [forallb] in Hw. apply andb_prop in Hw as [Hc Hw].
    apply negb_true_iff in Hc.
    cbn [app split_lines_from].
    rewrite (not_space_not_LF c Hc), (not_space_not_CR c Hc).
    rewrite IH by exact Hw. now rewrite <- app_assoc.
Qed.

(** White space with a line feed in it ends the current line, and at least
    one more line follows. *)
Lemma split_lines_from_break (tail : str) : forall cur rest,
  all_space tail = true -> has_LF tail = true ->
  exists r tail',
    split_lines_from cur (tail ++ rest)
      = (cur ++ r) :: split_lines_from [] (tail' ++ rest) /\
    all_space r = true /\ all_space tail' = true.
Proof.
  induction tail as [|c tail IH]; intros cur rest Hsp Hlf; [discriminate|].
  cbn [all_space forallb] in Hsp. apply andb_prop in Hsp as [Hc Hsp].
  cbn [has_LF existsb] in Hlf.
  assert (Hgo : (c =? LF) = false ->
                split_lines_from cur ((c :: tail) ++ rest)
                  = split_lines_from (cur ++ [c]) (tail ++ rest) ->
                exists r tail',
                  split_lines_from cur ((c :: tail) ++ rest)
                    = (cur ++ r) :: split_lines_from [] (tail' ++ rest) /\
                  all_space r = true /\ all_space tail' = true).
  { intros Hne Heq. rewrite Hne in Hlf. cbn [orb] in Hlf.
    destruct (IH (cur ++ [c]) rest Hsp Hlf) as (r & tail' & Hs & Hr & Ht).
    exists (c :: r), tail'. split; [|split; [|exact Ht]].
    - rewrite Heq, Hs. now rewrite <- app_assoc.
    - cbn. now rewrite Hc. }
  destruct (split_lines_head c (tail ++ rest)) as [->|[[-> [s' Hs']]|[Hne Heq]]].
  - exists [], tail. rewrite app_nil_r. now split.
  - destruct tail as [|d tail]; [discriminate|].
    cbn [app] in Hs'. injection Hs' as -> <-.
    exists [], tail. rewrite app_nil_r. split; [reflexivity|].
    split; [reflexivity|]. cbn in Hsp. exact Hsp.
  - apply Hgo; [exact Hne | apply Heq].
Qed.

(** Before a text that does not begin with a line feed, a prefix gives its
    complete lines and the beginning of the line that the text continues. *)
Lemma split_lines_from_prefix (z : str) :
  match z with c :: _ => (c =? LF) = false | [] => True end ->
  forall pre cur,
  exists L x,
    split_lines_from cur (pre ++ z) = L ++ split_lines_from x z /\
    (at_boundary (cur ++ pre) = true -> at_boundary x = true).
Proof.
  intros Hz pre.
  induction pre as [|a | a b l IHl IHbl] using list_ind2; intros cur.
  - exists [], cur. now rewrite app_nil_r.
  - destruct (split_lines_head a z) as [->|[[-> [s' Hs']]|[Hne Heq]]].
    + now exists [cur], [].
    + subst z. discriminate.
    + exists [], (cur ++ [a]). split; [apply Heq | auto].
  - destruct (split_lines_head a ((b :: l) ++ z)) as [->|[[-> [s' Hs']]|[Hne Heq]]].
    + destruct (IHbl []) as (L & x & Hs & Hb).
      exists (cur :: L), x. split.
      * change (split_lines_from cur ((LF :: b :: l) ++ z))
          with (cur :: split_lines_from [] ((b :: l) ++ z)).
        now rewrite Hs.
      * intros H. apply Hb. now apply at_boundary_suffix in H.
    + cbn [app] in Hs'. injection Hs' as -> <-.
      destruct (IHl []) as (L & x & Hs & Hb).
      exists (cur :: L), x. split.
      * change (split_lines_from cur ((CR :: LF :: l) ++ z))
          with (cur :: split_lines_from [] (l ++ z)).
        now rewrite Hs.
      * intros H. apply Hb.
        change (cur ++ CR :: LF :: l) with (cur ++ [CR; LF] ++ l) in H.
        rewrite app_assoc in H. now apply at_boundary_suffix in H.
    + destruct (IHbl (cur ++ [a])) as (L & x & Hs & Hb).
      exists L, x. split.
      * change ((a :: b :: l) ++ z) with (a :: (b :: l) ++ z).
        now rewrite Heq, Hs.
      * intros H. apply Hb. now rewrite <- app_assoc.
Qed.

(** The lines of a text with a word before a line break: the word ends a
    line, which further lines follow. *)
Lemma split_lines_word_break (pre w tail rest : str) :
  at_boundary pre = true -> is_word w = true ->
  all_space tail = true -> has_LF tail = true ->
  exists L x r tail',
    split_lines (pre ++ w ++ tail ++ rest)
      = L ++ ((x ++ w) ++ r) :: split_lines_from [] (tail' ++ rest) /\
    at_boundary x = true /\ all_space r = true /\ all_space tail' = true.
Proof.
  intros Hpre Hw Hsp Hlf.
  destruct (is_word_inv w Hw) as (c & w' & Ew & Hc & Hw').
  assert (Hcw : forallb (fun c => negb (is_space c)) w = true).
  { subst w. cbn. now rewrite Hc. }
  destruct (split_lines_from_prefix (w ++ tail ++ rest)) with (pre := pre) (cur := @nil N)
    as (L & x & Hs & Hb).
  { subst w. cbn [app]. now apply not_space_not_LF. }
  destruct (split_lines_from_break tail (x ++ w) rest Hsp Hlf)
    as (r & tail' & Ht & Hr & Ht').
  exists L, x, r, tail'. split; [|split; [now apply Hb|now split]].
  unfold split_lines. rewrite Hs.
  now rewrite split_lines_from_chars, Ht.
Qed.

End StringProperties.

Section TokenizerProperties.

Import JsString Tokenizer.
Local Open Scope Z_scope.

Lemma words_loop_texts (p : PauseProfile) (nlines i nwords : Z) (ws : list str) :
  forall j, map text (words_loop p nlines i nwords j ws) = List.filter nonempty ws.
Proof.
  induction ws as [|w ws IH]; intros j; [reflexivity|].
  cbn [words_loop List.filter]. unfold nonempty at 1.
  destruct (is_empty w); cbn [negb map]; [apply IH|].
  now rewrite IH.
Qed.

Lemma lines_loop_texts (p : PauseProfile) (nlines : Z) (ls : list str) :
  forall i, map text (lines_loop p nlines i ls) = flat_map fragments ls.
Proof.
  induction ls as [|l ls IH]; intros i; [reflexivity|].
  cbn [lines_loop flat_map].
  destruct (is_empty (trim l)) eqn:He.
  - rewrite IH. rewrite <- (fragments_trim l).
    destruct (trim l); [reflexivity | discriminate].
  - rewrite map_app, IH, words_loop_texts, split_spaces_fragments.
    now rewrite fragments_trim.
Qed.

(** The texts of the tokens are the fragments of the input, in order. *)
Lemma tokenize_texts (t : str) (p : PauseProfile) :
  map text (tokenize t p) = fragments t.
Proof.
  unfold tokenize, split_lines.
  now rewrite lines_loop_texts, split_lines_fragments.
Qed.

Lemma fragments_from_nonempty (s : str) : forall cur,
  Forall (fun w => w <> []) (fragments_from cur s).
Proof.
  assert (Hflush : forall cur, Forall (fun w : str => w <> []) (flush cur)).
  { intros [|c cur]; repeat constructor. discriminate. }
  induction s as [|c s IH]; intros cur; cbn [fragments_from].
  - apply Hflush.
  - destruct (is_space c); [|apply IH].
    apply Forall_app. split; [apply Hflush | apply IH].
Qed.

Lemma words_loop_app (p : PauseProfile) (nlines i nwords : Z) (a b : list str) :
  forall j,
    words_loop p nlines i nwords j (a ++ b)
    = words_loop p nlines i nwords j a
        ++ words_loop p nlines i nwords (j + Z.of_nat (length a)) b.
Proof.
  induction a as [|w a IH]; intros j.
  - cbn. now rewrite Z.add_0_r.
  - cbn [app words_loop length]. rewrite IH.
    replace (j + 1 + Z.of_nat (length a)) with (j + Z.of_nat (S (length a)))
      by lia.
    now destruct (is_empty w).
Qed.

Lemma lines_loop_cons (p : PauseProfile) (nlines i : Z) (l : str) (ls : list str) :
  lines_loop p nlines i (l :: ls)
  = line_tokens p nlines i l ++ lines_loop p nlines (i + 1) ls.
Proof.
  unfold line_tokens. cbn [lines_loop].
  destruct (is_empty (trim l)); [reflexivity|]. now rewrite app_nil_r.
Qed.

Lemma lines_loop_app (p : PauseProfile) (nlines : Z) (a b : list str) :
  forall i,
    lines_loop p nlines i (a ++ b)
    = lines_loop p nlines i a
        ++ lines_loop p nlines (i + Z.of_nat (length a)) b.
Proof.
  induction a as [|l a IH]; intros i.
  - cbn. now rewrite Z.add_0_r.
  - cbn [app length]. rewrite !lines_loop_cons, IH, <- app_assoc.
    replace (i + 1 + Z.of_nat (length a)) with (i + Z.of_nat (S (length a)))
      by lia.
    reflexivity.
Qed.

(** A word has no line feed, so that its pause is the one of its
    punctuation. *)
Lemma word_paragraph_break (w : str) : forall armed,
  forallb (fun c => negb (is_space c)) w = true ->
  paragraph_break_from armed w = false.
Proof.
  induction w as [|c w IH]; intros armed Hw; [reflexivity|].
  cbn [forallb] in Hw. apply andb_prop in Hw as [Hc Hw].
  apply negb_true_iff in Hc. cbn [paragraph_break_from].
  rewrite (not_space_not_LF c Hc), Hc. now apply IH.
Qed.

Lemma word_pause (w : str) (p : PauseProfile) :
  is_word w = true -> calculatePauseMultiplier w p = punctuationPause w p.
Proof.
  intros Hw. unfold calculatePauseMultiplier, has_paragraph_break.
  rewrite word_paragraph_break; [reflexivity|].
  unfold is_word in Hw. now apply andb_prop in Hw as [_ Hw].
Qed.

Lemma make_token_line_end (p : PauseProfile) (nlines i nwords j : Z) (w : str) :
  is_word w = true -> j = nwords - 1 -> i < nlines - 1 ->
  make_token p nlines i nwords j w = line_end_token p w.
Proof.
  intros Hw -> Hi. unfold make_token, line_end_token.
  rewrite Z.eqb_refl. apply Z.ltb_lt in Hi. rewrite Hi. cbn [andb].
  now rewrite word_pause.
Qed.

(** The line of a word before a line break ends with the token of the
    word, which has the paragraph floor. *)
Lemma line_tokens_word_break (p : PauseProfile) (nlines i : Z) (x w r : str) :
  at_boundary x = true -> is_word w = true -> all_space r = true ->
  i < nlines - 1 ->
  exists init,
    line_tokens p nlines i ((x ++ w) ++ r) = init ++ [line_end_token p w].
Proof.
  intros Hx Hw Hr Hi. unfold line_tokens. cbn [lines_loop].
  rewrite trim_word_line by trivial.
  destruct (split_spaces_last (trimStart x) w) as [ws Hws];
    [now apply at_boundary_trimStart | exact Hw |].
  rewrite Hws.
  destruct (is_empty (trimStart x ++ w)) eqn:He.
  { destruct (is_word_inv w Hw) as (c & w' & -> & _).
    destruct (trimStart x); discriminate. }
  rewrite app_nil_r, words_loop_app.
  exists (words_loop p nlines i (Z.of_nat (length (ws ++ [w]))) 0 ws).
  f_equal. cbn [words_loop].
  destruct (is_word_inv w Hw) as (c & w' & Ew & _).
  replace (is_empty w) with false by (subst w; reflexivity).
  f_equal. apply make_token_line_end; trivial.
  rewrite length_app. cbn [length]. lia.
Qed.

(** The tokenizer on a text with a word before a line break. *)
Lemma tokenize_word_break (pre w tail rest : str) (p : PauseProfile) :
  at_boundary pre = true -> is_word w = true ->
  all_space tail = true -> has_LF tail = true ->
  exists init more,
    tokenize (pre ++ w ++ tail ++ rest) p = init ++ line_end_token p w :: more /\
    map text more = fragments rest.
Proof.
  intros Hpre Hw Hsp Hlf.
  destruct (split_lines_word_break pre w tail rest Hpre Hw Hsp Hlf)
    as (L & x & r & tail' & Hs & Hx & Hr & Ht).
  unfold tokenize. rewrite Hs.
  set (after := split_lines_from [] (tail' ++ rest)).
  set (n := Z.of_nat (length (L ++ ((x ++ w) ++ r) :: after))).
  assert (Hafter : (1 <= length after)%nat).
  { pose proof (split_lines_from_nonempty (tail' ++ rest) []) as Hne.
    fold after in Hne. destruct after; [congruence | cbn; lia]. }
  assert (Hn : 0 + Z.of_nat (length L) < n - 1).
  { unfold n. rewrite length_app. cbn [length]. lia. }
  rewrite lines_loop_app, lines_loop_cons.
  destruct (line_tokens_word_break p n (0 + Z.of_nat (length L)) x w r
              Hx Hw Hr Hn) as [init Hinit].
  rewrite Hinit.
  exists (lines_loop p n 0 L ++ init),
         (lines_loop p n (0 + Z.of_nat (length L) + 1) after).
  split.
  - rewrite <- !app_assoc. reflexivity.
  - rewrite lines_loop_texts. unfold after.
    rewrite split_lines_fragments. cbn [app].
    now apply fragments_space_prefix.
Qed.

(** C5. The tokenizer makes one token of every white-space separated
    non-empty fragment, in the order of the text: the texts of the tokens are
    the fragments of the newline-separated lines, line after line, which are
    the fragments of the whole text; so there are as many tokens as
    fragments, no token is empty, and the empty text has no token. *)
Theorem tokenize_fragments (t : str) (p : PauseProfile) :
  map text (tokenize t p) = line_fragments t /\
  length (tokenize t p) = length (line_fragments t) /\
  line_fragments t = fragments t /\
  Forall (fun tok => text tok <> []) (tokenize t p) /\
  tokenize [] p = [].
Proof.
  assert (Hlf : line_fragments t = fragments t).
  { unfold line_fragments, newline_lines. apply newline_lines_fragments. }
  assert (Htx : map text (tokenize t p) = line_fragments t).
  { rewrite Hlf. apply tokenize_texts. }
  split; [exact Htx|]. split; [|split; [exact Hlf|split; [|reflexivity]]].
  - rewrite <- Htx. now rewrite length_map.
  - apply Forall_map with (f := text) (P := fun w : str => w <> []).
    rewrite tokenize_texts. apply fragments_from_nonempty.
Qed.

Lemma punctuationPause_dominated (t : str) (p : PauseProfile) :
  paragraph_dominates p -> (punctuationPause t p <= paragraph p)%Q.
Proof.
  intros (H0 & Hcomma & Hcolon & Hperiod & Hexcl & Hquest).
  unfold punctuationPause.
  destruct (_ || _ || _); [|destruct (_ || _); [|destruct (is_char _ _)]];
    trivial.
  apply Q.max_lub; [apply Q.max_lub|]; trivial.
Qed.

Lemma profiles_dominated :
  paragraph_dominates fast /\ paragraph_dominates normal /\
  paragraph_dominates slow.
Proof. repeat split; vm_compute; discriminate. Qed.

(** With the profile [inverted], whose sentence pause 3 exceeds its
    paragraph pause 1, the segment ["end.\n\n"] has a paragraph break and
    gets the multiplier 1, not the maximum 3 of the punctuation value and
    the paragraph value; and the token of ["end."] before a blank line gets
    3, not the paragraph value. *)
Lemma paragraph_value_is_not_maximum :
  has_paragraph_break end_break = true /\
  calculatePauseMultiplier end_break inverted = 1%Q /\
  ~ (calculatePauseMultiplier end_break inverted
     == Qmax (punctuationPause end_break inverted) (paragraph inverted))%Q /\
  (exists tok rest,
      tokenize (end_break ++ lit "Next") inverted = tok :: rest /\
      text tok = lit "end." /\
      ~ (pauseMultiplier tok == paragraph inverted)%Q).
Proof.
  split; [reflexivity|]. split; [reflexivity|]. split.
  - vm_compute. discriminate.
  - eexists. eexists. split; [vm_compute; reflexivity|].
    split; [reflexivity|]. vm_compute. discriminate.
Qed.

(** C6, amended.  When a segment contains a line feed followed, after white
    space only, by another line feed, [calculatePauseMultiplier] returns the
    paragraph value of the profile, whatever the punctuation; this is the
    maximum of the punctuation value and the paragraph value for the
    profiles whose paragraph value bounds the punctuation values, which
    [fast], [normal] and [slow] are.  In [tokenize], the token of a word
    that a line break follows has the maximum of its punctuation value and
    the paragraph value, which is the paragraph value for those profiles. *)
Theorem paragraph_break_pause :
  (forall (t : str) (p : PauseProfile),
      has_paragraph_break t = true ->
      calculatePauseMultiplier t p = paragraph p /\
      ((punctuationPause t p <= paragraph p)%Q ->
       (calculatePauseMultiplier t p
        == Qmax (punctuationPause t p) (paragraph p))%Q)) /\
  (forall (t : str) (p : PauseProfile),
      paragraph_dominates p -> (punctuationPause t p <= paragraph p)%Q) /\
  (paragraph_dominates fast /\ paragraph_dominates normal /\
   paragraph_dominates slow) /\
  (forall (pre w tail rest : str) (p : PauseProfile),
      at_boundary pre = true -> is_word w = true ->
      all_space tail = true -> has_LF tail = true ->
      exists init tok more,
        tokenize (pre ++ w ++ tail ++ rest) p = init ++ tok :: more /\
        text tok = w /\
        pauseMultiplier tok = Qmax (punctuationPause w p) (paragraph p) /\
        (paragraph_dominates p -> (pauseMultiplier tok == paragraph p)%Q)).
Proof.
  split; [|split; [|split]].
  - intros t p Hb. unfold calculatePauseMultiplier. rewrite Hb.
    split; [reflexivity|]. intros Hle. symmetry. now apply Q.max_r.
  - apply punctuationPause_dominated.
  - apply profiles_dominated.
  - intros pre w tail rest p Hpre Hw Hsp Hlf.
    destruct (tokenize_word_break pre w tail rest p Hpre Hw Hsp Hlf)
      as (init & more & Ht & _).
    exists init, (line_end_token p w), more.
    split; [exact Ht|]. split; [reflexivity|]. split; [reflexivity|].
    intros Hdom. cbn [line_end_token pauseMultiplier].
    apply Q.max_r. now apply punctuationPause_dominated.
Qed.

(** The theorem on ["end.\n\n"] and on ["The end.\n\nNext"] with the
    profile [normal]: the multiplier is the paragraph value 2. *)
Lemma paragraph_break_pause_witness :
  calculatePauseMultiplier end_break normal = 2%Q /\
  (exists init tok more,
      tokenize (lit "The " ++ lit "end." ++ [LF; LF] ++ lit "Next") normal
        = init ++ tok :: more /\
      text tok = lit "end." /\
      (pauseMultiplier tok == 2)%Q).
Proof.
  destruct paragraph_break_pause as (Hcalc & _ & (_ & Hnormal & _) & Htok).
  split.
  - apply (Hcalc end_break normal). reflexivity.
  - destruct (Htok (lit "The ") (lit "end.") [LF; LF] (lit "Next") normal)
      as (init & tok & more & Ht & Hw & _ & Hp); try reflexivity.
    exists init, tok, more. split; [exact Ht|]. split; [exact Hw|].
    now apply Hp.
Defined.

(** C10. When white space with at least one line feed in it follows the
    last word of a text, the last token is the one of that word and its
    pause multiplier is the maximum of the punctuation value of the word
    and the paragraph value of the profile, hence at least the paragraph
    value: the line of the word is not the last line that [split] returns. *)
Theorem trailing_break_paragraph_floor
        (pre w tail : str) (p : PauseProfile) :
  at_boundary pre = true -> is_word w = true ->
  all_space tail = true -> has_LF tail = true ->
  exists init,
    tokenize (pre ++ w ++ tail) p
      = init ++ [ {| text := w;
                     orpIndex := calculateORPIndex w;
                     pauseMultiplier :=
                       Qmax (punctuationPause w p) (paragraph p) |} ] /\
    calculatePauseMultiplier w p = punctuationPause w p /\
    (paragraph p <= Qmax (punctuationPause w p) (paragraph p))%Q.
Proof.
  intros Hpre Hw Hsp Hlf.
  destruct (tokenize_word_break pre w tail [] p Hpre Hw Hsp Hlf)
    as (init & more & Ht & Hmore).
  rewrite app_nil_r in Ht.
  assert (more = []) as ->.
  { destruct more; [reflexivity | discriminate]. }
  exists init. split; [exact Ht|].
  split; [now apply word_pause | apply Q.le_max_r].
Qed.

(** The theorem on ["one two\n"] with the profile [normal]: the token of
    ["two"], which has no punctuation, gets the multiplier 2. *)
Lemma trailing_break_paragraph_floor_witness :
  exists init,
    tokenize (lit "one " ++ lit "two" ++ [LF]) normal
      = init ++ [ {| text := lit "two"; orpIndex := 1;
                     pauseMultiplier := Qmax 0 2 |} ].
Proof.
  destruct (trailing_break_paragraph_floor (lit "one ") (lit "two") [LF] normal)
    as (init & Ht & _); try reflexivity.
  exists init. exact Ht.
Defined.

(** The scenario of the specification: ["Hello, world! Next line here."]
    with the profile [normal]. *)
Example tokenize_hello :
  map (fun t => (text t, orpIndex t, Qred (pauseMultiplier t)))
      (tokenize (lit "Hello, world! Next line here.") normal)
  = [ (lit "Hello,", 2, 2 # 5); (lit "world!", 2, 6 # 5);
      (lit "Next", 1, 0%Q); (lit "line", 1, 0%Q); (lit "here.", 1, 6 # 5) ].
Proof. vm_compute. reflexivity. Qed.

(** The pieces that the three splits of the model return. *)
Example split_examples :
  split_spaces (lit " a  b ") = [ []; lit "a"; lit "b"; [] ] /\
  split_lines (lit "a" ++ [CR; LF] ++ lit "b" ++ [CR] ++ lit "c" ++ [LF])
    = [ lit "a"; lit "b" ++ [CR] ++ lit "c"; [] ] /\
  split_lines [] = [ [] ] /\
  trim (lit "  ab c  ") = lit "ab c" /\
  has_paragraph_break (lit "a" ++ [LF; 32%N; CR; LF] ++ lit "b") = true /\
  has_paragraph_break (lit "a" ++ [LF] ++ lit "b" ++ [LF]) = false.
Proof. repeat split. Qed.

End TokenizerProperties.

Section MeasureProperties.

Import Timing DriftCompensatedScheduler Store Tokenizer Measure.
Local Open Scope Q_scope.

Lemma Math_round_Z (z : Z) : Math_round (inject_Z z) = z.
Proof.
  unfold Math_round, Qfloor, Qplus, inject_Z. cbn.
  symmetry. apply Z.div_unique with (r := 1%Z); lia.
Qed.

Lemma Math_round_comp (x y : Q) : x == y -> Math_round x = Math_round y.
Proof.
  intros H. unfold Math_round. apply Qfloor_comp. now rewrite H.
Qed.

Lemma Math_round_le (x y : Q) : x <= y -> (Math_round x <= Math_round y)%Z.
Proof.
  intros H. unfold Math_round. apply Qfloor_resp_le.
  now apply Qplus_le_l.
Qed.

Lemma inject_Z_pos (z : Z) : (0 < z)%Z -> 0 < inject_Z z.
Proof. intros H. unfold Qlt, inject_Z. cbn. lia. Qed.

(** X3. [calculateWPMCorrection] returns the target itself when nothing was
    measured (no division by 0) and when the measured speed equals a whole
    target; a measured speed below the target never lowers the suggestion
    and one above it never raises it. *)
Theorem calculateWPMCorrection_spec (t : Z) (actual : Q) :
  (0 < t)%Z ->
  (actual == 0 -> calculateWPMCorrection (inject_Z t) actual = inject_Z t) /\
  (actual == inject_Z t ->
   calculateWPMCorrection (inject_Z t) actual = inject_Z t) /\
  (0 < actual -> actual <= inject_Z t ->
   inject_Z t <= calculateWPMCorrection (inject_Z t) actual) /\
  (inject_Z t <= actual ->
   calculateWPMCorrection (inject_Z t) actual <= inject_Z t).
Proof.
  intros Ht. pose proof (inject_Z_pos t Ht) as HtQ.
  unfold calculateWPMCorrection.
  split; [|split; [|split]].
  - intros H0. apply Qeq_bool_iff in H0. now rewrite H0.
  - intros Heq.
    assert (Hne : ~ actual == 0).
    { intros H0. rewrite H0 in Heq. rewrite <- Heq in HtQ. discriminate. }
    destruct (Qeq_bool actual 0) eqn:E; [apply Qeq_bool_iff in E; contradiction|].
    f_equal. rewrite <- (Math_round_Z t) at 3. apply Math_round_comp.
    rewrite Heq. field. intros H0. rewrite H0 in HtQ. discriminate.
  - intros Hpos Hle.
    assert (Hne : ~ actual == 0).
    { intros H0. rewrite H0 in Hpos. discriminate. }
    destruct (Qeq_bool actual 0) eqn:E; [apply Qeq_bool_iff in E; contradiction|].
    rewrite <- Zle_Qle. rewrite <- (Math_round_Z t) at 1.
    apply Math_round_le.
    apply Qle_trans with (inject_Z t * 1);
      [rewrite Qmult_1_r; apply Qle_refl|].
    apply Qmult_le_l; [exact HtQ|].
    apply Qle_shift_div_l; [exact Hpos|]. now rewrite Qmult_1_l.
  - intros Hle.
    assert (Hpos : 0 < actual) by (eapply Qlt_le_trans; eassumption).
    assert (Hne : ~ actual == 0).
    { intros H0. rewrite H0 in Hpos. discriminate. }
    destruct (Qeq_bool actual 0) eqn:E; [apply Qeq_bool_iff in E; contradiction|].
    rewrite <- Zle_Qle. rewrite <- (Math_round_Z t) at 3.
    apply Math_round_le.
    apply Qle_trans with (inject_Z t * 1);
      [|rewrite Qmult_1_r; apply Qle_refl].
    apply Qmult_le_l; [exact HtQ|].
    apply Qle_shift_div_r; [exact Hpos|]. now rewrite Qmult_1_l.
Qed.

Lemma calculateWPMCorrection_spec_witness :
  calculateWPMCorrection (inject_Z 300) 0 = inject_Z 300 /\
  inject_Z 300 <= calculateWPMCorrection (inject_Z 300) 250.
Proof.
  destruct (calculateWPMCorrection_spec 300 0) as (H0 & _); [reflexivity|].
  destruct (calculateWPMCorrection_spec 300 250) as (_ & _ & Hlow & _);
    [reflexivity|].
  split; [now apply H0 | apply Hlow; [reflexivity | discriminate]].
Defined.

End MeasureProperties.

Section SchedulerMoreProperties.

Import Timing DriftCompensatedScheduler Measure.
Local Open Scope Q_scope.

Lemma late_or_on_time (now : Q) (s : TimingState) (i : Q) :
  Qle_bool i (now - (expectedTime s + i)) = false <->
  now - (expectedTime s + i) < i.
Proof.
  split.
  - intros E. apply Qnot_le_lt. intros H. apply Qle_bool_iff in H. congruence.
  - intros H. destruct (Qle_bool _ _) eqn:E; [|reflexivity].
    apply Qle_bool_iff in E. exfalso. exact (Qlt_not_le _ _ H E).
Qed.

(** X4. A tick that comes less than one interval late never waits 0: on
    that branch [intervalMs - drift] is positive, so [Math.max(0, ...)]
    changes nothing and the delay is [intervalMs - drift] itself, at most
    one interval when the tick is not early and at least one interval when
    it is early.  The test [delay >= 0] of the closure [tick] therefore
    holds exactly for these ticks: they re-arm with [setTimeout], and the
    ticks one interval late or more, which get [-1], with
    [requestAnimationFrame]. *)
Theorem on_time_delay (now : Q) (s : TimingState) (i : Q) :
  let drift := now - (expectedTime s + i) in
  let r := calculateNextTick now s i in
  (drift < i ->
   fst r = i - drift /\ 0 < fst r /\
   (0 <= drift -> fst r <= i) /\ (drift <= 0 -> i <= fst r)) /\
  (Qle_bool 0 (fst r) = true <-> drift < i).
Proof.
  intros drift r. subst r. unfold calculateNextTick. fold drift.
  destruct (Qle_bool i drift) eqn:E; cbn [fst].
  - apply Qle_bool_iff in E. split; [intros H; exfalso; lra|].
    split; [discriminate | intros H; exfalso; lra].
  - apply late_or_on_time in E. fold drift in E.
    assert (Hpos : 0 < i - drift) by lra.
    assert (Hmax : Qmax 0 (i - drift) = i - drift).
    { unfold Qmax, GenericMinMax.gmax. rewrite Qlt_alt in Hpos. now rewrite Hpos. }
    rewrite Hmax. split.
    + intros _. split; [reflexivity|]. split; [exact Hpos|]. split; intros H; lra.
    + split; [intros _; exact E|]. intros _. apply Qle_bool_iff. lra.
Qed.

(** The theorem 30ms late and 20ms early on an interval of 100ms: the
    delays are 70ms and 120ms. *)
Lemma on_time_delay_witness :
  fst (calculateNextTick 130 (createTimingState 0 0) 100)
  = 100 - (130 - (0 + 100)) /\
  100 <= fst (calculateNextTick 80 (createTimingState 0 0) 100).
Proof.
  destruct (on_time_delay 130 (createTimingState 0 0) 100) as [H _].
  destruct (on_time_delay 80 (createTimingState 0 0) 100) as [H' _].
  split.
  - apply H. reflexivity.
  - apply H'; [reflexivity | discriminate].
Defined.

Lemma ticks_snoc (s : TimingState) (i : Q) (nows : list Q) (now : Q) :
  ticks s i (nows ++ [now])
  = snd (calculateNextTick now (ticks s i nows) i).
Proof. unfold ticks. now rewrite fold_left_app. Qed.

(** X5. Ticks that all come less than one interval late move the baseline
    by one addition of the interval each, whatever their clock readings
    are: after [k] of them it is the first baseline with the interval
    added [k] times, so the lateness of the single ticks does not add up.
    What [getDrift] returns is the drift of the last tick alone, against
    the baseline before it. *)
Theorem ticks_keep_phase (i : Q) (nows : list Q) (s : TimingState) :
  (on_time s i nows = true ->
   expectedTime (ticks s i nows)
   = Nat.iter (length nows) (fun t => t + i) (expectedTime s)) /\
  (forall now,
     totalDrift (ticks s i (nows ++ [now]))
     = now - (expectedTime (ticks s i nows) + i)).
Proof.
  split.
  - revert s. induction nows as [|now nows IH]; intros s H; [reflexivity|].
    cbn [on_time] in H. apply andb_prop in H as [Hn Hrest].
    apply negb_true_iff in Hn.
    change (ticks s i (now :: nows))
      with (ticks (snd (calculateNextTick now s i)) i nows).
    rewrite (IH _ Hrest).
    unfold calculateNextTick at 1. rewrite Hn. cbn [snd expectedTime].
    cbn [length]. now rewrite Nat.iter_succ_r.
  - intros now. rewrite ticks_snoc. unfold calculateNextTick.
    destruct (Qle_bool _ _); reflexivity.
Qed.

(** The theorem at four ticks on an interval of 100ms that come 30, 5, 40
    and 1 ms late. *)
Lemma ticks_keep_phase_witness :
  expectedTime (ticks (createTimingState 0 0) 100 [130; 205; 340; 401])
  = 0 + 100 + 100 + 100 + 100 /\
  totalDrift (ticks (createTimingState 0 0) 100 ([130; 205; 340] ++ [401]))
  = 401 - (expectedTime (ticks (createTimingState 0 0) 100 [130; 205; 340])
           + 100).
Proof.
  destruct (ticks_keep_phase 100 [130; 205; 340; 401] (createTimingState 0 0))
    as [H _].
  destruct (ticks_keep_phase 100 [130; 205; 340] (createTimingState 0 0))
    as [_ H'].
  split; [apply H; reflexivity | apply H'].
Defined.

Lemma armed_tracked (w : World) : armed w -> tracked w.
Proof.
  unfold armed. destruct (isRunning w) eqn:Hr.
  - intros (id & Hid & [(e & Ht & Hf)|(tk & Ht & Hf)]).
    + now apply tracked_timeout with id e.
    + now apply tracked_frame with id tk.
  - intros [Ht Hf]. now apply tracked_none.
Qed.

Lemma armed_tick (tk : Tick) (now : Q) (w : World) :
  isRunning w = true -> timeouts w = ∅ -> frames w = ∅ ->
  armed (tick tk now false w).
Proof.
  intros Hr Ht Hf. unfold tick. rewrite Hr. cbn.
  destruct (calculateNextTick now (state w) (tick_intervalMs tk)) as [delay st].
  cbn. destruct (Qle_bool 0 delay); unfold armed; cbn; rewrite Hr.
  - exists (nextTimeout w). split; [reflexivity|]. left.
    eexists. split; [|exact Hf]. rewrite Ht. apply insert_empty.
  - exists (nextFrame w). split; [reflexivity|]. right.
    eexists. split; [exact Ht|]. rewrite Hf. apply insert_empty.
Qed.

Lemma armed_step (w : World) (e : Event) :
  armed w -> plain e = true -> armed (step w e).
Proof.
  intros Ha Hp.
  destruct e as [cb i t0 t1 b| |id' now b|id' now b]; cbn in Hp;
    try (apply negb_true_iff in Hp; subst b); cbn [step].
  - unfold start. destruct (isRunning w) eqn:Hr; [exact Ha|].
    unfold armed in Ha. rewrite Hr in Ha. destruct Ha as [Ht Hf].
    unfold armed. cbn. exists (nextTimeout w). split; [reflexivity|]. left.
    eexists. split; [|exact Hf]. rewrite Ht. apply insert_empty.
  - unfold armed. rewrite stop_not_running.
    apply tracked_stop. now apply armed_tracked.
  - destruct (timeouts w !! id') as [[d tk']|] eqn:E; [|exact Ha].
    unfold armed in Ha. destruct (isRunning w) eqn:Hr.
    + destruct Ha as (id & Hid & [(e & Ht & Hf)|(tk & Ht & Hf)]).
      * rewrite Ht in E. apply lookup_singleton_Some in E as [<- _].
        apply armed_tick; cbn; [exact Hr | | exact Hf].
        rewrite Ht. apply delete_singleton_eq.
      * rewrite Ht, lookup_empty in E. discriminate.
    + destruct Ha as [Ht _]. rewrite Ht, lookup_empty in E. discriminate.
  - destruct (frames w !! id') as [tk'|] eqn:E; [|exact Ha].
    unfold armed in Ha. destruct (isRunning w) eqn:Hr.
    + destruct Ha as (id & Hid & [(e & Ht & Hf)|(tk & Ht & Hf)]).
      * rewrite Hf, lookup_empty in E. discriminate.
      * rewrite Hf in E. apply lookup_singleton_Some in E as [<- _].
        unfold frame_callback. cbn [isRunning cancelAnimationFrame].
        rewrite Hr. apply armed_tick; cbn; [exact Hr | exact Ht |].
        rewrite Hf. apply delete_singleton_eq.
    + destruct Ha as [_ Hf]. rewrite Hf, lookup_empty in E. discriminate.
Qed.

Lemma armed_run (es : list Event) : forall w : World,
  armed w -> forallb plain es = true -> armed (run w es).
Proof.
  induction es as [|e es IH]; intros w Ha Hes; [exact Ha|].
  change (run w (e :: es)) with (run (step w e) es).
  cbn [forallb] in Hes. apply andb_prop in Hes as [He Hes].
  apply IH; [now apply armed_step | exact Hes].
Qed.

(** X6. In a run whose callbacks leave the scheduler alone, a scheduler
    that is active has exactly one callback waiting at the host, under the
    handle it remembers, and one that is not active has none: the chain of
    ticks neither breaks nor doubles. *)
Theorem active_means_one_pending (t0 t1 : Q) (es : list Event) :
  forallb plain es = true ->
  let w := run (init t0 t1) es in
  (active w = true ->
   pending w = 1%nat /\
   exists id, timerId w = Some id /\
              (is_Some (timeouts w !! id) \/ is_Some (frames w !! id))) /\
  (active w = false -> pending w = 0%nat /\ timeouts w = ∅ /\ frames w = ∅).
Proof.
  intros Hes w.
  assert (Ha : armed w).
  { apply armed_run; [|exact Hes]. unfold armed. cbn. auto. }
  unfold armed, active, pending in *.
  destruct (isRunning w); split; try discriminate; intros _.
  - destruct Ha as (id & Hid & [(e & Ht & Hf)|(tk & Ht & Hf)]);
      rewrite Ht, Hf, map_size_empty, map_size_singleton;
      (split; [reflexivity|]); exists id; (split; [exact Hid|]).
    + left. rewrite lookup_singleton_eq. now eexists.
    + right. rewrite lookup_singleton_eq. now eexists.
  - destruct Ha as [Ht Hf]. rewrite Ht, Hf, map_size_empty. auto.
Qed.

Lemma active_means_one_pending_witness :
  pending (run (init 0 0) [EStart 7 100 0 0 false; ETimeout 1 350 false;
                           EFrame 1 360 false]) = 1%nat.
Proof.
  destruct (active_means_one_pending 0 0
              [EStart 7 100 0 0 false; ETimeout 1 350 false;
               EFrame 1 360 false]) as [Hact _]; [reflexivity|].
  apply Hact. reflexivity.
Defined.

Lemma pending_call_stop (cb : nat) (w : World) :
  pending_call cb w -> pending_call cb (stop w).
Proof.
  intros [Ht Hf]. unfold stop, pending_call. cbn.
  destruct (timerId w) as [id|]; cbn.
  - split.
    + intros id' d tk H. apply lookup_delete_Some in H as [_ H]. eauto.
    + intros id' tk H. apply lookup_delete_Some in H as [_ H]. eauto.
  - split; eauto.
Qed.

Lemma pending_call_tick (cb : nat) (tk : Tick) (now : Q) (b : bool) (w : World) :
  pending_call cb w -> tick_callback tk = cb ->
  pending_call cb (tick tk now b w) /\
  (calls (tick tk now b w) = calls w \/ calls (tick tk now b w) = cb :: calls w).
Proof.
  intros Hp Hcb. unfold tick. destruct (isRunning w); cbn [negb]; [|auto].
  set (w1 := invoke (tick_callback tk) b w).
  assert (Hp1 : pending_call cb w1).
  { unfold w1, invoke. destruct b; [apply pending_call_stop|]; exact Hp. }
  assert (Hc1 : calls w1 = cb :: calls w).
  { unfold w1, invoke. destruct b; [rewrite stop_calls|]; cbn; now rewrite Hcb. }
  destruct (calculateNextTick now (state w1) (tick_intervalMs tk)) as [delay st].
  destruct Hp1 as [Ht Hf]. unfold pending_call.
  destruct (Qle_bool 0 delay); cbn; (split; [|now right]); split.
  - intros id d tk' H. apply lookup_insert_Some in H as [[_ H]|[_ H]].
    + congruence.
    + eauto.
  - exact Hf.
  - exact Ht.
  - intros id tk' H. apply lookup_insert_Some in H as [[_ H]|[_ H]].
    + congruence.
    + eauto.
Qed.

Lemma pending_call_step (cb : nat) (w : World) (e : Event) :
  pending_call cb w -> is_start e = false ->
  pending_call cb (step w e) /\
  (calls (step w e) = calls w \/ calls (step w e) = cb :: calls w).
Proof.
  intros Hp Hns. destruct e as [c i t0 t1 b| |id now b|id now b]; cbn [step].
  - discriminate.
  - split; [now apply pending_call_stop | left; apply stop_calls].
  - destruct (timeouts w !! id) as [[d tk]|] eqn:E; [|auto].
    apply (pending_call_tick cb tk now b (clearTimeout id w)).
    + destruct Hp as [Ht Hf]. unfold pending_call. split; cbn; [|exact Hf].
      intros id' d' tk' H. apply lookup_delete_Some in H as [_ H]. eauto.
    + destruct Hp as [Ht _]. eauto.
  - destruct (frames w !! id) as [tk|] eqn:E; [|auto].
    unfold frame_callback. cbn [isRunning cancelAnimationFrame].
    destruct (isRunning w) eqn:Hr.
    + apply (pending_call_tick cb tk now b (cancelAnimationFrame id w)).
      * destruct Hp as [Ht Hf]. unfold pending_call. split; cbn; [exact Ht|].
        intros id' tk' H. apply lookup_delete_Some in H as [_ H]. eauto.
      * destruct Hp as [_ Hf]. eauto.
    + split; [|now left]. destruct Hp as [Ht Hf].
      unfold pending_call. split; cbn; [exact Ht|].
      intros id' tk' H. apply lookup_delete_Some in H as [_ H]. eauto.
Qed.

Lemma pending_call_run (cb : nat) (base : list nat) (es : list Event) :
  forall (w : World) (k : nat),
    pending_call cb w -> calls w = repeat cb k ++ base ->
    forallb (fun e => negb (is_start e)) es = true ->
    exists k', calls (run w es) = repeat cb (k + k') ++ base.
Proof.
  induction es as [|e es IH]; intros w k Hp Hc Hes.
  - exists 0%nat. now rewrite Nat.add_0_r.
  - change (run w (e :: es)) with (run (step w e) es).
    cbn [forallb] in Hes. apply andb_prop in Hes as [He Hes].
    apply negb_true_iff in He.
    destruct (pending_call_step cb w e Hp He) as [Hp' [Hc'|Hc']].
    + apply (IH (step w e) k Hp'); [congruence | exact Hes].
    + destruct (IH (step w e) (S k) Hp') as [k' Hk']; [|exact Hes|].
      * rewrite Hc', Hc. reflexivity.
      * exists (S k'). now rewrite Nat.add_succ_r.
Qed.

(** X7. Restarting replaces the callback.  When a scheduler whose callbacks
    have left it alone is stopped and started again with the callback [cb],
    every callback invoked from then on, until a further [start], is [cb]:
    the start invokes it once and the ticks of the old callback are gone. *)
Theorem restart_replaces_callback
        (t0 t1 : Q) (es : list Event) (cb : nat) (i a b : Q)
        (es2 : list Event) :
  forallb plain es = true ->
  forallb (fun e => negb (is_start e)) es2 = true ->
  let w0 := run (init t0 t1) es in
  let w1 := start cb i a b false (stop w0) in
  exists k, calls (run w1 es2) = repeat cb (S k) ++ calls w0.
Proof.
  intros Hes Hes2 w0 w1.
  assert (Htr : tracked w0).
  { apply tracked_run; [now apply tracked_none | exact Hes]. }
  destruct (tracked_stop w0 Htr) as [Ht Hf].
  assert (Hc1 : calls w1 = repeat cb 1 ++ calls w0).
  { unfold w1, start. rewrite stop_not_running. cbn. now rewrite stop_calls. }
  assert (Hp1 : pending_call cb w1).
  { unfold w1, start, pending_call. rewrite stop_not_running. cbn. split.
    - intros id d tk H. rewrite Ht in H.
      apply lookup_insert_Some in H as [[_ H]|[_ H]].
      + now injection H as _ <-.
      + rewrite lookup_empty in H. discriminate.
    - intros id tk H. rewrite Hf, lookup_empty in H. discriminate. }
  destruct (pending_call_run cb (calls w0) es2 w1 1 Hp1 Hc1 Hes2) as [k Hk].
  exists k. exact Hk.
Qed.

Lemma restart_replaces_callback_witness :
  exists k,
    calls (run (start 8 50 400 400 false
                  (stop (run (init 0 0) [EStart 7 100 0 0 false])))
               [ETimeout 1 405 false; ETimeout 2 450 false])
    = repeat 8%nat (S k) ++ calls (run (init 0 0) [EStart 7 100 0 0 false]).
Proof.
  apply (restart_replaces_callback 0 0 [EStart 7 100 0 0 false] 8 50 400 400
           [ETimeout 1 405 false; ETimeout 2 450 false]); reflexivity.
Defined.

End SchedulerMoreProperties.

Section TokenizerMoreProperties.

Import JsString Tokenizer TokenizerFacts.
Local Open Scope Z_scope.

Lemma calculateORPIndex_valid (w : str) :
  w <> [] -> 0 <= calculateORPIndex w < Z.of_nat (length w).
Proof.
  intros Hw. unfold calculateORPIndex.
  assert (1 <= Z.of_nat (length w)) by (destruct w; [congruence | cbn; lia]).
  repeat match goal with
         | |- context [?a <=? ?b] => destruct (Z.leb_spec a b)
         end; lia.
Qed.

(** X8. The anchor index lies between 0 and 4, is a valid index into every
    non-empty word, and does not decrease when the word gets longer. *)
Theorem calculateORPIndex_bounds (w w' : str) :
  0 <= calculateORPIndex w <= 4 /\
  (w <> [] -> calculateORPIndex w < Z.of_nat (length w)) /\
  ((length w <= length w')%nat -> calculateORPIndex w <= calculateORPIndex w').
Proof.
  unfold calculateORPIndex.
  assert (Hw : w <> [] -> 1 <= Z.of_nat (length w)).
  { destruct w; [congruence | cbn; lia]. }
  repeat match goal with
         | |- context [?a <=? ?b] => destruct (Z.leb_spec a b)
         end; repeat split; try lia; intros Hx; try apply Hw in Hx; lia.
Qed.

Lemma calculateORPIndex_bounds_witness :
  calculateORPIndex (lit "a") < Z.of_nat (length (lit "a")) /\
  calculateORPIndex (lit "reading") <= calculateORPIndex (lit "experience").
Proof.
  destruct (calculateORPIndex_bounds (lit "a") (lit "a")) as (_ & Hv & _).
  destruct (calculateORPIndex_bounds (lit "reading") (lit "experience"))
    as (_ & _ & Hm).
  split; [apply Hv; discriminate | apply Hm; cbn; lia].
Defined.

Lemma flush_words (cur : str) :
  no_space cur = true -> Forall (fun w => is_word w = true) (flush cur).
Proof.
  intros H. destruct cur as [|c cur]; [constructor|].
  constructor; [|constructor]. unfold is_word. cbn [is_empty negb andb].
  exact H.
Qed.

Lemma no_space_snoc (cur : str) (c : N) :
  no_space cur = true -> is_space c = false -> no_space (cur ++ [c]) = true.
Proof.
  intros H Hc. unfold no_space in *. rewrite forallb_app, H. cbn.
  now rewrite Hc.
Qed.

Lemma fragments_from_words (s : str) : forall cur,
  no_space cur = true ->
  Forall (fun w => is_word w = true) (fragments_from cur s).
Proof.
  induction s as [|c s IH]; intros cur Hcur; cbn [fragments_from].
  - now apply flush_words.
  - destruct (is_space c) eqn:Hc.
    + apply Forall_app. split; [now apply flush_words | now apply IH].
    + apply IH. now apply no_space_snoc.
Qed.

Lemma split_spaces_from_no_space (s : str) : forall insep cur,
  no_space cur = true ->
  Forall (fun w => no_space w = true) (split_spaces_from insep cur s).
Proof.
  induction s as [|c s IH]; intros insep cur Hcur; cbn [split_spaces_from].
  - now repeat constructor.
  - destruct (is_space c) eqn:Hc.
    + destruct insep; [now apply IH|]. constructor; [exact Hcur | now apply IH].
    + apply IH. now apply no_space_snoc.
Qed.

Lemma piece_is_word (w : str) :
  no_space w = true -> is_empty w = false -> is_word w = true.
Proof. intros H He. unfold is_word. now rewrite He. Qed.

(** What holds of every token that the inner loop can make holds of all
    tokens. *)
Lemma words_loop_Forall (P : Token -> Prop) (p : PauseProfile)
      (nlines i nwords : Z) (ws : list str) :
  (forall j w, is_word w = true -> P (make_token p nlines i nwords j w)) ->
  Forall (fun w => no_space w = true) ws ->
  forall j, Forall P (words_loop p nlines i nwords j ws).
Proof.
  intros HP Hws. induction Hws as [|w ws Hw Hws IH]; intros j; cbn [words_loop].
  - constructor.
  - destruct (is_empty w) eqn:He; [apply IH|].
    constructor; [|apply IH]. apply HP. now apply piece_is_word.
Qed.

Lemma lines_loop_Forall (P : Token -> Prop) (p : PauseProfile)
      (nlines : Z) (ls : list str) :
  (forall i nwords j w,
      is_word w = true -> P (make_token p nlines i nwords j w)) ->
  forall i, Forall P (lines_loop p nlines i ls).
Proof.
  intros HP. induction ls as [|l ls IH]; intros i; cbn [lines_loop].
  - constructor.
  - destruct (is_empty (trim l)); [apply IH|].
    apply Forall_app. split; [|apply IH].
    apply words_loop_Forall; [apply HP|].
    apply split_spaces_from_no_space. reflexivity.
Qed.

Lemma make_token_well_formed (p : PauseProfile) (nlines i nwords j : Z) (w : str) :
  is_word w = true -> well_formed (make_token p nlines i nwords j w).
Proof.
  intros Hw. unfold well_formed, make_token. cbn [text orpIndex].
  split; [exact Hw|]. split; [reflexivity|].
  apply calculateORPIndex_valid. intros ->. discriminate.
Qed.

(** X9. Every token of [tokenize] is well formed: its text is a non-empty
    word without white space, and its anchor index is the one of the length
    table and points at a character of the text. *)
Theorem tokenize_well_formed (t : str) (p : PauseProfile) :
  Forall well_formed (tokenize t p).
Proof.
  unfold tokenize. apply lines_loop_Forall.
  intros i nwords j w. apply make_token_well_formed.
Qed.

Lemma punctuationPause_nonneg (t : str) (p : PauseProfile) :
  pauses_nonnegative p -> (0 <= punctuationPause t p)%Q.
Proof.
  intros (Hcomma & Hcolon & Hperiod & Hpar). unfold punctuationPause.
  destruct (_ || _ || _); [|destruct (_ || _); [|destruct (is_char _ _)]];
    trivial; try discriminate.
  apply Qle_trans with (period p); [exact Hperiod|].
  eapply Qle_trans; [apply Q.le_max_l | apply Q.le_max_l].
Qed.

Lemma calculatePauseMultiplier_nonneg (t : str) (p : PauseProfile) :
  pauses_nonnegative p -> (0 <= calculatePauseMultiplier t p)%Q.
Proof.
  intros Hp. unfold calculatePauseMultiplier.
  destruct (has_paragraph_break t); [apply Hp | now apply punctuationPause_nonneg].
Qed.

(** X10. With a profile whose comma, colon, period and paragraph values are
    not negative, no token has a negative pause multiplier, whatever the
    other values of the profile are. *)
Theorem tokenize_pause_nonneg (t : str) (p : PauseProfile) :
  pauses_nonnegative p ->
  Forall (fun tok => (0 <= pauseMultiplier tok)%Q) (tokenize t p).
Proof.
  intros Hp. unfold tokenize. apply lines_loop_Forall.
  intros i nwords j w _. unfold make_token. cbn [pauseMultiplier].
  pose proof (calculatePauseMultiplier_nonneg w p Hp) as H.
  destruct (_ && _); [|exact H].
  eapply Qle_trans; [exact H | apply Q.le_max_l].
Qed.

Lemma tokenize_pause_nonneg_witness :
  Forall (fun tok => (0 <= pauseMultiplier tok)%Q)
         (tokenize (lit "Stop. Go on, then: now") inverted).
Proof.
  apply tokenize_pause_nonneg. repeat split; discriminate.
Defined.

Lemma split_lines_from_one_line (t : str) : forall cur,
  has_LF t = false -> split_lines_from cur t = [cur ++ t].
Proof.
  induction t as [|c t IH]; intros cur H.
  - now rewrite app_nil_r.
  - cbn [has_LF existsb] in H. apply orb_false_iff in H as [Hc Ht].
    destruct (split_lines_head c t) as [->|[[-> [s' ->]]|[_ Heq]]].
    + discriminate.
    + discriminate.
    + rewrite Heq, IH by exact Ht. now rewrite <- app_assoc.
Qed.

Lemma words_loop_plain (p : PauseProfile) (nlines i nwords : Z) (ws : list str) :
  nlines - 1 <= i -> Forall (fun w => no_space w = true) ws ->
  forall j, words_loop p nlines i nwords j ws
            = map (plain_token p) (List.filter nonempty ws).
Proof.
  intros Hi Hws. induction Hws as [|w ws Hw Hws IH]; intros j; [reflexivity|].
  cbn [words_loop List.filter]. unfold nonempty at 1.
  destruct (is_empty w) eqn:He; cbn [negb]; [apply IH|].
  cbn [map]. rewrite IH. f_equal.
  unfold make_token, plain_token.
  replace (i <? nlines - 1) with false by (symmetry; apply Z.ltb_ge; lia).
  rewrite andb_false_r. rewrite word_pause; [reflexivity|].
  now apply piece_is_word.
Qed.

(** X11. A text without line feed is one line, and no token of it gets the
    paragraph floor: the tokens are the fragments of the text, each with
    the anchor of its length and the pause of its own punctuation, so that
    the last word of such a text pauses like any other. *)
Theorem tokenize_one_line (t : str) (p : PauseProfile) :
  has_LF t = false ->
  tokenize t p = map (plain_token p) (fragments t).
Proof.
  intros H. unfold tokenize, split_lines.
  rewrite split_lines_from_one_line by exact H.
  cbn [app length lines_loop]. destruct (is_empty (trim t)) eqn:He.
  - rewrite <- (fragments_trim t). now destruct (trim t).
  - rewrite app_nil_r, words_loop_plain.
    + now rewrite split_spaces_fragments, fragments_trim.
    + cbn. lia.
    + apply split_spaces_from_no_space. reflexivity.
Qed.

Lemma tokenize_one_line_witness :
  tokenize (lit "Wait, what? Done.") normal
  = map (plain_token normal) (fragments (lit "Wait, what? Done.")).
Proof. apply tokenize_one_line. reflexivity. Defined.

Lemma lines_loop_semicolon (v : Q) (p : PauseProfile) (nlines : Z) (ls : list str) :
  forall i, lines_loop (with_semicolon v p) nlines i ls = lines_loop p nlines i ls.
Proof.
  assert (Hw : forall i nwords ws j,
             words_loop (with_semicolon v p) nlines i nwords j ws
             = words_loop p nlines i nwords j ws).
  { intros i nwords ws. induction ws as [|w ws IH]; intros j; [reflexivity|].
    cbn [words_loop]. rewrite IH. reflexivity. }
  induction ls as [|l ls IH]; intros i; [reflexivity|].
  cbn [lines_loop]. now rewrite IH, Hw.
Qed.

(** X12. The semicolon value of a profile is never read: a word that ends
    in a semicolon pauses by the comma value, and two profiles that differ
    in the semicolon value only give the same tokens for every text. *)
Theorem semicolon_value_unused (v : Q) (t : str) (p : PauseProfile) :
  tokenize t (with_semicolon v p) = tokenize t p /\
  (forall w, is_word (w ++ [SEMI]) = true ->
             calculatePauseMultiplier (w ++ [SEMI]) p = comma p).
Proof.
  split; [apply lines_loop_semicolon|].
  intros w Hw. rewrite word_pause by exact Hw.
  unfold punctuationPause.
  assert (Ht : trim (w ++ [SEMI]) = w ++ [SEMI]).
  { change (w ++ [SEMI]) with (w ++ [SEMI] ++ []) at 1.
    rewrite app_assoc.
    rewrite <- (app_nil_l (w ++ [SEMI])) at 1.
    now rewrite trim_word_line. }
  rewrite Ht. unfold at_last. rewrite map_app. cbn [map].
  rewrite last_app_cons. reflexivity.
Qed.

Lemma semicolon_value_unused_witness :
  calculatePauseMultiplier (lit "first" ++ [SEMI]) normal = comma normal.
Proof.
  apply (proj2 (semicolon_value_unused 0 [] normal) (lit "first")).
  reflexivity.
Defined.

End TokenizerMoreProperties.

Section ControlsProperties.

Import Tokenizer Playback Controls.
Local Open Scope Z_scope.

Lemma token_at_None (s : Player) (i : Z) :
  token_at s i = None <-> i < 0 \/ tokenCount s <= i.
Proof.
  unfold token_at, tokenCount. destruct (Z.ltb_spec i 0) as [Hneg|Hpos].
  - split; [now left | reflexivity].
  - rewrite lookup_ge_None. split; [intros H; right; lia | intros [H|H]; lia].
Qed.

Lemma TypeError_outside (s : Player) :
  playback_effect s = TypeError ->
  tokenCount s <> 0 /\ (currentIndex s < 0 \/ tokenCount s <= currentIndex s).
Proof.
  unfold playback_effect.
  destruct (isPlaying s); cbn [negb orb]; [|discriminate].
  destruct (Z.eqb_spec (tokenCount s) 0) as [Hn|Hn]; cbn [orb]; [discriminate|].
  destruct (isComplete s); [discriminate|].
  destruct (token_at s (currentIndex s)) as [tok|] eqn:E.
  - destruct (_ >=? _); discriminate.
  - intros _. apply token_at_None in E. auto.
Qed.

(** X13. The playback effect reads [pauseMultiplier] of [undefined], a
    [TypeError], exactly in the states that play a non-empty token list,
    are not complete and have the index outside the list; in all other
    states it arms a timer or does nothing. *)
Theorem playback_effect_TypeError (s : Player) :
  playback_effect s = TypeError <->
  isPlaying s = true /\ isComplete s = false /\ tokenCount s <> 0 /\
  (currentIndex s < 0 \/ tokenCount s <= currentIndex s).
Proof.
  unfold playback_effect.
  destruct (isPlaying s); cbn [negb orb];
    [|split; [discriminate | intros (H & _); discriminate]].
  destruct (Z.eqb_spec (tokenCount s) 0) as [Hn|Hn]; cbn [orb];
    [split; [discriminate | intros (_ & _ & H & _); contradiction]|].
  destruct (isComplete s);
    [split; [discriminate | intros (_ & H & _); discriminate]|].
  destruct (token_at s (currentIndex s)) as [tok|] eqn:E.
  - split.
    + destruct (_ >=? _); discriminate.
    + intros (_ & _ & _ & H). apply token_at_None in H. congruence.
  - apply token_at_None in E. split; [auto | reflexivity].
Qed.

Lemma index_ok_perform (s : Player) (a : Action) :
  index_ok s -> scrubs_in_range s [a] = true -> index_ok (perform s a).
Proof.
  unfold index_ok. intros Hs Ha.
  destruct a; cbn [perform]; cbn in Ha; rewrite ?andb_true_r in Ha.
  - unfold tokenCount. cbn. lia.
  - unfold handlePlayPause.
    destruct (isPlaying s); [exact Hs|]. destruct (_ && _); exact Hs.
  - unfold tokenCount. cbn. fold (tokenCount s). lia.
  - unfold handleSkip, tokenCount.
    destruct (_ && _); cbn; fold (tokenCount s); lia.
  - exact Hs.
  - exact Hs.
  - apply andb_prop in Ha as [H0 H1].
    apply Z.leb_le in H0, H1. unfold tokenCount. cbn. fold (tokenCount s). lia.
  - unfold handleScrubEnd. destruct (wasPlayingBeforeScrub s); exact Hs.
  - exact Hs.
  - unfold timer_fired, playback_effect.
    destruct (_ || _ || _); [exact Hs|].
    destruct (token_at s (currentIndex s)); [|exact Hs].
    destruct (Z.geb_spec (currentIndex s) (tokenCount s - 1)); [exact Hs|].
    unfold tokenCount. cbn. fold (tokenCount s). lia.
Qed.

Lemma index_ok_performs (acts : list Action) : forall s : Player,
  index_ok s -> scrubs_in_range s acts = true -> index_ok (performs s acts).
Proof.
  induction acts as [|a acts IH]; intros s Hs Ha; [exact Hs|].
  change (performs s (a :: acts)) with (performs (perform s a) acts).
  cbn [scrubs_in_range] in Ha. apply andb_prop in Ha as [Ha Hrest].
  apply IH; [|exact Hrest]. apply index_ok_perform; [exact Hs|].
  cbn [scrubs_in_range]. now rewrite Ha.
Qed.

(** X14. From the initial state, whatever is loaded, played, skipped,
    restarted or fired by the timer, the index stays 0 or the index of a
    token, provided every scrub moves to such an index; and then the
    playback effect never raises the [TypeError]. *)
Theorem index_stays_in_range (acts : list Action) :
  scrubs_in_range initial acts = true ->
  let s := performs initial acts in
  index_ok s /\ playback_effect s <> TypeError.
Proof.
  intros Ha s.
  assert (Hok : index_ok s).
  { apply index_ok_performs; [|exact Ha]. unfold index_ok. cbn. lia. }
  split; [exact Hok|]. intros H.
  apply TypeError_outside in H as (Hn & Hout).
  unfold index_ok in Hok. unfold tokenCount in *. lia.
Qed.

Lemma index_stays_in_range_witness :
  index_ok (performs initial
              [ALoad (tokenize (JsString.lit "one two three") normal);
               APlayPause; ATimerFired; ASkip 10; AScrubStart; AScrubMove 2;
               AScrubEnd; ATimerFired; ASkip (-7)]).
Proof.
  apply (index_stays_in_range
           [ALoad (tokenize (JsString.lit "one two three") normal);
            APlayPause; ATimerFired; ASkip 10; AScrubStart; AScrubMove 2;
            AScrubEnd; ATimerFired; ASkip (-7)]).
  reflexivity.
Defined.

Lemma token_at_Some (s : Player) (i : Z) :
  0 <= i < tokenCount s -> exists tok, token_at s i = Some tok.
Proof.
  intros H. destruct (token_at s i) as [tok|] eqn:E; [now exists tok|].
  apply token_at_None in E. lia.
Qed.

Lemma timer_fired_playing (s : Player) :
  isPlaying s = true -> isComplete s = false ->
  0 <= currentIndex s < tokenCount s ->
  timer_fired s
  = if currentIndex s >=? tokenCount s - 1
    then setIsComplete true (setIsPlaying false s)
    else setCurrentIndex (currentIndex s + 1) s.
Proof.
  intros Hp Hc Hi. unfold timer_fired, playback_effect. rewrite Hp, Hc.
  replace (tokenCount s =? 0) with false by (symmetry; apply Z.eqb_neq; lia).
  cbn [negb orb]. destruct (token_at_Some s (currentIndex s) Hi) as [tok ->].
  now destruct (_ >=? _).
Qed.

Lemma play_loaded (ts : list Token) (s : Player) :
  ts <> [] -> handlePlayPause (load ts s) = setIsPlaying true (load ts s).
Proof.
  intros Hne. unfold handlePlayPause, tokenCount. cbn.
  replace (0 <? Z.of_nat (length ts)) with true; [reflexivity|].
  symmetry. apply Z.ltb_lt. destruct ts; [congruence | cbn; lia].
Qed.

Lemma natural_run (ts : list Token) (s : Player) (k : nat) :
  (k < length ts)%nat ->
  Nat.iter k timer_fired (setIsPlaying true (load ts s))
  = setCurrentIndex (Z.of_nat k) (setIsPlaying true (load ts s)).
Proof.
  intros Hk. induction k as [|k IH]; [reflexivity|].
  change (Nat.iter (S k) timer_fired (setIsPlaying true (load ts s)))
    with (timer_fired (Nat.iter k timer_fired (setIsPlaying true (load ts s)))).
  rewrite IH by lia. rewrite timer_fired_playing; try reflexivity.
  - unfold tokenCount. cbn.
    replace (Z.of_nat k >=? Z.of_nat (length ts) - 1) with false
      by (symmetry; rewrite Z.geb_leb; apply Z.leb_gt; lia).
    unfold setCurrentIndex. cbn. f_equal. lia.
  - unfold tokenCount. cbn. lia.
Qed.

(** X15. Playing a loaded text of [n >= 1] tokens from its beginning, the
    timer shows one token after the other: after [k < n] timer events the
    machine plays at index [k]; the [n]-th event completes it at the last
    index, no longer playing; and after that neither the timer nor [play]
    changes anything. *)
Theorem natural_playback_completes (ts : list Token) (s : Player) :
  ts <> [] ->
  let n := length ts in
  let s0 := handlePlayPause (load ts s) in
  (forall k, (k < n)%nat ->
     let sk := Nat.iter k timer_fired s0 in
     currentIndex sk = Z.of_nat k /\ isPlaying sk = true /\
     isComplete sk = false) /\
  (let sn := Nat.iter n timer_fired s0 in
   currentIndex sn = Z.of_nat n - 1 /\ in_Complete sn /\
   timer_fired sn = sn /\ handlePlayPause sn = sn).
Proof.
  intros Hne. cbv zeta. rewrite (play_loaded ts s Hne).
  set (n := length ts).
  assert (Hn : (1 <= n)%nat).
  { unfold n. destruct ts; [congruence | cbn; lia]. }
  split.
  - intros k Hk. rewrite natural_run by exact Hk.
    cbn. auto.
  - set (sn := Nat.iter n timer_fired (setIsPlaying true (load ts s))).
    assert (Hsn : sn = setIsComplete true
                         (setIsPlaying false
                            (setCurrentIndex (Z.of_nat n - 1)
                               (setIsPlaying true (load ts s))))).
    { unfold sn. destruct n as [|m] eqn:En; [lia|].
      change (Nat.iter (S m) timer_fired (setIsPlaying true (load ts s)))
        with (timer_fired
                (Nat.iter m timer_fired (setIsPlaying true (load ts s)))).
      rewrite natural_run by (fold n; lia).
      rewrite timer_fired_playing; try reflexivity.
      - unfold tokenCount. cbn. fold n. rewrite En.
        replace (Z.of_nat m >=? Z.of_nat (S m) - 1) with true
          by (symmetry; apply Z.geb_le; lia).
        unfold setIsComplete, setIsPlaying, setCurrentIndex. cbn.
        f_equal. lia.
      - unfold tokenCount. cbn. fold n. lia. }
    rewrite Hsn. cbn. repeat split.
Qed.

Lemma natural_playback_completes_witness :
  in_Complete
    (Nat.iter 3 timer_fired
       (handlePlayPause
          (load (tokenize (JsString.lit "one two three") normal) initial))).
Proof.
  assert (Hne : tokenize (JsString.lit "one two three") normal <> [])
    by (vm_compute; discriminate).
  destruct (natural_playback_completes _ initial Hne) as [_ Hend].
  apply Hend.
Defined.

(** X16. Only the timer completes a reading: if the machine is complete
    after an action, it was complete before, or the action is the timer
    event of a playing machine at or past the last index of a non-empty
    token list.  A skip or a scrub to the last index does not complete. *)
Theorem complete_only_by_timer (s : Player) (a : Action) :
  isComplete (perform s a) = true ->
  isComplete s = true \/
  (a = ATimerFired /\ isPlaying s = true /\ tokenCount s <> 0 /\
   tokenCount s - 1 <= currentIndex s).
Proof.
  destruct a; cbn [perform]; try (cbn; now left).
  - unfold handlePlayPause.
    destruct (isPlaying s); [now left|]. destruct (_ && _); now left.
  - unfold handleSkip. destruct (_ && _); cbn; now left.
  - unfold handleScrubEnd. destruct (wasPlayingBeforeScrub s); now left.
  - unfold timer_fired, playback_effect.
    destruct (isPlaying s) eqn:Hp; cbn [negb orb]; [|now left].
    destruct (Z.eqb_spec (tokenCount s) 0) as [Hn|Hn]; cbn [orb]; [now left|].
    destruct (isComplete s) eqn:Hc; [now left|].
    destruct (token_at s (currentIndex s)); [|intros H; congruence].
    destruct (Z.geb_spec (currentIndex s) (tokenCount s - 1)) as [Hge|Hlt].
    + intros _. right. repeat split; trivial.
    + cbn. intros H. congruence.
Qed.

Lemma complete_only_by_timer_witness :
  isComplete finished_three = true \/
  (ASkip 1 = ATimerFired /\ isPlaying finished_three = true /\
   tokenCount finished_three <> 0 /\
   tokenCount finished_three - 1 <= currentIndex finished_three).
Proof.
  apply (complete_only_by_timer finished_three (ASkip 1)). reflexivity.
Defined.

(** A scrub is transparent for the play state: between its start and
    its end the machine does not play, and after start, move to [i] and end
    it plays exactly if it played before, at index [i], with the token list
    and the completion flag untouched. *)
Lemma scrub_round_trip (s : Player) (i : Z) :
  let mid := handleScrubMove i (handleScrubStart s) in
  let s' := handleScrubEnd mid in
  isPlaying mid = false /\
  isPlaying s' = isPlaying s /\ currentIndex s' = i /\
  tokens s' = tokens s /\ isComplete s' = isComplete s /\ wpm s' = wpm s.
Proof.
  intros mid s'. unfold s', mid, handleScrubEnd, handleScrubMove, handleScrubStart.
  cbn. destruct (isPlaying s); cbn; repeat split.
Qed.

Lemma Qfloor_lt_Z (x : Q) (z : Z) : (x < inject_Z z)%Q -> Qfloor x < z.
Proof.
  intros H. rewrite Zlt_Qlt. eapply Qle_lt_trans; [apply Qfloor_le | exact H].
Qed.

(** X17. On a bar of positive width over [total >= 0] tokens the index
    under a position lies between 0 and [total], both included: it is 0 at
    and left of the left edge, below [total] inside the bar, and [total]
    itself, one past the last token, at and right of the right edge. *)
Theorem scrub_index_bounds (pos width : Q) (total idx : Z) :
  (0 < width)%Q -> 0 <= total ->
  scrub_index pos width total = Some idx ->
  0 <= idx <= total /\
  ((pos <= 0)%Q -> idx = 0) /\
  ((pos < width)%Q -> 0 < total -> idx < total) /\
  ((width <= pos)%Q -> idx = total).
Proof.
  intros Hw Ht. unfold scrub_index.
  destruct (Qeq_bool width 0) eqn:E.
  { apply Qeq_bool_iff in E. rewrite E in Hw. discriminate. }
  intros H.
  assert (idx = Qfloor (Qmax 0 (Qmin 1 (pos / width)) * inject_Z total)) as ->
    by congruence.
  clear H.
  set (x := (pos / width)%Q).
  set (p := Qmax 0 (Qmin 1 x)).
  assert (HT : (0 <= inject_Z total)%Q) by (rewrite <- (Zle_Qle 0); exact Ht).
  assert (Hp0 : (0 <= p)%Q) by apply Q.le_max_l.
  assert (Hp1 : (p <= 1)%Q).
  { apply Q.max_lub; [discriminate | apply Q.le_min_l]. }
  split; [split|split; [|split]].
  - exact (Qfloor_resp_le 0 _ (Qmult_le_0_compat _ _ Hp0 HT)).
  - assert (Hle : (p * inject_Z total <= inject_Z total)%Q).
    { apply Qle_trans with (1 * inject_Z total)%Q;
        [now apply Qmult_le_compat_r | rewrite Qmult_1_l; apply Qle_refl]. }
    apply Qfloor_resp_le in Hle. now rewrite Qfloor_Z in Hle.
  - intros Hpos.
    assert (Hx : (x <= 0)%Q).
    { unfold x. apply Qle_shift_div_r; [exact Hw|]. now rewrite Qmult_0_l. }
    assert (Hp : (p == 0)%Q).
    { unfold p. apply Q.max_l. eapply Qle_trans; [apply Q.le_min_r | exact Hx]. }
    transitivity (Qfloor 0); [|reflexivity].
    apply Qfloor_comp. rewrite Hp. ring.
  - intros Hin Htot.
    assert (Hx : (x < 1)%Q).
    { unfold x. apply Qlt_shift_div_r; [exact Hw|]. now rewrite Qmult_1_l. }
    assert (Hp : (p < 1)%Q).
    { unfold p. apply Q.max_lub_lt; [reflexivity|].
      eapply Qle_lt_trans; [apply Q.le_min_r | exact Hx]. }
    apply Qfloor_lt_Z.
    apply Qlt_le_trans with (1 * inject_Z total)%Q;
      [|rewrite Qmult_1_l; apply Qle_refl].
    apply Qmult_lt_compat_r; [|exact Hp].
    rewrite <- (Zlt_Qlt 0). exact Htot.
  - intros Hout.
    assert (Hx : (1 <= x)%Q).
    { unfold x. apply Qle_shift_div_l; [exact Hw|]. now rewrite Qmult_1_l. }
    assert (Hp : (p == 1)%Q).
    { unfold p. rewrite (Q.min_l 1 x Hx). apply Q.max_r. discriminate. }
    transitivity (Qfloor (inject_Z total)); [|apply Qfloor_Z].
    apply Qfloor_comp. rewrite Hp. ring.
Qed.

Lemma scrub_index_bounds_witness :
  0 <= 250 <= 250 /\
  ((1000 <= 0)%Q -> 250 = 0) /\
  ((1000 < 1000)%Q -> 0 < 250 -> 250 < 250) /\
  ((1000 <= 1000)%Q -> 250 = 250).
Proof.
  apply (scrub_index_bounds 1000 1000 250 250);
    [reflexivity | lia | reflexivity].
Defined.

Lemma speed_after_range (c : SpeedControl) (w : Q) :
  (100 <= w <= 900)%Q -> (100 <= speed_after c w <= 900)%Q.
Proof.
  intros [Hlo Hhi].
  destruct c; cbn [speed_after]; split;
    first [ apply Q.min_glb; lra
          | apply Q.max_lub; lra
          | eapply Qle_trans; [|apply Q.le_max_l]; lra
          | eapply Qle_trans; [apply Q.le_min_l|]; lra ].
Qed.

(** X18. The speed controls keep the speed between 100 and 900 words per
    minute, whatever keys and buttons are pressed in whatever order, so
    that the duration of every token with a non-negative pause stays
    positive and the division by the speed is never one by 0. *)
Theorem speed_controls_in_range (cs : list SpeedControl) : forall s : Player,
  (100 <= wpm s <= 900)%Q ->
  let s' := fold_left press cs s in
  (100 <= wpm s' <= 900)%Q /\
  (forall m, (0 <= m)%Q -> (0 < getTokenDuration (wpm s') m)%Q) /\
  tokens s' = tokens s /\ currentIndex s' = currentIndex s.
Proof.
  induction cs as [|c cs IH]; intros s Hs.
  - cbn. split; [exact Hs|]. split; [|auto].
    intros m Hm. unfold getTokenDuration.
    apply Qmult_lt_0_compat; [apply base_ms_positive|]; lra.
  - change (fold_left press (c :: cs) s) with (fold_left press cs (press s c)).
    apply (IH (press s c)). cbn. now apply speed_after_range.
Qed.

Lemma speed_controls_in_range_witness :
  (100 <= wpm (fold_left press
                 [PageMinus; PageMinus; PageMinus; PageMinus; PageMinus;
                  KeyArrowDown; DockPlus; KeyArrowUp] initial) <= 900)%Q.
Proof.
  apply (speed_controls_in_range
           [PageMinus; PageMinus; PageMinus; PageMinus; PageMinus;
            KeyArrowDown; DockPlus; KeyArrowUp] initial).
  split; discriminate.
Defined.

End ControlsProperties.

Section StoreMoreProperties.

Import Store StoreMore.
Local Open Scope Q_scope.

(** X19. A progress update touches one session at most: the documents and
    the settings stay as they are, no session is created or removed, every
    other session is unchanged, and without the session or without its
    document nothing is written at all.  Where it writes, it stores the index and
    the speed, counts the pause and the rewind, and keeps the document, the
    speed of the start and the best sustained speed. *)
Theorem updateSessionProgress_frame
        (now : Z) (sid : string) (idx : Z) (wpm : Q) (p r : bool) (db : DB) :
  let db' := updateSessionProgress now sid idx wpm p r db in
  documents db' = documents db /\ settings db' = settings db /\
  dom (sessions db') = dom (sessions db) /\
  (forall other, other <> sid -> sessions db' !! other = sessions db !! other) /\
  (sessions db !! sid = None -> db' = db) /\
  (forall old, sessions db !! sid = Some old ->
               documents db !! documentId old = None -> db' = db) /\
  (forall old doc, sessions db !! sid = Some old ->
                   documents db !! documentId old = Some doc ->
     exists new, sessions db' !! sid = Some new /\
       documentId new = documentId old /\
       startWPM new = startWPM old /\ endWPM new = wpm /\
       bestSustainedWPM60s new = bestSustainedWPM60s old /\
       tokensRead new = idx /\
       pauses new = (pauses old + (if p then 1 else 0))%Z /\
       rewinds new = (rewinds old + (if r then 1 else 0))%Z).
Proof.
  intros db'. unfold db', updateSessionProgress.
  destruct (sessions db !! sid) as [old|] eqn:Hs.
  2:{ repeat split; try reflexivity; try discriminate;
        try (intros; discriminate). }
  destruct (documents db !! documentId old) as [doc|] eqn:Hd.
  2:{ repeat split; try reflexivity; try discriminate;
        try (intros; contradiction).
      intros old' doc' H Hd'. injection H as <-. congruence. }
  cbn [documents sessions settings].
  split; [reflexivity|]. split; [reflexivity|]. split.
  { apply dom_insert_lookup_L. now rewrite Hs. }
  split. { intros other Hne. now apply lookup_insert_ne. }
  split; [discriminate|]. split.
  { intros old' H. injection H as <-. congruence. }
  intros old' doc' H _. injection H as <-.
  eexists. split; [apply lookup_insert_eq|]. cbn.
  repeat split; destruct p, r; lia.
Qed.

Lemma updateSessionProgress_frame_witness :
  exists new,
    sessions (updateSessionProgress 5000 "s1" 4 350 true false db_300)
      !! "s1"%string = Some new /\
    pauses new = 1%Z /\ rewinds new = 0%Z /\ tokensRead new = 4%Z.
Proof.
  destruct (updateSessionProgress_frame 5000 "s1" 4 350 true false db_300)
    as (_ & _ & _ & _ & _ & _ & H).
  destruct (H session_300 {| totalTokens := 10; chapters := [] |})
    as (new & Hl & _ & _ & _ & _ & Ht & Hp & Hr);
    [reflexivity | reflexivity |].
  exists new. split; [exact Hl|]. split; [exact Hp|]. split; [exact Hr|].
  exact Ht.
Defined.

(** X20. [finalizeSession] stores the best speed and the final index in
    the one session and leaves the rest of the database alone; when no
    chapter of the document contains the final index, the chapter is
    counted as complete (ratio 1); without the session or its document
    nothing is written. *)
Theorem finalizeSession_spec
        (sid : string) (best : Q) (idx : Z) (db : DB) :
  let db' := finalizeSession sid best idx db in
  documents db' = documents db /\ settings db' = settings db /\
  (forall other, other <> sid -> sessions db' !! other = sessions db !! other) /\
  (sessions db !! sid = None -> db' = db) /\
  (forall old, sessions db !! sid = Some old ->
               documents db !! documentId old = None -> db' = db) /\
  (forall old doc, sessions db !! sid = Some old ->
                   documents db !! documentId old = Some doc ->
     exists new, sessions db' !! sid = Some new /\
       bestSustainedWPM60s new = best /\ tokensRead new = idx /\
       avgWPM new = avgWPM old /\ pauses new = pauses old /\
       completionDeltaOverall new = ratio idx (totalTokens doc) /\
       (find_chapter idx (chapters doc) = None ->
        completionDeltaChapter new = Some 1)).
Proof.
  intros db'. unfold db', finalizeSession.
  destruct (sessions db !! sid) as [old|] eqn:Hs.
  2:{ repeat split; try reflexivity; try (intros; discriminate). }
  destruct (documents db !! documentId old) as [doc|] eqn:Hd.
  2:{ repeat split; try reflexivity; try discriminate;
        try (intros; congruence). }
  cbn [documents sessions settings].
  split; [reflexivity|]. split; [reflexivity|]. split.
  { intros other Hne. now apply lookup_insert_ne. }
  split; [discriminate|]. split.
  { intros old' H. injection H as <-. congruence. }
  intros old' doc' H1 H2. injection H1 as <-.
  assert (doc' = doc) as -> by congruence.
  eexists. split; [apply lookup_insert_eq|]. cbn.
  repeat split. intros Hnone. now rewrite Hnone.
Qed.

Lemma finalizeSession_spec_witness :
  exists new, sessions (finalizeSession "s1" 310 10 db_300) !! "s1"%string
              = Some new /\
              completionDeltaChapter new = Some 1.
Proof.
  destruct (finalizeSession_spec "s1" 310 10 db_300) as (_ & _ & _ & _ & _ & H).
  destruct (H session_300 {| totalTokens := 10; chapters := [] |})
    as (new & Hl & _ & _ & _ & _ & _ & Hch); [reflexivity | reflexivity |].
  exists new. split; [exact Hl | apply Hch; reflexivity].
Defined.

Lemma glide_terms_bounded (x : Q) : 0 <= x -> 0 <= Qmin 100 x <= 100.
Proof.
  intros Hx. split; [apply Q.min_glb; [discriminate | exact Hx] | apply Q.le_min_l].
Qed.

(** X21. For a session with a non-negative average and best speed and a
    completion ratio between 0 and 1 the Glide Score exists and lies
    between 0 and 100; an average of 0 gives no division, its consistency
    term is 0. *)
Theorem calculateGlideScore_range (s : Session) (c : Q) :
  0 <= avgWPM s -> 0 <= bestSustainedWPM60s s ->
  completionDeltaOverall s = Some c -> 0 <= c <= 1 ->
  exists score, calculateGlideScore s = Some score /\ (0 <= score <= 100)%Z /\
    (avgWPM s == 0 -> score = Math_round (c * 100 * (3 # 10))).
Proof.
  intros Havg Hbest Hc [Hc0 Hc1]. unfold calculateGlideScore. rewrite Hc.
  eexists. split; [reflexivity|].
  set (eff := Qmin 100 (avgWPM s / 600 * 100)).
  set (cons := if Qgt_bool (avgWPM s) 0
               then Qmin 100 (bestSustainedWPM60s s / avgWPM s * 100) else 0).
  assert (Heff : 0 <= eff <= 100).
  { apply glide_terms_bounded. apply Qmult_le_0_compat; [|discriminate].
    apply Qle_shift_div_l; [reflexivity|]. now rewrite Qmult_0_l. }
  assert (Hcons : 0 <= cons <= 100).
  { unfold cons. destruct (Qgt_bool (avgWPM s) 0) eqn:E; [|split; discriminate].
    apply Qgt_bool_true in E. apply glide_terms_bounded.
    apply Qmult_le_0_compat; [|discriminate].
    apply Qle_shift_div_l; [exact E|]. now rewrite Qmult_0_l. }
  split; [split|].
  - apply Z.le_trans with (Math_round 0); [reflexivity|].
    apply Math_round_le. clearbody eff cons. lra.
  - apply Z.le_trans with (Math_round 100); [|reflexivity].
    apply Math_round_le. clearbody eff cons. lra.
  - intros H0. apply Math_round_comp.
    assert (Heff0 : eff == 0).
    { unfold eff. rewrite H0. reflexivity. }
    assert (Hcons0 : cons == 0).
    { unfold cons. destruct (Qgt_bool (avgWPM s) 0) eqn:E; [|reflexivity].
      apply Qgt_bool_true in E. rewrite H0 in E. discriminate. }
    rewrite Heff0, Hcons0. ring.
Qed.

(** The scenario of the specification: average 300, best 300, complete. *)
Lemma calculateGlideScore_range_witness :
  exists score,
    calculateGlideScore
      {| documentId := "d1"; startedAt := 0; durationSeconds := 60;
         startWPM := 300; endWPM := 300; avgWPM := 300;
         bestSustainedWPM60s := 300; tokensRead := 10;
         completionDeltaOverall := Some 1; completionDeltaChapter := Some 1;
         pauses := 0; rewinds := 0;
         settingsSnapshot := default_settings |} = Some score /\
    (0 <= score <= 100)%Z.
Proof.
  destruct (calculateGlideScore_range
              {| documentId := "d1"; startedAt := 0; durationSeconds := 60;
                 startWPM := 300; endWPM := 300; avgWPM := 300;
                 bestSustainedWPM60s := 300; tokensRead := 10;
                 completionDeltaOverall := Some 1;
                 completionDeltaChapter := Some 1;
                 pauses := 0; rewinds := 0;
                 settingsSnapshot := default_settings |} 1)
    as (score & Hs & Hr & _);
    [discriminate | discriminate | reflexivity | split; discriminate |].
  exists score. split; assumption.
Defined.

Example glide_score_80 :
  calculateGlideScore
    {| documentId := "d1"; startedAt := 0; durationSeconds := 60;
       startWPM := 300; endWPM := 300; avgWPM := 300;
       bestSustainedWPM60s := 300; tokensRead := 10;
       completionDeltaOverall := Some 1; completionDeltaChapter := Some 1;
       pauses := 0; rewinds := 0;
       settingsSnapshot := default_settings |} = Some 80%Z.
Proof. reflexivity. Qed.

(** X22. Deleting a document removes it and exactly the sessions that name
    it: afterwards the document is gone and no session refers to it, every
    other document and session is as before, and a progress update for a
    removed session writes nothing. *)
Theorem deleteDocument_spec (id : string) (db : DB) :
  let db' := deleteDocument id db in
  documents db' !! id = None /\
  (forall other, other <> id -> documents db' !! other = documents db !! other) /\
  (forall sid s, sessions db' !! sid = Some s <->
                 sessions db !! sid = Some s /\ documentId s <> id) /\
  settings db' = settings db /\
  (forall sid s now idx wpm p r,
      sessions db !! sid = Some s -> documentId s = id ->
      updateSessionProgress now sid idx wpm p r db' = db').
Proof.
  intros db'. unfold db', deleteDocument. cbn [documents sessions settings].
  split; [apply lookup_delete_eq|].
  split; [intros other Hne; now apply lookup_delete_ne|].
  split; [intros sid s; apply map_lookup_filter_Some|].
  split; [reflexivity|].
  intros sid s now idx wpm p r Hs Hid.
  unfold updateSessionProgress. cbn [sessions].
  destruct (base.filter _ (sessions db) !! sid) as [s'|] eqn:E; [|reflexivity].
  apply map_lookup_filter_Some in E as [E Hne]. cbn in Hne.
  congruence.
Qed.

Lemma deleteDocument_spec_witness :
  updateSessionProgress 3000 "s1" 2 301 false false (deleteDocument "d1" db_300)
  = deleteDocument "d1" db_300.
Proof.
  destruct (deleteDocument_spec "d1" db_300) as (_ & _ & _ & _ & H).
  apply (H "s1"%string session_300); reflexivity.
Defined.

Lemma initDB_fresh (db : DB) :
  size (settings db) = 0%nat -> getSettings (initDB db) = Some default_settings.
Proof.
  intros H. unfold initDB, getSettings. rewrite H. cbn.
  apply lookup_insert_eq.
Qed.

(** X23. The settings.  [initDB] gives an empty settings table the default
    record, with 300 words per minute, leaves a table that has records as
    it is, and is idempotent.  [updateSettings] fails exactly when
    [getSettings] does; otherwise [getSettings] returns the merged record
    afterwards, and a session created then starts at the configured speed
    if that is not 0. *)
Theorem settings_spec (db : DB) :
  (size (settings db) = 0%nat ->
   getSettings (initDB db) = Some default_settings) /\
  (size (settings db) <> 0%nat -> initDB db = db) /\
  initDB (initDB db) = initDB db /\
  (forall u, getSettings db = None -> updateSettings u db = None) /\
  (forall u cur, getSettings db = Some cur ->
     exists db', updateSettings u db = Some db' /\
       getSettings db' = Some (merge_settings cur u) /\
       sessions db' = sessions db /\ documents db' = documents db /\
       (forall id now docId s db'',
           createSession id now docId db' = Some (s, db'') ->
           ~ defaultWPM (merge_settings cur u) == 0 ->
           avgWPM s = defaultWPM (merge_settings cur u) /\
           startWPM s = defaultWPM (merge_settings cur u))).
Proof.
  split; [apply initDB_fresh|]. split; [|split; [|split]].
  - intros H. unfold initDB. apply Nat.eqb_neq in H. now rewrite H.
  - unfold initDB at 2. destruct (size (settings db) =? 0)%nat eqn:E;
      [|unfold initDB; now rewrite E].
    unfold initDB. cbn [settings]. apply Nat.eqb_eq in E.
    apply map_size_empty_inv in E. rewrite E.
    rewrite insert_empty, map_size_singleton. reflexivity.
  - intros u H. unfold updateSettings. now rewrite H.
  - intros u cur H. unfold updateSettings. rewrite H.
    eexists. split; [reflexivity|]. unfold getSettings. cbn [settings].
    rewrite lookup_insert_eq. split; [reflexivity|].
    split; [reflexivity|]. split; [reflexivity|].
    intros id now docId s db'' Hc Hnz. unfold createSession in Hc.
    cbn [settings sessions] in Hc. rewrite lookup_insert_eq in Hc.
    destruct (sessions db !! id); [discriminate|].
    injection Hc as <- _.
    assert (E : Qeq_bool (defaultWPM (merge_settings cur u)) 0 = false).
    { destruct (Qeq_bool _ 0) eqn:E; [|reflexivity].
      apply Qeq_bool_iff in E. contradiction. }
    cbn [avgWPM startWPM default_speed].
    change (default (defaultWPM cur) (new_defaultWPM u))
      with (defaultWPM (merge_settings cur u)).
    rewrite E. split; reflexivity.
Qed.

Lemma settings_spec_witness :
  getSettings (initDB db_300) = Some default_settings /\
  (exists db', updateSettings {| new_defaultWPM := Some 450;
                                 new_pauseProfile := None |} (initDB db_300)
               = Some db' /\
               getSettings db'
               = Some {| defaultWPM := 450; pauseProfile := "normal" |}).
Proof.
  destruct (settings_spec db_300) as (Hinit & _).
  split; [apply Hinit; reflexivity|].
  destruct (settings_spec (initDB db_300)) as (_ & _ & _ & _ & Hupd).
  destruct (Hupd {| new_defaultWPM := Some 450; new_pauseProfile := None |}
                 default_settings) as (db' & Hu & Hg & _);
    [apply Hinit; reflexivity|].
  exists db'. split; [exact Hu | exact Hg].
Defined.

Lemma sum_constant (v : Q) (es : list Sample) : forall a : Q,
  Forall (fun e => sample_wpm e = v) es ->
  fold_left (fun sum e => sum + sample_wpm e) es a
  == a + inject_Z (Z.of_nat (length es)) * v.
Proof.
  induction es as [|e es IH]; intros a H.
  - cbn. ring.
  - pose proof (Forall_inv H) as He. pose proof (Forall_inv_tail H) as Hes.
    cbn beta in He. cbn [fold_left length].
    rewrite (IH _ Hes), He, Nat2Z.inj_succ, <- Z.add_1_r, inject_Z_plus.
    change (inject_Z 1) with 1. ring.
Qed.

Lemma averageWPM_constant (v : Q) (es : list Sample) :
  es <> [] -> Forall (fun e => sample_wpm e = v) es -> averageWPM es == v.
Proof.
  intros Hne H. unfold averageWPM. rewrite (sum_constant v es 0 H).
  assert (Hn : ~ inject_Z (Z.of_nat (length es)) == 0).
  { destruct es; [congruence|]. cbn [length]. intros H0.
    assert (Hpos : 0 < inject_Z (Z.of_nat (S (length es)))).
    { rewrite <- (Zlt_Qlt 0). lia. }
    rewrite H0 in Hpos. discriminate. }
  field. exact Hn.
Qed.

Lemma windowEntries_constant (v : Q) (h : list Sample) (start : Z) :
  Forall (fun e => sample_wpm e = v) h ->
  Forall (fun e => sample_wpm e = v) (windowEntries h start).
Proof.
  intros H. unfold windowEntries. induction H as [|e h He Hh IH]; cbn.
  - constructor.
  - destruct (_ && _); [constructor|]; assumption.
Qed.

Lemma best_step_constant (v : Q) (h : list Sample) (acc : Q) (e : Sample) :
  Forall (fun e => sample_wpm e = v) h -> acc == v ->
  (if (1 <? length (windowEntries h (timestamp e)))%nat
   then Qmax acc (averageWPM (windowEntries h (timestamp e)))
   else acc) == v.
Proof.
  intros Hh Hacc. destruct (1 <? _)%nat eqn:E; [|exact Hacc].
  assert (Havg : averageWPM (windowEntries h (timestamp e)) == v).
  { apply averageWPM_constant; [|now apply windowEntries_constant].
    intros H0. rewrite H0 in E. discriminate. }
  rewrite Hacc, Havg. apply Q.max_id.
Qed.

Lemma best_fold_constant (v : Q) (h l : list Sample) : forall acc : Q,
  Forall (fun e => sample_wpm e = v) h -> acc == v ->
  fold_left
    (fun maxAvg e =>
       if (1 <? length (windowEntries h (timestamp e)))%nat
       then Qmax maxAvg (averageWPM (windowEntries h (timestamp e)))
       else maxAvg) l acc == v.
Proof.
  induction l as [|e l IH]; intros acc Hh Hacc; [exact Hacc|].
  cbn [fold_left]. apply IH; [exact Hh|]. now apply best_step_constant.
Qed.

Lemma windowEntries_all (h : list Sample) (start : Z) :
  Forall (fun e => (start <= timestamp e <= start + 60000)%Z) h ->
  windowEntries h start = h.
Proof.
  intros H. unfold windowEntries. induction H as [|e h He Hh IH]; [reflexivity|].
  cbn [List.filter].
  replace ((start <=? timestamp e)%Z && (timestamp e <=? start + 60000)%Z)
    with true; [now rewrite IH|].
  symmetry. apply andb_true_intro. split; apply Z.leb_le; lia.
Qed.

(** X24. The best sustained speed.  With fewer than two entries in the
    history it is the current speed itself.  When all entries carry the
    same speed [v >= 0] and lie within 60 seconds after the first, it is
    [v] rounded, whatever the current speed is. *)
Theorem bestSustainedWPM_constant
        (wpm v : Q) (e0 : Sample) (rest : list Sample) :
  bestSustainedWPM wpm [] = wpm /\ bestSustainedWPM wpm [e0] = wpm /\
  (rest <> [] -> 0 <= v ->
   Forall (fun e => sample_wpm e = v) (e0 :: rest) ->
   Forall (fun e => (timestamp e0 <= timestamp e <= timestamp e0 + 60000)%Z)
          rest ->
   bestSustainedWPM wpm (e0 :: rest) = inject_Z (Math_round v)).
Proof.
  split; [reflexivity|]. split; [reflexivity|].
  intros Hne Hv Hall Hwin. unfold bestSustainedWPM.
  assert (Hlen : (1 <? length (e0 :: rest))%nat = true).
  { destruct rest; [congruence | reflexivity]. }
  rewrite Hlen. f_equal. apply Math_round_comp.
  cbn [fold_left]. apply best_fold_constant; [exact Hall|].
  rewrite windowEntries_all by (constructor; [lia | exact Hwin]).
  rewrite Hlen.
  rewrite (averageWPM_constant v (e0 :: rest)) by (trivial; discriminate).
  now apply Q.max_r.
Qed.

Lemma bestSustainedWPM_constant_witness :
  bestSustainedWPM 450 steady_history = inject_Z (Math_round 300).
Proof.
  apply (bestSustainedWPM_constant 450 300); try discriminate.
  - repeat constructor.
  - repeat constructor; cbn; lia.
Defined.

Lemma chronological_filter (f : Sample -> bool) (h : list Sample) :
  chronological h -> chronological (List.filter f h).
Proof.
  induction h as [|e h IH]; [trivial|]. intros [He Hh]. cbn [List.filter].
  destruct (f e); [|now apply IH]. split; [|now apply IH].
  apply Forall_forall. intros x Hx. apply filter_In in Hx as [Hx _].
  rewrite Forall_forall in He. now apply He.
Qed.

Lemma chronological_snoc (h : list Sample) (e : Sample) :
  chronological h ->
  Forall (fun e' => (timestamp e' <= timestamp e)%Z) h ->
  chronological (h ++ [e]).
Proof.
  induction h as [|x h IH]; intros Hc Hle; [cbn; auto|].
  destruct Hc as [Hx Hh].
  pose proof (Forall_inv Hle) as Hxe. pose proof (Forall_inv_tail Hle) as Hhe.
  cbn beta in Hxe. cbn [app chronological]. split; [|now apply IH].
  apply Forall_app. split; [exact Hx | now repeat constructor].
Qed.

(** X25. The history that the speed effect keeps.  When the clock does not
    run backwards (the entries are in the order of their dates, none later
    than the new one, and the push is not later than the trim), every entry
    kept is later than 60 seconds before the trim, the entries stay in
    order, the new entry is kept if the trim comes less than 60 seconds
    after the push, and all entries lie within 60 seconds after the first
    one, as the best sustained speed needs them. *)
Theorem recordWpm_window (now1 now2 : Z) (wpm : Q) (h : list Sample) :
  chronological h ->
  Forall (fun e => (timestamp e <= now1)%Z) h -> (now1 <= now2)%Z ->
  let h' := recordWpm now1 now2 wpm h in
  Forall (fun e => (now2 - 60000 < timestamp e <= now2)%Z) h' /\
  chronological h' /\
  ((now2 - 60000 < now1)%Z ->
   In {| timestamp := now1; sample_wpm := wpm |} h') /\
  (forall e0 rest, h' = e0 :: rest ->
     Forall (fun e => (timestamp e0 <= timestamp e <= timestamp e0 + 60000)%Z)
            rest).
Proof.
  intros Hc Hle Hnow h'.
  assert (Hin : Forall (fun e => (now2 - 60000 < timestamp e <= now2)%Z) h').
  { unfold h', recordWpm. apply Forall_forall. intros e He.
    apply filter_In in He as [He Hf]. apply Z.ltb_lt in Hf.
    split; [exact Hf|]. apply in_app_or in He as [He|[<-|[]]].
    - rewrite Forall_forall in Hle. specialize (Hle e He). lia.
    - cbn. lia. }
  assert (Hch : chronological h').
  { unfold h', recordWpm. apply chronological_filter.
    now apply chronological_snoc. }
  split; [exact Hin|]. split; [exact Hch|]. split.
  - intros Hlt. unfold h', recordWpm. apply filter_In. split.
    + apply in_or_app. right. now left.
    + cbn. now apply Z.ltb_lt.
  - intros e0 rest Heq. rewrite Heq in Hin, Hch.
    destruct Hch as [He0 _]. pose proof (Forall_inv_tail Hin) as Hrest.
    pose proof (Forall_inv Hin) as H0. cbn beta in H0.
    rewrite Forall_forall in He0, Hrest. apply Forall_forall.
    intros e He. specialize (He0 e He). specialize (Hrest e He). lia.
Qed.

Lemma recordWpm_window_witness :
  In {| timestamp := 59000; sample_wpm := 320 |}
     (recordWpm 59000 59001 320 steady_history).
Proof.
  destruct (recordWpm_window 59000 59001 320 steady_history)
    as (_ & _ & Hkept & _).
  - cbn. repeat split; repeat constructor; cbn; lia.
  - repeat constructor; cbn; lia.
  - lia.
  - apply Hkept. lia.
Defined.

End StoreMoreProperties.

Section LibraryProperties.

Import JsString Tokenizer Store StoreMore Library.
Local Open Scope Z_scope.

Lemma thousand_block (c t : Z) :
  c * 1000 <= t < (c + 1) * 1000 -> t / 1000 = c.
Proof.
  intros H. symmetry. apply Z.div_unique with (r := t - c * 1000); lia.
Qed.

Lemma segment_loop_spec (n : Z) (fuel : nat) : forall c : Z,
  0 <= c -> n - c * 1000 <= Z.of_nat fuel * 1000 ->
  exists chs,
    segment_loop fuel c n = Some chs /\
    (c * 1000 < n -> chs <> []) /\
    (forall t, c * 1000 <= t < n -> find_chapter t chs = Some (block_of t n)) /\
    (forall t, n <= t -> find_chapter t chs = None).
Proof.
  induction fuel as [|fuel IH]; intros c Hc Hfuel.
  - exists []. cbn [segment_loop].
    replace (c * 1000 <? n) with false by (symmetry; apply Z.ltb_ge; lia).
    repeat split; try reflexivity; intros; lia.
  - cbn [segment_loop]. destruct (Z.ltb_spec (c * 1000) n) as [Hlt|Hge].
    + destruct (IH (c + 1)) as (rest & Hrest & _ & Hfind & Hpast); [lia | lia |].
      rewrite Hrest. eexists. split; [reflexivity|].
      split; [discriminate|]. split.
      * intros t Ht. unfold find_chapter.
        cbn [List.find startTokenIndex endTokenIndex].
        destruct (Z.lt_ge_cases t ((c + 1) * 1000)) as [Hin|Hout].
        -- replace ((c * 1000 <=? t) && (t <? Z.min ((c + 1) * 1000) n))
             with true
             by (symmetry; apply andb_true_intro; split;
                 [apply Z.leb_le | apply Z.ltb_lt]; lia).
           unfold block_of. rewrite (thousand_block c t) by lia. reflexivity.
        -- replace ((c * 1000 <=? t) && (t <? Z.min ((c + 1) * 1000) n))
             with false
             by (symmetry; apply andb_false_intro2, Z.ltb_ge; lia).
           apply Hfind. lia.
      * intros t Ht. unfold find_chapter.
        cbn [List.find startTokenIndex endTokenIndex].
        replace (t <? Z.min ((c + 1) * 1000) n) with false
          by (symmetry; apply Z.ltb_ge; lia).
        rewrite andb_false_r. now apply Hpast.
    + exists []. repeat split; try reflexivity; intros; lia.
Qed.

(** X26. A text without headings is cut into chapters of 1000 tokens: the
    loop ends, the chapters are never none, and every token index below the
    token count lies in exactly the chapter of its block of 1000, so that a
    progress update finds its chapter; the token count itself, which the
    application passes when a reading ends, lies in no chapter.  With no
    tokens the one chapter is the empty range from 0 to 0. *)
Theorem chapters_without_headings (text : str) (n : Z) :
  0 <= n ->
  exists chs,
    detectChapters text [] n = Some chs /\ chs <> [] /\
    (forall t, 0 <= t < n -> find_chapter t chs = Some (block_of t n)) /\
    (forall t, n <= t -> find_chapter t chs = None) /\
    (n = 0 -> chs = [ {| startTokenIndex := 0; endTokenIndex := 0 |} ]).
Proof.
  intros Hn. unfold detectChapters. cbn [map length].
  destruct (segment_loop_spec n (Z.to_nat n) 0)
    as (chs & Hs & Hne & Hfind & Hpast); [lia | lia |].
  change (0 <? Z.of_nat 0) with false. cbn iota. rewrite Hs.
  destruct (Z.lt_ge_cases 0 n) as [Hpos|Hzero].
  - assert (Hchs : chs <> []) by (apply Hne; lia).
    replace (0 <? Z.of_nat (length chs)) with true
      by (symmetry; apply Z.ltb_lt; destruct chs; [congruence | cbn; lia]).
    exists chs. split; [reflexivity|]. split; [exact Hchs|].
    split; [intros t Ht; apply Hfind; lia|]. split; [exact Hpast | lia].
  - assert (n = 0) as -> by lia. cbn in Hs. injection Hs as <-. cbn.
    eexists. split; [reflexivity|]. split; [discriminate|].
    split; [intros t Ht; lia|]. split; [|reflexivity].
    intros t Ht. unfold find_chapter. cbn.
    destruct (0 <=? t); [|reflexivity].
    replace (t <? 0) with false by (symmetry; apply Z.ltb_ge; lia).
    reflexivity.
Qed.

Lemma chapters_without_headings_witness :
  exists chs,
    detectChapters (lit "some text") [] 2500 = Some chs /\
    find_chapter 1234 chs = Some (block_of 1234 2500).
Proof.
  destruct (chapters_without_headings (lit "some text") 2500)
    as (chs & Hd & _ & Hfind & _); [lia|].
  exists chs. split; [exact Hd | apply Hfind; lia].
Defined.

Lemma split_spaces_from_length (s : str) : forall insep cur,
  (1 <= length (split_spaces_from insep cur s))%nat.
Proof.
  induction s as [|c s IH]; intros insep cur; cbn [split_spaces_from].
  - cbn. lia.
  - destruct (is_space c); [destruct insep|]; cbn [length];
      try apply IH. lia.
Qed.

Lemma heading_token_index_pos (text : str) (m : nat) :
  1 <= heading_token_index text m.
Proof.
  unfold heading_token_index, split_spaces.
  pose proof (split_spaces_from_length (firstn m text) false []). lia.
Qed.

Lemma find_chapter_before (t : Z) (chs : list Chapter) :
  Forall (fun ch => t < startTokenIndex ch) chs -> find_chapter t chs = None.
Proof.
  induction 1 as [|ch chs Hch _ IH]; [reflexivity|].
  unfold find_chapter. cbn [List.find].
  replace (startTokenIndex ch <=? t) with false
    by (symmetry; apply Z.leb_gt; exact Hch).
  exact IH.
Qed.

Lemma heading_chapters_nth (hs : list Z) (n : Z) (i : nat) (d : Chapter) :
  (i < length hs)%nat ->
  nth i (heading_chapters hs n) d
  = {| startTokenIndex := nth i hs 0;
       endTokenIndex := if (Z.of_nat i <? Z.of_nat (length hs) - 1)
                        then nth (i + 1) hs 0 else n |}.
Proof.
  intros Hi. unfold heading_chapters.
  set (f := fun i : nat => _).
  rewrite (nth_indep _ d (f 0%nat)) by (now rewrite length_map, length_seq).
  rewrite map_nth, seq_nth by exact Hi. reflexivity.
Qed.

(** X27. With headings there is one chapter per heading: each ends where
    the next begins and the last ends at the token count.  Every chapter
    begins at index 1 or later, because the count of the pieces before a
    heading is never 0; so the first token of the text lies in no
    chapter. *)
Theorem chapters_with_headings
        (text : str) (m0 : nat) (ms : list nat) (n : Z) (d : Chapter) :
  exists chs,
    detectChapters text (m0 :: ms) n = Some chs /\
    length chs = S (length ms) /\
    Forall (fun ch => 1 <= startTokenIndex ch) chs /\
    find_chapter 0 chs = None /\
    endTokenIndex (nth (length ms) chs d) = n /\
    (forall i, (S i < length chs)%nat ->
               endTokenIndex (nth i chs d) = startTokenIndex (nth (S i) chs d)).
Proof.
  unfold detectChapters.
  set (hs := map (heading_token_index text) (m0 :: ms)).
  assert (Hlen : length hs = S (length ms)) by (unfold hs; now rewrite length_map).
  assert (Hclen : length (heading_chapters hs n) = S (length ms)).
  { unfold heading_chapters. now rewrite length_map, length_seq. }
  replace (0 <? Z.of_nat (length hs)) with true
    by (symmetry; apply Z.ltb_lt; lia).
  replace (0 <? Z.of_nat (length (heading_chapters hs n))) with true
    by (symmetry; apply Z.ltb_lt; lia).
  exists (heading_chapters hs n). split; [reflexivity|]. split; [exact Hclen|].
  assert (Hstarts : Forall (fun ch => 1 <= startTokenIndex ch)
                           (heading_chapters hs n)).
  { apply Forall_forall. intros ch Hin.
    apply (In_nth _ _ d) in Hin as (i & Hi & <-).
    rewrite Hclen, <- Hlen in Hi. rewrite heading_chapters_nth by exact Hi.
    cbn [startTokenIndex].
    assert (Hnth : In (nth i hs 0) hs) by now apply nth_In.
    unfold hs in Hnth at 2. apply in_map_iff in Hnth as (m & Heq & _).
    rewrite <- Heq. apply heading_token_index_pos. }
  split; [exact Hstarts|]. split.
  { apply find_chapter_before. eapply Forall_impl; [|exact Hstarts].
    intros ch Hch. cbn in Hch. lia. }
  split.
  - rewrite heading_chapters_nth by lia. cbn [endTokenIndex].
    replace (Z.of_nat (length ms) <? Z.of_nat (length hs) - 1) with false
      by (symmetry; apply Z.ltb_ge; lia).
    reflexivity.
  - intros i Hi. rewrite Hclen in Hi.
    rewrite !heading_chapters_nth by lia. cbn [startTokenIndex endTokenIndex].
    replace (Z.of_nat i <? Z.of_nat (length hs) - 1) with true
      by (symmetry; apply Z.ltb_lt; lia).
    now rewrite Nat.add_1_r.
Qed.

Lemma threshold_integers (index total : Z) :
  0 < total ->
  reaches_threshold index total = true <-> 19 * total <= 20 * index.
Proof.
  intros Ht. unfold reaches_threshold.
  replace (total =? 0) with false by (symmetry; apply Z.eqb_neq; lia).
  rewrite Qle_bool_iff. unfold Qle, Qdiv, Qmult, Qinv, inject_Z.
  destruct total as [|p|p]; try lia. cbn. lia.
Qed.

(** X28. [updateDocumentPosition] fails for a missing document and
    otherwise stores the position in that document alone, keeping its
    tokens and chapters.  The document is marked complete exactly when 20
    times the index reaches 19 times its token count, hence at the token
    count itself; a position below that clears the mark again; and a
    document without tokens is marked exactly for a positive index. *)
Theorem updateDocumentPosition_spec
        (id : string) (index d1 d2 d3 : Z) (shelf : Shelf) :
  (rows shelf !! id = None ->
   updateDocumentPosition id index d1 d2 d3 shelf = None) /\
  (forall doc, rows shelf !! id = Some doc ->
     exists shelf' doc',
       updateDocumentPosition id index d1 d2 d3 shelf = Some shelf' /\
       rows shelf' !! id = Some doc' /\
       (forall other, other <> id -> rows shelf' !! other = rows shelf !! other) /\
       tokenIndex (lastPosition doc') = index /\
       row_totalTokens doc' = row_totalTokens doc /\
       row_chapters doc' = row_chapters doc /\
       (0 < row_totalTokens doc ->
        (completedAt doc' = Some d3 <->
         19 * row_totalTokens doc <= 20 * index) /\
        (completedAt doc' = None <->
         20 * index < 19 * row_totalTokens doc)) /\
       (row_totalTokens doc = 0 ->
        (completedAt doc' = Some d3 <-> 0 < index))).
Proof.
  unfold updateDocumentPosition. split.
  - intros H. now rewrite H.
  - intros doc H. rewrite H. eexists. eexists. split; [reflexivity|].
    cbn [rows]. split; [apply lookup_insert_eq|].
    split; [intros other Hne; now apply lookup_insert_ne|].
    cbn [lastPosition tokenIndex row_totalTokens row_chapters completedAt].
    split; [reflexivity|]. split; [reflexivity|]. split; [reflexivity|].
    split.
    + intros Ht. pose proof (threshold_integers index _ Ht) as Hthr.
      destruct (reaches_threshold index (row_totalTokens doc)).
      * split; [split; [intros _; now apply Hthr | reflexivity]|].
        split; [discriminate|]. intros Hlt.
        assert (19 * row_totalTokens doc <= 20 * index) by now apply Hthr.
        lia.
      * split.
        -- split; [discriminate|]. intros Hle. apply Hthr in Hle. discriminate.
        -- split; [|reflexivity]. intros _.
           destruct (Z.lt_ge_cases (20 * index) (19 * row_totalTokens doc))
             as [Hlt|Hge]; [exact Hlt|].
           assert (false = true) by (apply Hthr; lia). discriminate.
    + intros H0. unfold reaches_threshold. rewrite H0. cbn [Z.eqb].
      destruct (Z.ltb_spec 0 index).
      * split; [intros _; assumption | reflexivity].
      * split; [discriminate | lia].
Qed.

Lemma updateDocumentPosition_spec_witness :
  exists shelf' doc',
    updateDocumentPosition "d1" 19 0 0 7 
      {| rows := {[ "d1"%string :=
                    {| title := lit "t"; sourceType := paste; sourceUrl := None;
                       canonicalText := lit "a b"; row_totalTokens := 20;
                       row_chapters := []; 
                       lastPosition := {| tokenIndex := 0;
                                          position_updatedAt := 0 |};
                       createdAt := 0; updatedAt := 0;
                       completedAt := None |} ]};
         shelf_settings := ∅ |} = Some shelf' /\
    rows shelf' !! "d1"%string = Some doc' /\
    completedAt doc' = Some 7.
Proof.
  set (doc := {| title := lit "t"; sourceType := paste; sourceUrl := None;
                 canonicalText := lit "a b"; row_totalTokens := 20;
                 row_chapters := [];
                 lastPosition := {| tokenIndex := 0; position_updatedAt := 0 |};
                 createdAt := 0; updatedAt := 0; completedAt := None |}).
  destruct (updateDocumentPosition_spec "d1" 19 0 0 7
              {| rows := {[ "d1"%string := doc ]}; shelf_settings := ∅ |})
    as [_ H].
  destruct (H doc) as (shelf' & doc' & Hu & Hl & _ & _ & _ & _ & Hpos & _);
    [reflexivity|].
  exists shelf', doc'. split; [exact Hu|]. split; [exact Hl|].
  apply Hpos; cbn; lia.
Defined.

Lemma detectChapters_total (text : str) (matches : list nat) (n : Z) :
  0 <= n -> exists chs, detectChapters text matches n = Some chs /\ chs <> [].
Proof.
  intros Hn. unfold detectChapters. destruct matches as [|m0 ms].
  - cbn [map length].
    destruct (segment_loop_spec n (Z.to_nat n) 0) as (chs & Hs & _);
      [lia | lia |].
    change (0 <? Z.of_nat 0) with false. cbn iota. rewrite Hs.
    destruct chs as [|ch chs]; cbn [length].
    + eexists. split; [reflexivity | discriminate].
    + replace (0 <? Z.of_nat (S (length chs))) with true
        by (symmetry; apply Z.ltb_lt; lia).
      eexists. split; [reflexivity | discriminate].
  - set (hs := map (heading_token_index text) (m0 :: ms)).
    assert (Hl : length hs = S (length ms)) by (unfold hs; now rewrite length_map).
    assert (Hc : length (heading_chapters hs n) = S (length ms)).
    { unfold heading_chapters. now rewrite length_map, length_seq. }
    rewrite Hl.
    replace (0 <? Z.of_nat (S (length ms))) with true
      by (symmetry; apply Z.ltb_lt; lia).
    rewrite Hc.
    replace (0 <? Z.of_nat (S (length ms))) with true
      by (symmetry; apply Z.ltb_lt; lia).
    eexists. split; [reflexivity|]. intros E. rewrite E in Hc. discriminate.
Qed.

(** X29. [createDocument] succeeds exactly for a fresh identifier.  The
    document it stores can be looked up, counts as many tokens as the text
    has white-space separated fragments, whatever pause profile the
    settings name, has chapters, starts at position 0 and is in progress;
    the other documents are untouched. *)
Theorem createDocument_spec
        (id : string) (d1 d2 d3 : Z) (ttl text : str) (src : SourceType)
        (url : option str) (matches : list nat) (shelf : Shelf) :
  (forall old, rows shelf !! id = Some old ->
     createDocument id d1 d2 d3 ttl text src url matches shelf = None) /\
  (rows shelf !! id = None ->
   exists doc shelf',
     createDocument id d1 d2 d3 ttl text src url matches shelf
       = Some (doc, shelf') /\
     rows shelf' !! id = Some doc /\
     (forall other, other <> id -> rows shelf' !! other = rows shelf !! other) /\
     canonicalText doc = text /\
     row_totalTokens doc = Z.of_nat (length (fragments text)) /\
     row_chapters doc <> [] /\
     tokenIndex (lastPosition doc) = 0 /\
     getInProgressDocuments shelf' !! id = Some doc /\
     getCompletedDocuments shelf' !! id = None).
Proof.
  unfold createDocument.
  set (p := profile_of (shelf_settings shelf !! "default"%string)).
  destruct (detectChapters_total text matches
              (Z.of_nat (length (tokenize text p)))) as (chs & Hd & Hne);
    [lia|].
  rewrite Hd. split.
  - intros old H. now rewrite H.
  - intros H. rewrite H. eexists. eexists. split; [reflexivity|].
    cbn [rows]. split; [apply lookup_insert_eq|].
    split; [intros other Ho; now apply lookup_insert_ne|].
    cbn [canonicalText row_totalTokens row_chapters lastPosition tokenIndex].
    split; [reflexivity|]. split.
    { rewrite <- (tokenize_texts text p). now rewrite length_map. }
    split; [exact Hne|]. split; [reflexivity|].
    unfold getInProgressDocuments, getCompletedDocuments. cbn [rows]. split.
    + apply map_lookup_filter_Some. split; [apply lookup_insert_eq | reflexivity].
    + apply map_lookup_filter_None. right. intros doc Hl.
      rewrite lookup_insert_eq in Hl. injection Hl as <-. cbn. auto.
Qed.

Lemma createDocument_spec_witness :
  exists doc shelf',
    createDocument "d1" 0 0 0 (lit "Pasted Text") (lit "one two  three")
                   paste None [] empty_shelf = Some (doc, shelf') /\
    row_totalTokens doc = 3.
Proof.
  destruct (createDocument_spec "d1" 0 0 0 (lit "Pasted Text")
              (lit "one two  three") paste None [] empty_shelf) as [_ H].
  destruct H as (doc & shelf' & Hc & _ & _ & _ & Hn & _); [reflexivity|].
  exists doc, shelf'. split; [exact Hc | exact Hn].
Defined.

End LibraryProperties.
(* ===================================================================== *)
(** * Properties of the overlay's reading engine *)
(* ===================================================================== *)

Section GlideInjectProperties.

Import JsString Tokenizer GlideInject.
Local Open Scope Z_scope.

Lemma at_index_Some (ts : list Token) (i : nat) :
  (i < length ts)%nat -> exists t, at_index ts (Z.of_nat i) = Some t.
Proof.
  intros H. unfold at_index.
  destruct (Z.ltb_spec (Z.of_nat i) 0) as [?|_]; [lia|].
  rewrite Nat2Z.id. destruct (nth_error ts i) eqn:E; [eauto|].
  apply nth_error_None in E. lia.
Qed.

Lemma only_pending (id id' : nat) (d d' : option Q) :
  <[id' := d']> (delete id ({[ id := d ]} : gmap nat (option Q)))
  = {[ id' := d' ]}.
Proof. rewrite delete_singleton_eq. apply insert_empty. Qed.

Lemma shown_next (k : nat) :
  Z.of_nat (S k) :: rev (map Z.of_nat (seq 0 (S k)))
  = rev (map Z.of_nat (seq 0 (S (S k)))).
Proof.
  rewrite (seq_S (S k) 0), map_app, rev_app_distr. reflexivity.
Qed.

Lemma start_reading (ts : list Token) (h0 : nat) (wpm : option Z) :
  (0 < length ts)%nat ->
  step (engine_of ts h0) (Toggle wpm) = Some (reading ts h0 wpm 0).
Proof.
  intros H. destruct (at_index_Some ts 0 H) as [t Ht].
  change (Z.of_nat 0) with 0 in Ht.
  unfold step, engine_of, startReading, tick, updateWordDisplay.
  cbn [isPlaying negb tokens currentIndex timer pending nextHandle shown].
  destruct (Z.leb_spec (Z.of_nat (length ts)) 0) as [?|_]; [lia|].
  rewrite Ht.
  cbn [isPlaying negb tokens currentIndex timer pending nextHandle shown].
  unfold reading. rewrite insert_empty, Nat.add_0_r. reflexivity.
Qed.

Lemma fire_reading (ts : list Token) (h0 : nat) (wpm : option Z) (k : nat) :
  (S k < length ts)%nat ->
  fire_timer wpm (reading ts h0 wpm k) = Some (reading ts h0 wpm (S k)).
Proof.
  intros H. destruct (at_index_Some ts (S k) H) as [t Ht].
  unfold fire_timer, reading. cbn [timer step pending].
  rewrite lookup_singleton_eq.
  unfold tick, updateWordDisplay.
  cbn [isPlaying negb tokens currentIndex timer pending nextHandle shown].
  destruct (Z.leb_spec (Z.of_nat (length ts)) (Z.of_nat (S k))) as [?|_];
    [lia|].
  rewrite Ht.
  cbn [isPlaying negb tokens currentIndex timer pending nextHandle shown].
  rewrite only_pending, shown_next.
  replace (Z.of_nat (S k) + 1) with (Z.of_nat (S (S k))) by lia.
  replace (h0 + S k)%nat with (S (h0 + k)) by lia. reflexivity.
Qed.

Lemma fires_reading (ts : list Token) (h0 : nat) (wpm : option Z)
      (k j : nat) :
  (j + k < length ts)%nat ->
  fires k wpm (reading ts h0 wpm j) = Some (reading ts h0 wpm (j + k)).
Proof.
  revert j. induction k as [|k IH]; intros j H.
  - cbn. now rewrite Nat.add_0_r.
  - cbn [fires]. rewrite fire_reading by lia.
    rewrite IH by lia. now replace (S j + k)%nat with (j + S k)%nat by lia.
Qed.

Lemma fires_app (k j : nat) (wpm : option Z) (e : Engine) :
  fires (k + j) wpm e
  = match fires k wpm e with Some e' => fires j wpm e' | None => None end.
Proof.
  revert e. induction k as [|k IH]; intros e; [reflexivity|].
  cbn [fires Nat.add]. destruct (fire_timer wpm e); [apply IH | reflexivity].
Qed.

Lemma fire_last (ts : list Token) (h0 : nat) (wpm : option Z) (k : nat) :
  S k = length ts ->
  exists e, fire_timer wpm (reading ts h0 wpm k) = Some e /\
            tokens e = ts /\
            shown e = rev (map Z.of_nat (seq 0 (S k))) /\
            isPlaying e = false /\
            currentIndex e = Z.of_nat (length ts) + 1 /\
            pending e = {[ S (h0 + k) := delay wpm None ]}.
Proof.
  intros H.
  unfold fire_timer, reading. cbn [timer step pending].
  rewrite lookup_singleton_eq.
  unfold tick, updateWordDisplay.
  cbn [isPlaying negb tokens currentIndex timer pending nextHandle shown].
  destruct (Z.leb_spec (Z.of_nat (length ts)) (Z.of_nat (S k))) as [_|?];
    [|lia].
  unfold stopReading.
  cbn [isPlaying negb tokens currentIndex timer pending nextHandle shown].
  eexists. split; [reflexivity|].
  cbn [isPlaying negb tokens currentIndex timer pending nextHandle shown].
  repeat split; try lia.
  rewrite delete_delete_eq, delete_singleton_eq, insert_empty.
  f_equal. f_equal. unfold at_index.
  destruct (Z.ltb_spec (Z.of_nat (S k) + 1) 0) as [?|_]; [reflexivity|].
  apply nth_error_None. lia.
Qed.

Lemma stopReading_fields (x : Engine) :
  tokens (stopReading x) = tokens x /\
  shown (stopReading x) = shown x /\
  currentIndex (stopReading x) = currentIndex x /\
  isPlaying (stopReading x) = false.
Proof. unfold stopReading. destruct (timer x); cbn; auto. Qed.

Lemma past_end_tick (w : option Z) (x : Engine) :
  Z.of_nat (length (tokens x)) <= currentIndex x ->
  exists e', tick w x = Some e' /\ tokens e' = tokens x /\
             shown e' = shown x /\
             currentIndex x <= currentIndex e' /\
             isPlaying e' = false.
Proof.
  intros Hx. unfold tick. destruct (isPlaying x) eqn:Ep; cbn [negb].
  - unfold updateWordDisplay.
    destruct (Z.leb_spec (Z.of_nat (length (tokens x))) (currentIndex x))
      as [_|?]; [|lia].
    destruct (stopReading_fields x) as (H1 & H2 & H3 & H4).
    eexists. split; [reflexivity|]. cbn. rewrite H1, H2, H3, H4.
    repeat split; auto. lia.
  - exists x. repeat split; auto; try lia.
Qed.

Lemma past_end_step (e : Engine) (ev : Event) :
  is_arrow ev = false ->
  Z.of_nat (length (tokens e)) <= currentIndex e ->
  exists e', step e ev = Some e' /\
             tokens e' = tokens e /\
             shown e' = shown e /\
             currentIndex e <= currentIndex e' /\
             (isPlaying e = false -> isPlaying e' = false).
Proof.
  intros Ha Hi.
  destruct ev as [w| | |id w]; try discriminate.
  - cbn [step]. destruct (isPlaying e) eqn:Ep.
    + destruct (stopReading_fields e) as (H1 & H2 & H3 & H4).
      exists (stopReading e). repeat split; auto. lia.
    + unfold startReading. rewrite Ep.
      match goal with |- context [tick w ?x] =>
        destruct (past_end_tick w x) as (e' & H & H1 & H2 & H3 & H4) end.
      { exact Hi. }
      exists e'. repeat split; auto.
  - cbn [step]. destruct (pending e !! id).
    + match goal with |- context [tick w ?x] =>
        destruct (past_end_tick w x) as (e' & H & H1 & H2 & H3 & H4) end.
      { exact Hi. }
      exists e'. repeat split; auto.
    + exists e. repeat split; auto. lia.
Qed.

Lemma past_end_run (evs : list Event) (e : Engine) :
  forallb (fun ev => negb (is_arrow ev)) evs = true ->
  Z.of_nat (length (tokens e)) <= currentIndex e ->
  isPlaying e = false ->
  exists e', run e evs = Some e' /\
             shown e' = shown e /\
             isPlaying e' = false.
Proof.
  revert e. induction evs as [|ev evs IH]; intros e Ha Hi Hp.
  - exists e. auto.
  - cbn [forallb] in Ha. apply andb_prop in Ha as [Ha1 Ha2].
    apply negb_true_iff in Ha1.
    destruct (past_end_step e ev Ha1 Hi) as (e1 & H & H1 & H2 & H3 & H4).
    cbn [run]. rewrite H.
    destruct (IH e1 Ha2) as (e' & Hr & Hs & Hq).
    { rewrite H1. lia. }
    { auto. }
    exists e'. split; [exact Hr|]. split; [congruence | exact Hq].
Qed.

(** X30. Uninterrupted reading in the overlay.  After play is pressed on a
    fresh engine with [n >= 1] tokens and its timer has fired [k < n]
    times, the tokens 0 to [k] have been displayed in order, each once, the
    engine is playing, and exactly one callback is pending, whose delay is
    computed from the pause of token [k + 1], the one after the token on
    display.  The [n]-th firing displays nothing and stops the engine; from
    then on no click on play and no timer displays anything, and the engine
    stays stopped. *)
Theorem overlay_reads_through
        (text : str) (h0 : nat) (wpm : option Z) :
  let ts := tokenize text normal in
  let n := length ts in
  (0 < n)%nat ->
  (forall k, (k < n)%nat ->
     exists e, play k wpm (setupRSVPEngine text h0) = Some e /\
               shown e = rev (map Z.of_nat (seq 0 (S k))) /\
               isPlaying e = true /\
               pending e
               = {[ (h0 + k)%nat := delay wpm (at_index ts (Z.of_nat k + 1)) ]})
  /\
  (exists e, play n wpm (setupRSVPEngine text h0) = Some e /\
             shown e = rev (map Z.of_nat (seq 0 n)) /\
             isPlaying e = false /\
             pending e = {[ (h0 + n)%nat := delay wpm None ]} /\
             forall evs,
               forallb (fun ev => negb (is_arrow ev)) evs = true ->
               exists e', run e evs = Some e' /\
                          shown e' = shown e /\
                          isPlaying e' = false).
Proof.
  intros ts n Hn. unfold setupRSVPEngine. fold ts.
  assert (Hplay : forall k, (k < n)%nat ->
            play k wpm (engine_of ts h0) = Some (reading ts h0 wpm k)).
  { intros k Hk. unfold play. rewrite (start_reading ts h0 wpm Hn).
    apply (fires_reading ts h0 wpm k 0). exact Hk. }
  split.
  - intros k Hk. exists (reading ts h0 wpm k). split; [apply Hplay, Hk|].
    split; [reflexivity|]. split; [reflexivity|].
    unfold reading. cbn [pending].
    now replace (Z.of_nat (S k)) with (Z.of_nat k + 1) by lia.
  - destruct n as [|m] eqn:En; [lia|].
    destruct (fire_last ts h0 wpm m) as (e & Hf & Ht & Hs & Hp & Hi & Hq).
    { subst n. lia. }
    exists e. split.
    { unfold play. rewrite (start_reading ts h0 wpm) by (fold n; lia).
      replace (S m) with (m + 1)%nat by lia. rewrite fires_app.
      rewrite (fires_reading ts h0 wpm m 0) by (fold n; lia).
      cbn [fires Nat.add]. rewrite Hf. reflexivity. }
    split; [exact Hs|]. split; [exact Hp|]. split.
    { rewrite Hq. now replace (h0 + S m)%nat with (S (h0 + m)) by lia. }
    intros evs Hevs. apply past_end_run; [exact Hevs| |exact Hp].
    rewrite Ht, Hi. lia.
Qed.

Lemma overlay_reads_through_witness :
  exists e, play 1 (Some 300) (setupRSVPEngine (lit "Hi there.") 5) = Some e /\
            shown e = [1; 0] /\
            pending e = {[ 6%nat := Some (60000 / 300 * 0)%Q ]}.
Proof.
  destruct (overlay_reads_through (lit "Hi there.") 5 (Some 300)) as [H _];
    [vm_compute; lia|].
  destruct (H 1%nat) as (e & Hp & Hs & _ & Hq); [vm_compute; lia|].
  exists e. split; [exact Hp|]. split; [exact Hs|]. rewrite Hq. reflexivity.
Defined.

End GlideInjectProperties.
(* ===================================================================== *)
(** * Properties of the functions in double-precision arithmetic *)
(* ===================================================================== *)

Section Float64Properties.

Import Store Measure Float64.
Local Open Scope Q_scope.

(** ** The rounding *)

Lemma floor_bounds (y : Q) :
  inject_Z (Qfloor y) <= y /\ y < inject_Z (Qfloor y) + 1.
Proof.
  split; [apply Qfloor_le|].
  pose proof (Qlt_floor y) as H. rewrite inject_Z_plus in H. exact H.
Qed.

Lemma rne_cases (y : Q) :
  (rne y = Qfloor y /\ y - inject_Z (Qfloor y) <= 1 # 2) \/
  (rne y = (Qfloor y + 1)%Z /\ 1 # 2 <= y - inject_Z (Qfloor y)).
Proof.
  unfold rne. cbv zeta.
  destruct (Qcompare_spec (y - inject_Z (Qfloor y)) (1 # 2)) as [H|H|H].
  - destruct (Z.even (Qfloor y)); [left | right]; split; try reflexivity;
      rewrite H; apply Qle_refl.
  - left. split; [reflexivity | now apply Qlt_le_weak].
  - right. split; [reflexivity | now apply Qlt_le_weak].
Qed.

Lemma rne_near (y : Q) :
  y - (1 # 2) <= inject_Z (rne y) /\ inject_Z (rne y) <= y + (1 # 2).
Proof.
  destruct (floor_bounds y) as [H1 H2].
  destruct (rne_cases y) as [[-> H]|[-> H]].
  - split; lra.
  - rewrite inject_Z_plus. change (inject_Z 1) with 1. split; lra.
Qed.

Lemma rne_Z (z : Z) : rne (inject_Z z) = z.
Proof.
  unfold rne. cbv zeta. rewrite Qfloor_Z.
  destruct (Qcompare_spec (inject_Z z - inject_Z z) (1 # 2)) as [H|H|H].
  - exfalso. assert (inject_Z z - inject_Z z == 0) as E by ring.
    rewrite E in H. discriminate.
  - reflexivity.
  - exfalso. assert (inject_Z z - inject_Z z == 0) as E by ring.
    rewrite E in H. discriminate.
Qed.

Lemma rne_mono (y y' : Q) : y <= y' -> (rne y <= rne y')%Z.
Proof.
  intros Hle.
  pose proof (Qfloor_resp_le y y' Hle) as Hf.
  destruct (Z.eq_dec (Qfloor y) (Qfloor y')) as [E|NE].
  - unfold rne. cbv zeta. rewrite <- E.
    destruct (Qcompare_spec (y - inject_Z (Qfloor y)) (1 # 2)) as [H|H|H];
      destruct (Qcompare_spec (y' - inject_Z (Qfloor y)) (1 # 2)) as [H'|H'|H'];
      try lia; try (destruct (Z.even (Qfloor y)); lia); exfalso; lra.
  - destruct (rne_cases y) as [[-> _]|[-> _]];
      destruct (rne_cases y') as [[-> _]|[-> _]]; lia.
Qed.

Lemma pow2_pos (e : Z) : 0 < 2 ^ e.
Proof. apply Qpower_0_lt. reflexivity. Qed.

Lemma pow2_le (a b : Z) : (a <= b)%Z -> 2 ^ a <= 2 ^ b.
Proof. intros H. apply Qpower_le_compat_l; [exact H | discriminate]. Qed.

Lemma pow2_lt_inv (a b : Z) : 2 ^ a < 2 ^ b -> (a < b)%Z.
Proof. intros H. apply (Qpower_lt_compat_l_inv 2); [exact H | reflexivity]. Qed.

Lemma pow2_plus (a b : Z) : 2 ^ (a + b) == 2 ^ a * 2 ^ b.
Proof. apply Qpower_plus. discriminate. Qed.

Lemma pow2_succ (a : Z) : 2 ^ (a + 1) == 2 * 2 ^ a.
Proof. rewrite pow2_plus. change (2 ^ 1) with 2. ring. Qed.

Lemma pow2_Z (n : Z) : (0 <= n)%Z -> inject_Z (2 ^ n) == 2 ^ n.
Proof. intros H. now rewrite Zpower_Qpower. Qed.

Lemma Zlog2_Q (n : Z) :
  (0 < n)%Z -> 2 ^ Z.log2 n <= inject_Z n /\ inject_Z n < 2 ^ (Z.log2 n + 1).
Proof.
  intros H. destruct (Z.log2_spec n H) as [H1 H2].
  pose proof (Z.log2_nonneg n) as H0.
  split.
  - rewrite <- pow2_Z by exact H0. now rewrite <- Zle_Qle.
  - rewrite <- pow2_Z by lia. rewrite <- Zlt_Qlt.
    now rewrite <- Z.add_1_r in H2.
Qed.

Lemma ilog2_spec (a : Q) :
  0 < a -> 2 ^ ilog2 a <= a /\ a < 2 ^ (ilog2 a + 1).
Proof.
  intros Ha. destruct a as [n d].
  assert (Hn : (0 < n)%Z).
  { unfold Qlt in Ha. cbn in Ha. lia. }
  destruct (Zlog2_Q n Hn) as [Hn1 Hn2].
  destruct (Zlog2_Q (Zpos d) eq_refl) as [Hd1 Hd2].
  set (ln := Z.log2 n) in *. set (ld := Z.log2 (Zpos d)) in *.
  assert (Ea : n # d == inject_Z n / inject_Z (Zpos d)) by apply Qmake_Qdiv.
  assert (Hdpos : 0 < inject_Z (Zpos d)) by reflexivity.
  assert (Hlo : 2 ^ (ln - ld - 1) <= n # d).
  { rewrite Ea. apply Qle_shift_div_l; [exact Hdpos|].
    apply Qle_trans with (2 ^ (ln - ld - 1) * 2 ^ (ld + 1)).
    - apply Qmult_le_l; [apply pow2_pos | now apply Qlt_le_weak].
    - rewrite <- pow2_plus. now replace (ln - ld - 1 + (ld + 1))%Z with ln by lia. }
  assert (Hhi : n # d < 2 ^ (ln - ld + 1)).
  { rewrite Ea. apply Qlt_shift_div_r; [exact Hdpos|].
    apply Qlt_le_trans with (2 ^ (ln - ld + 1) * 2 ^ ld).
    - rewrite <- pow2_plus. now replace (ln - ld + 1 + ld)%Z with (ln + 1)%Z by lia.
    - apply Qmult_le_l; [apply pow2_pos | exact Hd1]. }
  unfold ilog2. cbn [Qnum Qden]. fold ln ld.
  destruct (Qle_bool (2 ^ (ln - ld)) (n # d)) eqn:E.
  - apply Qle_bool_iff in E. split; [exact E | exact Hhi].
  - split; [exact Hlo|].
    replace (ln - ld - 1 + 1)%Z with (ln - ld)%Z by lia.
    apply Qnot_le_lt. intros H. apply Qle_bool_iff in H. congruence.
Qed.

Lemma ilog2_mono (a b : Q) : 0 < a -> a <= b -> (ilog2 a <= ilog2 b)%Z.
Proof.
  intros Ha Hab.
  assert (Hb : 0 < b) by (eapply Qlt_le_trans; eassumption).
  destruct (ilog2_spec a Ha) as [H1 _]. destruct (ilog2_spec b Hb) as [_ H2].
  assert (H : 2 ^ ilog2 a < 2 ^ (ilog2 b + 1)).
  { eapply Qle_lt_trans; [exact H1|]. eapply Qle_lt_trans; eassumption. }
  apply pow2_lt_inv in H. lia.
Qed.

Lemma exponent_mono (a b : Q) : 0 < a -> a <= b -> (exponent a <= exponent b)%Z.
Proof.
  intros Ha Hab. unfold exponent. pose proof (ilog2_mono a b Ha Hab). lia.
Qed.

(** The scaled value lies below 2^53, and at or above 2^52 in the normal range. *)
Lemma scaled_lt (a : Q) : 0 < a -> a / 2 ^ exponent a < 2 ^ 53.
Proof.
  intros Ha. destruct (ilog2_spec a Ha) as [_ H].
  apply Qlt_shift_div_r; [apply pow2_pos|].
  rewrite <- pow2_plus. eapply Qlt_le_trans; [exact H|].
  apply pow2_le. unfold exponent. lia.
Qed.

Lemma scaled_ge (a : Q) :
  0 < a -> (-1074 < exponent a)%Z -> 2 ^ 52 <= a / 2 ^ exponent a.
Proof.
  intros Ha He. destruct (ilog2_spec a Ha) as [H _].
  apply Qle_shift_div_l; [apply pow2_pos|].
  rewrite <- pow2_plus. eapply Qle_trans; [|exact H].
  apply pow2_le. unfold exponent in *. lia.
Qed.

Lemma flpos_nonneg (x : Q) : 0 < x -> 0 <= flpos x.
Proof.
  intros Hx. unfold flpos. apply Qmult_le_0_compat; [|apply Qlt_le_weak, pow2_pos].
  change 0 with (inject_Z 0). rewrite <- Zle_Qle.
  rewrite <- (rne_Z 0). apply rne_mono. change (inject_Z 0) with 0.
  apply Qle_shift_div_l; [apply pow2_pos|]. rewrite Qmult_0_l. now apply Qlt_le_weak.
Qed.

Lemma flpos_mono (x y : Q) : 0 < x -> x <= y -> flpos x <= flpos y.
Proof.
  intros Hx Hxy.
  assert (Hy : 0 < y) by (eapply Qlt_le_trans; eassumption).
  pose proof (exponent_mono x y Hx Hxy) as He.
  unfold flpos.
  destruct (Z.eq_dec (exponent x) (exponent y)) as [E|NE].
  - rewrite <- E. apply Qmult_le_r; [apply pow2_pos|].
    rewrite <- Zle_Qle. apply rne_mono.
    apply Qmult_le_r; [apply Qinv_lt_0_compat, pow2_pos | exact Hxy].
  - assert (Hlt : (exponent x < exponent y)%Z) by lia.
    assert (Hye : (-1074 < exponent y)%Z) by (unfold exponent in *; lia).
    apply Qle_trans with (2 ^ 53 * 2 ^ exponent x).
    + apply Qmult_le_r; [apply pow2_pos|].
      change (2 ^ 53) with (inject_Z (2 ^ 53)).
      rewrite <- Zle_Qle. rewrite <- (rne_Z (2 ^ 53)). apply rne_mono.
      apply Qlt_le_weak. apply (scaled_lt x Hx).
    + apply Qle_trans with (2 ^ 52 * 2 ^ exponent y).
      * rewrite <- !pow2_plus. apply pow2_le. lia.
      * apply Qmult_le_r; [apply pow2_pos|].
        change (2 ^ 52) with (inject_Z (2 ^ 52)).
        rewrite <- Zle_Qle. rewrite <- (rne_Z (2 ^ 52)). apply rne_mono.
        apply (scaled_ge y Hy Hye).
Qed.

Lemma fl_pos_eq (x : Q) : 0 < x -> fl x = flpos x.
Proof.
  intros H. unfold fl.
  destruct (Qcompare_spec x 0) as [E|E|E]; [|exfalso; lra | reflexivity].
  exfalso. rewrite E in H. discriminate.
Qed.

Lemma fl_neg_eq (x : Q) : x < 0 -> fl x = - flpos (- x).
Proof.
  intros H. unfold fl.
  destruct (Qcompare_spec x 0) as [E|E|E]; [|reflexivity | exfalso; lra].
  exfalso. rewrite E in H. discriminate.
Qed.

Lemma fl_zero_eq (x : Q) : x == 0 -> fl x = 0.
Proof.
  intros H. unfold fl.
  destruct (Qcompare_spec x 0) as [E|E|E]; [reflexivity | |]; exfalso; lra.
Qed.

Lemma fl_mono (x y : Q) : x <= y -> fl x <= fl y.
Proof.
  intros Hxy.
  destruct (Q_dec x 0) as [[Hx|Hx]|Hx]; destruct (Q_dec y 0) as [[Hy|Hy]|Hy].
  - rewrite (fl_neg_eq x Hx), (fl_neg_eq y Hy).
    apply Qopp_le_compat. apply flpos_mono; lra.
  - rewrite (fl_neg_eq x Hx), (fl_pos_eq y Hy).
    pose proof (flpos_nonneg (- x)). pose proof (flpos_nonneg y). lra.
  - rewrite (fl_neg_eq x Hx), (fl_zero_eq y Hy).
    pose proof (flpos_nonneg (- x)). lra.
  - exfalso. lra.
  - rewrite (fl_pos_eq x Hx), (fl_pos_eq y Hy). now apply flpos_mono.
  - exfalso. lra.
  - rewrite (fl_zero_eq x Hx), (fl_neg_eq y Hy). exfalso. lra.
  - rewrite (fl_zero_eq x Hx), (fl_pos_eq y Hy). now apply flpos_nonneg.
  - rewrite (fl_zero_eq x Hx), (fl_zero_eq y Hy). apply Qle_refl.
Qed.

Lemma fl_comp (x y : Q) : x == y -> fl x == fl y.
Proof.
  intros H. apply Qle_antisym; apply fl_mono; rewrite H; apply Qle_refl.
Qed.

Lemma fl_nonneg (x : Q) : 0 <= x -> 0 <= fl x.
Proof. intros H. change 0 with (fl 0). now apply fl_mono. Qed.

(** In the normal range a rounding changes the value by at most the
    fraction 2^-53 of it. *)
Lemma fl_error (x : Q) :
  2 ^ (-1022) <= x ->
  x - x * 2 ^ (-53) <= fl x /\ fl x <= x + x * 2 ^ (-53).
Proof.
  intros Hn.
  assert (Hx : 0 < x) by (eapply Qlt_le_trans; [apply (pow2_pos (-1022)) | exact Hn]).
  rewrite (fl_pos_eq x Hx). unfold flpos.
  assert (He : (-1074 < exponent x)%Z \/ (exponent x = -1074 /\ ilog2 x = -1022)%Z).
  { destruct (ilog2_spec x Hx) as [_ H].
    assert (Hl : 2 ^ (-1022) < 2 ^ (ilog2 x + 1)) by (eapply Qle_lt_trans; eassumption).
    apply pow2_lt_inv in Hl. unfold exponent. lia. }
  assert (Hs : 2 ^ 52 <= x / 2 ^ exponent x).
  { destruct He as [He|[He Hl]]; [now apply scaled_ge|].
    destruct (ilog2_spec x Hx) as [H _].
    apply Qle_shift_div_l; [apply pow2_pos|].
    rewrite <- pow2_plus. rewrite He. eapply Qle_trans; [|exact Hn].
    apply pow2_le. lia. }
  set (e := exponent x) in *. set (y := x / 2 ^ e) in *.
  pose proof (pow2_pos e) as Hp.
  assert (Exy : x == y * 2 ^ e).
  { unfold y. field. intros H0. rewrite H0 in Hp. discriminate. }
  destruct (rne_near y) as [H1 H2].
  assert (Hu : 1 # 2 <= y * 2 ^ (-53)).
  { apply Qle_trans with (2 ^ 52 * 2 ^ (-53)); [vm_compute; discriminate|].
    apply Qmult_le_r; [apply pow2_pos | exact Hs]. }
  set (u := 2 ^ (-53)) in *. set (p := 2 ^ e) in *. set (r := inject_Z (rne y)) in *.
  clearbody u p r y. rewrite Exy. split.
  - apply Qle_trans with ((y - y * u) * p); [ring_simplify; apply Qle_refl|].
    apply Qmult_le_r; [exact Hp | lra].
  - apply Qle_trans with ((y + y * u) * p); [|ring_simplify; apply Qle_refl].
    apply Qmult_le_r; [exact Hp | lra].
Qed.

(** The error bound as two factors. *)
Lemma fl_factor (x : Q) :
  2 ^ (-1022) <= x ->
  (1 - 2 ^ (-53)) * x <= fl x /\ fl x <= (1 + 2 ^ (-53)) * x.
Proof.
  intros H. destruct (fl_error x H) as [H1 H2]. split.
  - eapply Qle_trans; [|exact H1]. ring_simplify. apply Qle_refl.
  - eapply Qle_trans; [exact H2|]. ring_simplify. apply Qle_refl.
Qed.

Lemma Qinv_le_anti (a b : Q) : 0 < a -> a <= b -> / b <= / a.
Proof.
  intros Ha Hab. assert (Hb : 0 < b) by lra.
  apply Qle_shift_inv_l; [exact Ha|]. rewrite Qmult_comm.
  change (a * / b) with (a / b). apply Qle_shift_div_r; [exact Hb | lra].
Qed.

Lemma Qdiv_le_anti (c a b : Q) : 0 <= c -> 0 < a -> a <= b -> c / b <= c / a.
Proof.
  intros Hc Ha Hab. unfold Qdiv. rewrite !(Qmult_comm c).
  apply Qmult_le_compat_r; [now apply Qinv_le_anti | exact Hc].
Qed.

Lemma duration_mono_w (w w' m : Q) :
  0 < w -> w <= w' -> 0 <= m ->
  getTokenDuration w' m <= getTokenDuration w m.
Proof.
  intros Hw Hle Hm. unfold getTokenDuration. apply fl_mono.
  apply Qmult_le_compat_r.
  - apply fl_mono. apply Qdiv_le_anti; [discriminate | exact Hw | exact Hle].
  - apply fl_nonneg. lra.
Qed.

Lemma duration_mono_m (w m m' : Q) :
  0 < w -> m <= m' ->
  getTokenDuration w m <= getTokenDuration w m'.
Proof.
  intros Hw Hle. unfold getTokenDuration. apply fl_mono.
  rewrite !(Qmult_comm (fl (60000 / w))).
  apply Qmult_le_compat_r.
  - apply fl_mono. lra.
  - apply fl_nonneg. apply Qle_shift_div_l; [exact Hw | lra].
Qed.

(** The duration in minutes that [measureActualWPM] computes, for a span
    in the normal range: positive and within two roundings of the exact
    quotient. *)
Lemma durationMinutes_bounds (span : Q) :
  2 ^ (-20) <= span ->
  let d := fl (fl span / 60000) in
  (1 - 2 ^ (-53)) * (1 - 2 ^ (-53)) * (span / 60000) <= d /\
  d <= (1 + 2 ^ (-53)) * (1 + 2 ^ (-53)) * (span / 60000).
Proof.
  intros Hs d.
  change (2 ^ (-20)) with (1 # 1048576) in Hs.
  destruct (fl_factor span) as [H1 H2].
  { change (2 ^ (-1022)) with (/ (2 ^ 1022)).
    eapply Qle_trans; [|exact Hs]. vm_compute. discriminate. }
  destruct (fl_factor (fl span / 60000)) as [H3 H4].
  { eapply Qle_trans with ((1 - 2 ^ (-53)) * (1 # 1048576) / 60000);
      [vm_compute; discriminate|].
    change (2 ^ (-53)) with (1 # 9007199254740992) in *.
    unfold Qdiv. change (/ 60000) with (1 # 60000). lra. }
  fold d in H3, H4.
  change (2 ^ (-53)) with (1 # 9007199254740992) in *.
  unfold Qdiv in *. change (/ 60000) with (1 # 60000) in *.
  set (a := fl span) in *. clearbody a d. split; lra.
Qed.

Lemma quotient_bounds (n d D : Q) :
  0 <= n -> 0 < D ->
  (1 - 2 ^ (-53)) * (1 - 2 ^ (-53)) * D <= d ->
  d <= (1 + 2 ^ (-53)) * (1 + 2 ^ (-53)) * D ->
  (1 - 3 * 2 ^ (-53)) * (n / D) <= n / d /\
  n / d <= (1 + (5 # 2) * 2 ^ (-53)) * (n / D).
Proof.
  intros Hn HD H1 H2. numerals.
  set (c1 := (1 - (1 # 9007199254740992)) * (1 - (1 # 9007199254740992))) in *.
  set (c2 := (1 + (1 # 9007199254740992)) * (1 + (1 # 9007199254740992))) in *.
  assert (Hc1 : 0 < c1) by reflexivity.
  assert (Hc2 : 0 < c2) by reflexivity.
  assert (Hc1ne : ~ c1 == 0) by (intros E; rewrite E in Hc1; discriminate).
  assert (Hc2ne : ~ c2 == 0) by (intros E; rewrite E in Hc2; discriminate).
  assert (Hc1D : 0 < c1 * D) by (apply Qmult_lt_0_compat; assumption).
  assert (Hd : 0 < d) by (eapply Qlt_le_trans; eassumption).
  assert (HDne : ~ D == 0) by (intros E; rewrite E in HD; discriminate).
  assert (HX : 0 <= n / D) by (apply Qle_shift_div_l; [exact HD | lra]).
  split.
  - apply Qle_trans with (n / (c2 * D)).
    + setoid_replace (n / (c2 * D)) with (/ c2 * (n / D)) using relation Qeq by (field; split; assumption).
      apply Qmult_le_compat_r; [vm_compute; discriminate | exact HX].
    + apply Qdiv_le_anti; [exact Hn | exact Hd | exact H2].
  - apply Qle_trans with (n / (c1 * D)).
    + apply Qdiv_le_anti; [exact Hn | exact Hc1D | exact H1].
    + setoid_replace (n / (c1 * D)) with (/ c1 * (n / D)) using relation Qeq by (field; split; assumption).
      apply Qmult_le_compat_r; [vm_compute; discriminate | exact HX].
Qed.

Lemma measure_empty (n s e : Q) : e <= s -> measureActualWPM n s e = 0.
Proof.
  intros Hle. unfold measureActualWPM.
  assert (H1 : fl (e - s) <= 0).
  { apply Qle_trans with (fl 0); [|apply Qle_refl]. apply fl_mono. lra. }
  assert (H2 : fl (fl (e - s) / 60000) <= 0).
  { apply Qle_trans with (fl 0); [|apply Qle_refl]. apply fl_mono.
    unfold Qdiv. change (/ 60000) with (1 # 60000). lra. }
  apply Qle_bool_iff in H2. now rewrite H2.
Qed.

Lemma measure_error (n : Z) (s e : Q) :
  2 ^ (-20) <= e - s -> e - s <= 2 ^ 53 -> (0 <= n <= 2 ^ 53)%Z ->
  let exact := inject_Z n * 60000 / (e - s) in
  exact - exact * 2 ^ (-51) - (1 # 2) < measureActualWPM (inject_Z n) s e /\
  measureActualWPM (inject_Z n) s e <= exact + exact * 2 ^ (-51) + (1 # 2).
Proof.
  intros Hlo Hhi Hn exact.
  set (span := e - s) in *.
  destruct (durationMinutes_bounds span Hlo) as [Hd1 Hd2].
  unfold measureActualWPM. fold span.
  set (d := fl (fl span / 60000)) in *.
  assert (Hspan : 0 < span).
  { eapply Qlt_le_trans; [|exact Hlo]. reflexivity. }
  assert (HD : 0 < span / 60000).
  { apply Qlt_shift_div_l; [reflexivity | lra]. }
  assert (Hd : 0 < d).
  { eapply Qlt_le_trans; [|exact Hd1].
    apply Qmult_lt_0_compat; [reflexivity | exact HD]. }
  assert (Hnq : 0 <= inject_Z n).
  { change 0 with (inject_Z 0). rewrite <- Zle_Qle. lia. }
  destruct (Qle_bool d 0) eqn:E.
  { apply Qle_bool_iff in E. exfalso. lra. }
  destruct (quotient_bounds (inject_Z n) d (span / 60000) Hnq HD Hd1 Hd2)
    as [Hq1 Hq2].
  assert (EX : inject_Z n / (span / 60000) == exact).
  { unfold exact. field. intros H0. rewrite H0 in Hspan. discriminate. }
  rewrite EX in Hq1, Hq2.
  assert (HX : 0 <= exact).
  { rewrite <- EX. apply Qle_shift_div_l; [exact HD | lra]. }
  set (q0 := inject_Z n / d) in *.
  destruct (Math_round_near (fl q0)) as [Hr1 Hr2].
  destruct (Z.eq_dec n 0) as [->|Hne].
  - assert (Eq0 : q0 == 0) by (unfold q0; field; lra).
    assert (Ef : fl q0 == 0) by (rewrite (fl_comp _ _ Eq0); reflexivity).
    rewrite (Math_round_comp _ _ Ef). change (Math_round 0) with 0%Z.
    assert (exact == 0) as -> by (unfold exact; field; lra).
    split; [reflexivity | discriminate].
  - assert (Hn1 : 1 <= inject_Z n).
    { change 1 with (inject_Z 1). rewrite <- Zle_Qle. lia. }
    destruct (fl_factor q0) as [Hf1 Hf2].
    { apply Qle_shift_div_l; [exact Hd|].
      unfold Qdiv in Hd2. change (/ 60000) with (1 # 60000) in Hd2.
      numerals. lra. }
    numerals. set (r := inject_Z (Math_round (fl q0))) in *.
    set (q := fl q0) in *. clearbody r q q0 exact d.
    split; lra.
Qed.

(** The rounding on the decimal 0.1, and on the sum of the doubles nearest
    to 0.1 and 0.2, which is the double above 0.3. *)
Example fl_tenth :
  fl (1 # 10) == 3602879701896397 # 36028797018963968 /\
  fl (fl (1 # 10) + fl (2 # 10)) == 1351079888211149 # 4503599627370496 /\
  ~ fl (fl (1 # 10) + fl (2 # 10)) == fl (3 # 10).
Proof. split; [reflexivity | split; [reflexivity | vm_compute; discriminate]]. Qed.

(** ** The duration of a token *)

Lemma duration_error (w m : Q) :
  2 ^ (-500) <= w -> w <= 2 ^ 500 -> 0 <= m -> m <= 2 ^ 500 ->
  let exact := 60000 / w * (1 + m) in
  exact - exact * 2 ^ (-51) <= getTokenDuration w m /\
  getTokenDuration w m <= exact + exact * 2 ^ (-51).
Proof.
  intros Hw1 Hw2 Hm1 Hm2 exact.
  assert (Hw : 0 < w).
  { eapply Qlt_le_trans; [apply (pow2_pos (-500)) | exact Hw1]. }
  assert (HB0 : 60000 / 2 ^ 500 <= 60000 / w).
  { apply Qdiv_le_anti; [discriminate | exact Hw | exact Hw2]. }
  destruct (fl_factor (60000 / w)) as [Hb1 Hb2].
  { eapply Qle_trans; [|exact HB0]. vm_compute. discriminate. }
  destruct (fl_factor (1 + m)) as [Hc1 Hc2].
  { apply Qle_trans with 1; [vm_compute; discriminate | lra]. }
  unfold getTokenDuration. cbv zeta.
  set (B := 60000 / w) in *. set (b := fl B) in *.
  set (C := 1 + m) in *. set (c := fl C) in *.
  assert (HB : 0 < B).
  { eapply Qlt_le_trans; [|exact HB0]. reflexivity. }
  assert (HC : 1 <= C) by (unfold C; lra).
  assert (Hlo : (1 - 2 ^ (-53)) * B * ((1 - 2 ^ (-53)) * C) <= b * c).
  { apply Qmult_le_compat_nonneg; (split; [|assumption]).
    - apply Qmult_le_0_compat; [vm_compute; discriminate | lra].
    - apply Qmult_le_0_compat; [vm_compute; discriminate | lra]. }
  assert (Hhi : b * c <= (1 + 2 ^ (-53)) * B * ((1 + 2 ^ (-53)) * C)).
  { apply Qmult_le_compat_nonneg; (split; [|assumption]).
    - eapply Qle_trans; [|exact Hb1].
      apply Qmult_le_0_compat; [vm_compute; discriminate | lra].
    - eapply Qle_trans; [|exact Hc1].
      apply Qmult_le_0_compat; [vm_compute; discriminate | lra]. }
  assert (HBC : 60000 / 2 ^ 500 * 1 <= B * C).
  { apply Qmult_le_compat_nonneg; split;
      [vm_compute; discriminate | exact HB0 | discriminate | exact HC]. }
  assert (El : (1 - 2 ^ (-53)) * B * ((1 - 2 ^ (-53)) * C)
               == (1 - 2 ^ (-53)) * (1 - 2 ^ (-53)) * (B * C)) by ring.
  assert (Eh : (1 + 2 ^ (-53)) * B * ((1 + 2 ^ (-53)) * C)
               == (1 + 2 ^ (-53)) * (1 + 2 ^ (-53)) * (B * C)) by ring.
  rewrite El in Hlo. rewrite Eh in Hhi.
  fold exact in Hlo, Hhi, HBC.
  destruct (fl_factor (b * c)) as [Hp1 Hp2].
  { eapply Qle_trans; [|exact Hlo].
    apply Qle_trans with ((1 - 2 ^ (-53)) * (1 - 2 ^ (-53)) * (60000 / 2 ^ 500 * 1));
      [vm_compute; discriminate|].
    apply Qmult_le_l; [reflexivity | exact HBC]. }
  assert (HX : 0 <= exact).
  { eapply Qle_trans; [|exact HBC]. vm_compute. discriminate. }
  set (p := fl (b * c)) in *. set (bc := b * c) in *.
  clearbody p bc exact. clear - Hlo Hhi Hp1 Hp2 HX.
  numerals. split; lra.
Qed.

(** C2, the claim as stated.  In double arithmetic the duration is not
    strictly monotonic: at 300 words per minute the multipliers 0 and
    [2^-60], both doubles, give the same 200 milliseconds, and the speeds
    [400 + 2^-44] and [400 + 2^-43], adjacent doubles, give the same
    duration without pause. *)
Lemma duration_not_strict :
  (fl (1 # 2 ^ 60) == 1 # 2 ^ 60 /\ 0 < 1 # 2 ^ 60 /\
   ~ getTokenDuration 300 0 < getTokenDuration 300 (1 # 2 ^ 60)) /\
  (fl (400 + 2 ^ (-44)) == 400 + 2 ^ (-44) /\
   fl (400 + 2 ^ (-43)) == 400 + 2 ^ (-43) /\
   400 + 2 ^ (-44) < 400 + 2 ^ (-43) /\
   ~ getTokenDuration (400 + 2 ^ (-43)) 0 < getTokenDuration (400 + 2 ^ (-44)) 0).
Proof.
  split.
  - split; [reflexivity|]. split; [reflexivity|]. vm_compute. discriminate.
  - split; [reflexivity|]. split; [reflexivity|]. split; [reflexivity|].
    vm_compute. discriminate.
Qed.

(** C2, amended.  For a positive speed [w] and a non-negative multiplier
    [m] the duration is [(60000 / w) * (1 + m)] evaluated in double
    arithmetic, the division, the addition and the multiplication each
    rounded to the nearest double; at 300 words per minute without pause it
    is exactly 200; a higher speed never gives a longer duration and a
    larger multiplier never a shorter one.  Where no operation overflows or
    underflows, for [w] and [m] up to [2^500] and [w] from [2^-500], the
    duration differs from the exact product by at most the fraction [2^-51]
    of it. *)
Theorem getTokenDuration_rounded (w m : Q) :
  0 < w -> 0 <= m ->
  getTokenDuration w m = fl (fl (60000 / w) * fl (1 + m)) /\
  getTokenDuration 300 0 == 200 /\
  (forall w', w <= w' -> getTokenDuration w' m <= getTokenDuration w m) /\
  (forall m', m <= m' -> getTokenDuration w m <= getTokenDuration w m') /\
  (2 ^ (-500) <= w -> w <= 2 ^ 500 -> m <= 2 ^ 500 ->
   let exact := 60000 / w * (1 + m) in
   exact - exact * 2 ^ (-51) <= getTokenDuration w m /\
   getTokenDuration w m <= exact + exact * 2 ^ (-51)).
Proof.
  intros Hw Hm.
  split; [reflexivity|]. split; [reflexivity|]. split; [|split].
  - intros w' Hle. now apply duration_mono_w.
  - intros m' Hle. now apply duration_mono_m.
  - intros Hw1 Hw2 Hm2. now apply duration_error.
Qed.

(** The theorem at 350 words per minute and the sentence pause 6/5 of the
    normal profile. *)
Lemma getTokenDuration_rounded_witness :
  getTokenDuration 400 (6 # 5) <= getTokenDuration 350 (6 # 5) /\
  getTokenDuration 350 (6 # 5) <= getTokenDuration 350 (3 # 2) /\
  getTokenDuration 350 (6 # 5)
  <= 60000 / 350 * (1 + (6 # 5)) + 60000 / 350 * (1 + (6 # 5)) * 2 ^ (-51).
Proof.
  assert (Hw : 0 < 350) by reflexivity.
  assert (Hm : 0 <= 6 # 5) by discriminate.
  destruct (getTokenDuration_rounded 350 (6 # 5) Hw Hm)
    as (_ & _ & Hdec & Hinc & Herr).
  split; [apply Hdec; discriminate|].
  split; [apply Hinc; discriminate|].
  apply Herr; vm_compute; discriminate.
Defined.

(** ** The measured speed *)

Lemma measure_nonneg (n s e : Q) : 0 <= n -> 0 <= measureActualWPM n s e.
Proof.
  intros Hn. unfold measureActualWPM.
  destruct (Qle_bool (fl (fl (e - s) / 60000)) 0) eqn:E; [apply Qle_refl|].
  assert (Hd : 0 < fl (fl (e - s) / 60000)).
  { apply Qnot_le_lt. intros H. apply Qle_bool_iff in H. congruence. }
  change 0 with (inject_Z 0). rewrite <- Zle_Qle.
  rewrite <- (Math_round_Z 0). apply Math_round_le.
  apply fl_nonneg. apply Qle_shift_div_l; [exact Hd | lra].
Qed.

Lemma measure_mono (n n' s e : Q) :
  n <= n' -> measureActualWPM n s e <= measureActualWPM n' s e.
Proof.
  intros Hn. unfold measureActualWPM.
  destruct (Qle_bool (fl (fl (e - s) / 60000)) 0) eqn:E; [apply Qle_refl|].
  assert (Hd : 0 < fl (fl (e - s) / 60000)).
  { apply Qnot_le_lt. intros H. apply Qle_bool_iff in H. congruence. }
  rewrite <- Zle_Qle. apply Math_round_le. apply fl_mono.
  apply Qmult_le_compat_r; [exact Hn|].
  apply Qlt_le_weak. now apply Qinv_lt_0_compat.
Qed.

(** X1. [measureActualWPM] returns 0, without dividing, when the end is
    not after the start, and never a negative speed for a non-negative
    count.  For a count of at most [2^53] tokens over a span between
    [2^-20] and [2^53] milliseconds, where no operation overflows or
    underflows, the result differs from the exact
    [tokenCount * 60000 / (endTime - startTime)] by at most one half, for
    [Math.round], and the fraction [2^-51] of the exact value, for the
    three rounded operations before it. *)
Theorem measureActualWPM_rounded (n : Z) (s e : Q) :
  (e <= s -> measureActualWPM (inject_Z n) s e = 0) /\
  ((0 <= n)%Z -> 0 <= measureActualWPM (inject_Z n) s e) /\
  (2 ^ (-20) <= e - s -> e - s <= 2 ^ 53 -> (0 <= n <= 2 ^ 53)%Z ->
   let exact := inject_Z n * 60000 / (e - s) in
   exact - exact * 2 ^ (-51) - (1 # 2) < measureActualWPM (inject_Z n) s e /\
   measureActualWPM (inject_Z n) s e <= exact + exact * 2 ^ (-51) + (1 # 2)).
Proof.
  split; [apply measure_empty|]. split.
  - intros Hn. apply measure_nonneg.
    change 0 with (inject_Z 0). now rewrite <- Zle_Qle.
  - apply measure_error.
Qed.

(** The theorem at 3 tokens in 1600 milliseconds: the exact speed is 112.5
    and the function returns 112, because the quotient it rounds is the
    double below 112.5. *)
Lemma measureActualWPM_rounded_witness :
  measureActualWPM (inject_Z 3) 0 1600 = 112 /\
  inject_Z 3 * 60000 / (1600 - 0) == 225 # 2 /\
  measureActualWPM (inject_Z 3) 0 1600
  <= inject_Z 3 * 60000 / (1600 - 0)
     + inject_Z 3 * 60000 / (1600 - 0) * 2 ^ (-51) + (1 # 2) /\
  measureActualWPM (inject_Z 3) 1600 1600 = 0.
Proof.
  destruct (measureActualWPM_rounded 3 0 1600) as (_ & _ & Herr).
  destruct (measureActualWPM_rounded 3 1600 1600) as (Hempty & _).
  split; [vm_compute; reflexivity|]. split; [reflexivity|]. split.
  - apply Herr; [discriminate | discriminate | lia].
  - apply Hempty. discriminate.
Defined.

Lemma recordToken_iter (k : nat) (m : Meter) :
  Nat.iter k recordToken m
  = {| tokenCount := tokenCount m + Z.of_nat k; startTime := startTime m |}.
Proof.
  induction k as [|k IH].
  - cbn. destruct m. cbn. f_equal. lia.
  - change (Nat.iter (S k) recordToken m)
      with (recordToken (Nat.iter k recordToken m)).
    rewrite IH. unfold recordToken. cbn [tokenCount startTime]. f_equal. lia.
Qed.

(** X2. The meter counts from its last [reset]: whatever was recorded and
    reset before, after a [reset] at [r] and [k] calls of [recordToken] the
    reading at [now] is [measureActualWPM(k, r, now)].  It is 0 at and
    before [r], so a reading straight after a reset divides by nothing; it
    is never negative; and a further token never lowers it. *)
Theorem meter_since_reset
        (t0 : Q) (before : list MeterCall) (r : Q) (k : nat) (now : Q) :
  let m := Nat.iter k recordToken
             (reset r (meter_calls (createTimingMeasureCallback t0) before)) in
  getWPM now m = measureActualWPM (inject_Z (Z.of_nat k)) r now /\
  (now <= r -> getWPM now m = 0) /\
  0 <= getWPM now m /\
  getWPM now m <= getWPM now (recordToken m).
Proof.
  intros m. unfold m. rewrite recordToken_iter. unfold reset, getWPM.
  cbn [tokenCount startTime recordToken]. rewrite Z.add_0_l.
  split; [reflexivity|]. split; [apply measure_empty|]. split.
  - apply measure_nonneg. change 0 with (inject_Z 0). rewrite <- Zle_Qle. lia.
  - apply measure_mono. rewrite <- Zle_Qle. lia.
Qed.

(** The theorem for a meter that had counted 2 tokens before its reset at
    5000 and 3 tokens since: 1600 milliseconds later it reads 112. *)
Lemma meter_since_reset_witness :
  getWPM 6600
    (Nat.iter 3 recordToken
       (reset 5000
          (meter_calls (createTimingMeasureCallback 0)
                       [CallRecordToken; CallRecordToken])))
  = 112 /\
  getWPM 5000
    (Nat.iter 3 recordToken
       (reset 5000
          (meter_calls (createTimingMeasureCallback 0)
                       [CallRecordToken; CallRecordToken])))
  = 0.
Proof.
  destruct (meter_since_reset 0 [CallRecordToken; CallRecordToken] 5000 3 6600)
    as (H & _).
  destruct (meter_since_reset 0 [CallRecordToken; CallRecordToken] 5000 3 5000)
    as (_ & H0 & _).
  split.
  - cbv zeta in H. rewrite H. vm_compute. reflexivity.
  - apply H0. apply Qle_refl.
Defined.

End Float64Properties.
